(** * The humanizer's analyzer and rewriting pipeline (cli.js)

    A shallow embedding of [analyzeAIPatterns], [applyHumanization] and the
    stage functions of [src/cli.js], with the properties of the project's
    specification stated over it.

    Modelling conventions.
    - A JavaScript string is a [list ascii].  Codes below 128 are the ASCII
      characters; on them the classes [\s], [\w], [\b] and the case mappings
      are those of ECMAScript.  Codes from 128 up stand for code units that
      are neither white space nor letters with a case (the classes [\w] and
      [\b] of a RegExp without the [u] flag never contain a non-ASCII unit).
    - Numbers that the source computes in double precision are real numbers
      here ([R]): the arithmetic is idealised to exact arithmetic.
    - [Math.random] is a stream of rationals in the interval [0,1) that the
      pipeline threads through its stages; a [TypeError] is [None]. *)

From Stdlib Require Import Ascii String DecimalString Bool Arith Lia.
From Stdlib Require Import QArith Qround ZArith.
From Stdlib Require Import Reals Lra.
From Stdlib Require Import List.
Import ListNotations.

Set Implicit Arguments.

Close Scope Q_scope.
Close Scope R_scope.
Close Scope Z_scope.
Open Scope nat_scope.
Open Scope list_scope.

(* ================================================================== *)
(** * JavaScript strings *)
(* ================================================================== *)

Module JS.

Definition jstring := list ascii.

(** String literals of the source are written [lit "..."]. *)
Definition lit (s : string) : jstring := list_ascii_of_string s.

Definition jstring_dec : forall a b : jstring, {a = b} + {a <> b} :=
  list_eq_dec ascii_dec.

Definition streq (a b : jstring) : bool :=
  if jstring_dec a b then true else false.

Definition code (c : ascii) : nat := nat_of_ascii c.

Definition between (lo hi : nat) (c : ascii) : bool :=
  (lo <=? code c) && (code c <=? hi).

(** [\s]: TAB, LF, VT, FF, CR and SPACE. *)
Definition is_space (c : ascii) : bool :=
  between 9 13 c || (code c =? 32).

Definition is_upper (c : ascii) : bool := between 65 90 c.
Definition is_lower (c : ascii) : bool := between 97 122 c.
Definition is_digit (c : ascii) : bool := between 48 57 c.

(** [\w]: [A-Za-z0-9_]. *)
Definition is_word (c : ascii) : bool :=
  is_upper c || is_lower c || is_digit c || (code c =? 95).

Definition toLower (c : ascii) : ascii :=
  if is_upper c then ascii_of_nat (code c + 32) else c.

Definition toUpper (c : ascii) : ascii :=
  if is_lower c then ascii_of_nat (code c - 32) else c.

Definition toLowerCase (s : jstring) : jstring := map toLower s.
Definition toUpperCase (s : jstring) : jstring := map toUpper s.

(** [s.charAt(0)] (the empty string when [s] is empty) and [s.slice(1)]. *)
Definition charAt0 (s : jstring) : jstring :=
  match s with [] => [] | c :: _ => [c] end.

Definition slice1 (s : jstring) : jstring := tl s.

(** [s.charAt(0).toUpperCase() + s.slice(1)] and its lower-case twin. *)
Definition capitalize (s : jstring) : jstring :=
  toUpperCase (charAt0 s) ++ slice1 s.

Definition uncapitalize (s : jstring) : jstring :=
  toLowerCase (charAt0 s) ++ slice1 s.

Fixpoint trimStart (s : jstring) : jstring :=
  match s with
  | [] => []
  | c :: s' => if is_space c then trimStart s' else s
  end.

Definition trimEnd (s : jstring) : jstring := rev (trimStart (rev s)).

Definition trim (s : jstring) : jstring := trimEnd (trimStart s).

Fixpoint starts_with (p s : jstring) : bool :=
  match p, s with
  | [], _ => true
  | _ :: _, [] => false
  | a :: p', b :: s' => Ascii.eqb a b && starts_with p' s'
  end.

(** [s.includes(p)]. *)
Fixpoint includes (s p : jstring) : bool :=
  starts_with p s ||
  match s with
  | [] => false
  | _ :: s' => includes s' p
  end.

(** [parts.join(sep)]. *)
Fixpoint join (sep : jstring) (parts : list jstring) : jstring :=
  match parts with
  | [] => []
  | [p] => p
  | p :: ps => p ++ sep ++ join sep ps
  end.

(** [s.split(sep)] for a non-empty literal separator. *)
Fixpoint split_lit_from (sep : jstring) (acc : jstring) (skip : nat)
  (s : jstring) : list jstring :=
  match s with
  | [] => [rev acc]
  | c :: s' =>
      match skip with
      | S k => split_lit_from sep acc k s'
      | O =>
          if starts_with sep s
          then rev acc :: split_lit_from sep [] (length sep - 1) s'
          else split_lit_from sep (c :: acc) 0 s'
      end
  end.

Definition split_lit (sep s : jstring) : list jstring :=
  split_lit_from sep [] 0 s.

End JS.

Import JS.

(* ================================================================== *)
(** * Regular expressions *)
(* ================================================================== *)

Module Regex.

(** The fragment of RegExp syntax that the source uses.  Every quantifier
    of the source is applied to a single character class, and capture
    groups are neither nested nor placed under an alternative, so that the
    groups close in the order of their numbers. *)
Inductive regex : Type :=
| Eps : regex
| Cls : (ascii -> bool) -> regex          (* one character of a class *)
| Seq : regex -> regex -> regex
| Alt : regex -> regex -> regex
| StarC : (ascii -> bool) -> regex        (* greedy [c*] *)
| Group : regex -> regex                  (* capturing group *)
| WordB : regex                           (* [\b] *)
| Bol : regex                             (* [^] *)
| Eol : regex.                            (* [$] *)

(** Greedy [c+]. *)
Definition PlusC (P : ascii -> bool) : regex := Seq (Cls P) (StarC P).

Fixpoint seq (rs : list regex) : regex :=
  match rs with
  | [] => Eps
  | [r] => r
  | r :: rs' => Seq r (seq rs')
  end.

Fixpoint alt (rs : list regex) : regex :=
  match rs with
  | [] => Cls (fun _ => false)
  | [r] => r
  | r :: rs' => Alt r (alt rs')
  end.

(** A literal character, matched exactly or under the [i] flag. *)
Definition chr (c : ascii) : regex := Cls (Ascii.eqb c).
Definition chr_i (c : ascii) : regex :=
  Cls (fun x => Ascii.eqb (toLower x) (toLower c)).

Definition str_cs (s : string) : regex := seq (map chr (lit s)).
Definition str_i (s : string) : regex := seq (map chr_i (lit s)).

(** A character set [[...]] given by its members. *)
Definition one_of (s : string) (c : ascii) : bool :=
  existsb (Ascii.eqb c) (lit s).

(** A position in the subject: the characters before it, nearest first,
    the characters from it on, and the captures closed so far. *)
Definition mstate : Type := (jstring * jstring * list jstring)%type.

Definition word_before (before : jstring) : bool :=
  match before with [] => false | c :: _ => is_word c end.

Definition word_after (after : jstring) : bool :=
  match after with [] => false | c :: _ => is_word c end.

(** All the splits of [after] at a prefix of its leading run of [P], the
    longest prefix first. *)
Fixpoint star_states (P : ascii -> bool) (before after : jstring)
  : list (jstring * jstring) :=
  match after with
  | c :: rest =>
      if P c then star_states P (c :: before) rest ++ [(before, after)]
      else [(before, after)]
  | [] => [(before, after)]
  end.

(** The states a backtracking matcher reaches, in its order of preference. *)
Fixpoint rmatch (r : regex) (st : mstate) : list mstate :=
  let '(before, after, caps) := st in
  match r with
  | Eps => [st]
  | Cls P =>
      match after with
      | c :: rest => if P c then [(c :: before, rest, caps)] else []
      | [] => []
      end
  | Seq r1 r2 => flat_map (rmatch r2) (rmatch r1 st)
  | Alt r1 r2 => rmatch r1 st ++ rmatch r2 st
  | StarC P => map (fun ba => (fst ba, snd ba, caps)) (star_states P before after)
  | Group r1 =>
      map (fun st' : mstate =>
             let '(before', after', caps') := st' in
             (before', after',
              caps' ++ [rev (firstn (length before' - length before) before')]))
          (rmatch r1 st)
  | WordB => if xorb (word_before before) (word_after after) then [st] else []
  | Bol => match before with [] => [st] | _ => [] end
  | Eol => match after with [] => [st] | _ => [] end
  end.

(** A match attempted at one position: the matched text and the captures. *)
Definition exec (r : regex) (before after : jstring)
  : option (jstring * list jstring) :=
  match rmatch r (before, after, []) with
  | [] => None
  | (before', _, caps) :: _ =>
      Some (rev (firstn (length before' - length before) before'), caps)
  end.

(** The subject cut into the matches of a global scan and the characters
    between them. *)
Inductive seg : Type :=
| Keep : ascii -> seg
| Hit : jstring -> list jstring -> seg.

Fixpoint scan_from (r : regex) (before after : jstring) (skip : nat)
  : list seg :=
  match after with
  | [] =>
      match skip with
      | S _ => []
      | O => match exec r before [] with
             | Some (m, caps) => [Hit m caps]
             | None => []
             end
      end
  | c :: rest =>
      match skip with
      | S k => scan_from r (c :: before) rest k
      | O =>
          match exec r before after with
          | Some ([], caps) =>
              Hit [] caps :: Keep c :: scan_from r (c :: before) rest 0
          | Some ((_ :: m') as m, caps) =>
              Hit m caps :: scan_from r (c :: before) rest (length m')
          | None => Keep c :: scan_from r (c :: before) rest 0
          end
      end
  end.

Definition scan (r : regex) (s : jstring) : list seg := scan_from r [] s 0.

(** [s.replace(/r/g, f)] with a replacement function of the match and its
    captures. *)
Definition render (f : jstring -> list jstring -> jstring) (g : seg) : jstring :=
  match g with
  | Keep c => [c]
  | Hit m caps => f m caps
  end.

Definition replace_all (r : regex) (f : jstring -> list jstring -> jstring)
  (s : jstring) : jstring :=
  concat (map (render f) (scan r s)).

(** Replacement templates: text and [$n] references. *)
Inductive piece : Type :=
| T : string -> piece
| G : nat -> piece.

Definition expand (tpl : list piece) (m : jstring) (caps : list jstring)
  : jstring :=
  concat (map (fun p => match p with
                        | T s => lit s
                        | G n => nth (n - 1) caps []
                        end) tpl).

(** [s.replace(/r/, f)]: the first match only. *)
Fixpoint render_first (f : jstring -> list jstring -> jstring)
  (segs : list seg) : jstring :=
  match segs with
  | [] => []
  | Keep c :: segs' => c :: render_first f segs'
  | Hit m caps :: segs' => f m caps ++ concat (map (render (fun m _ => m)) segs')
  end.

Definition replace_first (r : regex) (f : jstring -> list jstring -> jstring)
  (s : jstring) : jstring :=
  render_first f (scan r s).

(** [s.match(/r/g)]: the matched texts, [None] for JavaScript's [null]. *)
Fixpoint hits (segs : list seg) : list jstring :=
  match segs with
  | [] => []
  | Keep _ :: segs' => hits segs'
  | Hit m _ :: segs' => m :: hits segs'
  end.

Definition match_all (r : regex) (s : jstring) : option (list jstring) :=
  match hits (scan r s) with
  | [] => None
  | ms => Some ms
  end.

(** [/r/.test(s)]. *)
Definition test (r : regex) (s : jstring) : bool :=
  match hits (scan r s) with [] => false | _ => true end.

(** [s.split(/r/)] for a pattern that cannot match the empty string; the
    captures of each separator are spliced in, as [split] does. *)
Fixpoint split_segs (acc : jstring) (segs : list seg) : list jstring :=
  match segs with
  | [] => [rev acc]
  | Keep c :: segs' => split_segs (c :: acc) segs'
  | Hit _ caps :: segs' => rev acc :: caps ++ split_segs [] segs'
  end.

Definition split (r : regex) (s : jstring) : list jstring :=
  split_segs [] (scan r s).

End Regex.

Import Regex.


(* ================================================================== *)
(** * Numbers, maps and sets *)
(* ================================================================== *)

Module Num.

Definition Rltb (x y : R) : bool := if Rlt_dec x y then true else false.
Definition Rgtb (x y : R) : bool := Rltb y x.

(** [xs.reduce((sum, x) => sum + f(x), 0)]. *)
Definition sum_by (A : Type) (f : A -> R) (xs : list A) : R :=
  fold_left (fun sum x => (sum + f x)%R) xs 0%R.

(** The decimal numeral of a natural number, as template literals print it. *)
Definition nat_to_string (n : nat) : jstring :=
  lit (NilEmpty.string_of_uint (Nat.to_uint n)).

End Num.

Import Num.

Module JSMap.

(** A [Map] with string keys: the entries in insertion order. *)
Definition t (V : Type) : Type := list (jstring * V).

Fixpoint get (V : Type) (m : t V) (k : jstring) : option V :=
  match m with
  | [] => None
  | (k', v) :: m' => if streq k k' then Some v else get m' k
  end.

Fixpoint set (V : Type) (k : jstring) (v : V) (m : t V) : t V :=
  match m with
  | [] => [(k, v)]
  | (k', v') :: m' =>
      if streq k k' then (k', v) :: m' else (k', v') :: set k v m'
  end.

Definition values (V : Type) (m : t V) : list V := map snd m.

(** [(m.get(k) || 0)]. *)
Definition get_or_0 (m : t nat) (k : jstring) : nat :=
  match get m k with Some v => v | None => 0 end.

(** [m.set(k, (m.get(k) || 0) + 1)]. *)
Definition incr (k : jstring) (m : t nat) : t nat :=
  set k (get_or_0 m k + 1) m.

End JSMap.

Module JSSet.

(** [new Set(xs)]: the distinct elements in order of first occurrence. *)
Definition add (x : jstring) (s : list jstring) : list jstring :=
  if existsb (streq x) s then s else s ++ [x].

Definition of_list (xs : list jstring) : list jstring :=
  fold_left (fun s x => add x s) xs [].

End JSSet.

(* ================================================================== *)
(** * Pattern analysis: [analyzeAIPatterns] *)
(* ================================================================== *)

Module Analyzer.

(** A field of [detailedMetrics] that holds the number 0 in the degenerate
    record and the string of [toFixed] otherwise. *)
Inductive num_or_str : Type :=
| JNum : R -> num_or_str
| JStr : jstring -> num_or_str.

Record DetailedMetrics : Type := {
  totalWords : nat;
  totalSentences : nat;
  avgSentenceLength : num_or_str;
  uniqueWordRatio : num_or_str;
  contractionCount : nat;
  passiveVoiceInstances : nat
}.

Record PatternAnalysis : Type := {
  aiPatterns : list jstring;
  formalityScore : R;
  repetitionScore : R;
  passiveCount : nat;
  passiveScore : R;
  sentenceVariety : R;
  starterScore : R;
  contractionScore : R;
  transitionScore : R;
  vocabDiversity : R;
  overallAIScore : R;
  detailedMetrics : DetailedMetrics
}.

(** [text.split(/[.!?]+/).filter(s => s.trim().length > 0)] *)
Definition sentences_of (text : jstring) : list jstring :=
  filter (fun s => 0 <? length (trim s)) (split (PlusC (one_of ".!?")) text).

(** [text.toLowerCase().split(/\s+/).filter(w => w.length > 0)] *)
Definition words_of (text : jstring) : list jstring :=
  filter (fun w => 0 <? length w) (split (PlusC is_space) (toLowerCase text)).

(** ** 1. Formality *)

Definition formalWords : list jstring := map lit
  [ "utilize"; "implement"; "facilitate"; "leverage"; "optimize"; "strategic";
    "comprehensive"; "methodology"; "framework"; "paradigm"; "subsequently";
    "aforementioned"; "nonetheless"; "heretofore"; "wherein"; "whereby";
    "notwithstanding"; "henceforth"; "ascertain"; "endeavor"; "procure";
    "paramount"; "integral"; "quintessential"; "multifaceted"; "substantiate"
  ]%string.

(** [xs.includes(x)] on an array of strings. *)
Definition array_includes (xs : list jstring) (x : jstring) : bool :=
  existsb (streq x) xs.

Definition formalCount (words : list jstring) : nat :=
  length (filter (array_includes formalWords) words).

(** ** 2. Repetition *)

(** The [forEach] over the words that fills [wordFreq] and [phraseFreq]. *)
Fixpoint count_words (words : list jstring) (wordFreq phraseFreq : JSMap.t nat)
  : JSMap.t nat * JSMap.t nat :=
  match words with
  | [] => (wordFreq, phraseFreq)
  | word :: rest =>
      let wordFreq' :=
        if 3 <? length word then JSMap.incr word wordFreq else wordFreq in
      let phraseFreq' :=
        match rest with
        | next :: _ => JSMap.incr (word ++ lit " " ++ next) phraseFreq
        | [] => phraseFreq
        end in
      count_words rest wordFreq' phraseFreq'
  end.

Definition wordFreq (words : list jstring) : JSMap.t nat :=
  fst (count_words words [] []).

Definition phraseFreq (words : list jstring) : JSMap.t nat :=
  snd (count_words words [] []).

Definition excess (freq : nat) : R :=
  if 2 <? freq then ((INR freq - 2) * 0.5)%R else 0%R.

Definition phraseRepetition (words : list jstring) : nat :=
  length (filter (fun f => 1 <? f) (JSMap.values (phraseFreq words))).

(** ** 3. Passive voice *)

Definition to_be : regex :=
  Group (alt (map str_i ["is"; "are"; "was"; "were"; "been"; "being"]%string)).

Definition passivePatterns : list regex :=
  [ seq [WordB; to_be; PlusC is_space; PlusC is_word; str_i "ed"; WordB];
    seq [WordB; to_be; PlusC is_space; PlusC is_word; str_i "en"; WordB];
    seq [WordB; str_i "can"; PlusC is_space; str_i "be"; PlusC is_space;
         PlusC is_word; str_i "ed"; WordB];
    seq [WordB; str_i "will"; PlusC is_space; str_i "be"; PlusC is_space;
         PlusC is_word; str_i "ed"; WordB];
    seq [WordB; str_i "has"; PlusC is_space; str_i "been"; PlusC is_space;
         PlusC is_word; str_i "ed"; WordB];
    seq [WordB; str_i "have"; PlusC is_space; str_i "been"; PlusC is_space;
         PlusC is_word; str_i "ed"; WordB] ].

(** [matches ? matches.length : 0] *)
Definition match_count (r : regex) (text : jstring) : nat :=
  match match_all r text with
  | Some ms => length ms
  | None => 0
  end.

Definition count_passive (text : jstring) : nat :=
  fold_left (fun passiveCount pattern => passiveCount + match_count pattern text)
            passivePatterns 0.

(** ** 4. Sentence variety *)

(** [s.trim().split(/\s+/)] *)
Definition sentence_words (s : jstring) : list jstring :=
  split (PlusC is_space) (trim s).

Definition sentenceLengths (sentences : list jstring) : list nat :=
  map (fun s => length (sentence_words s)) sentences.

Definition average (lens : list nat) : R :=
  (sum_by INR lens / INR (length lens))%R.

Definition variance_of (lens : list nat) : R :=
  (sum_by (fun len => (INR len - average lens) ^ 2)%R lens / INR (length lens))%R.

(** ** 5. Sentence starters *)

(** [s.trim().split(/\s+/)[0]?.toLowerCase()], kept by [filter(Boolean)]
    when it is a non-empty string. *)
Definition starters_of (sentences : list jstring) : list jstring :=
  filter (fun w => 0 <? length w)
    (map (fun s => match sentence_words s with
                   | w :: _ => toLowerCase w
                   | [] => []
                   end) sentences).

Definition starterFreq (starters : list jstring) : JSMap.t nat :=
  fold_left (fun m starter => JSMap.incr starter m) starters [].

Definition starterRepetition (sentences : list jstring) : nat :=
  length (filter (fun f => 2 <? f)
            (JSMap.values (starterFreq (starters_of sentences)))).

(** ** 6. Contractions *)

Definition contractionPattern : regex :=
  seq [WordB;
       Group (alt (map str_i
         [ "can't"; "won't"; "don't"; "isn't"; "aren't"; "wasn't"; "weren't";
           "haven't"; "hasn't"; "hadn't"; "you're"; "we're"; "they're"; "it's";
           "that's"; "I'm"; "I've"; "I'll"; "there's"; "who's"; "what's";
           "where's"; "how's" ]%string));
       WordB].

(** [(text.match(contractionPattern) || []).length] *)
Definition count_contractions (text : jstring) : nat :=
  match_count contractionPattern text.

(** ** 7. Robotic transitions *)

Definition roboticTransitions : list jstring := map lit
  [ "furthermore"; "moreover"; "in conclusion"; "additionally"; "consequently";
    "subsequently"; "therefore"; "thus"; "hence"; "accordingly"; "nevertheless";
    "notwithstanding"; "it is important to note"; "it should be noted";
    "it is worth mentioning"; "in this regard"; "in light of"; "with respect to";
    "in terms of"; "with regard to"; "as previously mentioned" ]%string.

Definition transitionCount (text : jstring) : nat :=
  length (filter (fun t => includes (toLowerCase text) t) roboticTransitions).

(** ** 8. Perfect structure *)

Definition perfectStructureIndicators (sentences : list jstring) : nat :=
  (if (3 <? length sentences)
      && forallb (fun s => 15 <? length (sentence_words s)) sentences
   then 1 else 0)
  +
  (if (3 <? length sentences)
      && forallb (fun s => includes s (lit ",")) sentences
   then 1 else 0).

(** ** 10. Paragraphs *)

Definition paragraphs_of (text : jstring) : list jstring :=
  filter (fun p => 0 <? length (trim p)) (split_lit (lit (String "010" (String "010" ""))) text).

Definition paragraphConsistency (text : jstring) : R :=
  let paragraphs := paragraphs_of text in
  if 1 <? length paragraphs then
    let paraLengths := map (@length ascii) paragraphs in
    let paraAvg := average paraLengths in
    let paraVariance := variance_of paraLengths in
    if Rltb (sqrt paraVariance / paraAvg) 0.2 then 0.5%R else 0%R
  else 0%R.

Section Analyze.

(** [x.toFixed(digits)], the decimal rendering of a double. *)
Variable toFixed : nat -> R -> jstring.

Definition percent (x : R) : jstring := toFixed 1 (x * 100)%R.

(** [if (cond) aiPatterns.push(entry)] *)
Definition push_if (cond : bool) (entry : jstring) : list jstring :=
  if cond then [entry] else [].

Definition degenerate (words sentences : list jstring) : PatternAnalysis :=
  {| aiPatterns := [lit "Insufficient text for analysis"];
     formalityScore := 0;
     repetitionScore := 0;
     passiveCount := 0;
     passiveScore := 0;
     sentenceVariety := 0;
     starterScore := 0;
     contractionScore := 0;
     transitionScore := 0;
     vocabDiversity := 0;
     overallAIScore := 0;
     detailedMetrics :=
       {| totalWords := length words;
          totalSentences := length sentences;
          avgSentenceLength := JNum 0;
          uniqueWordRatio := JNum 0;
          contractionCount := 0;
          passiveVoiceInstances := 0 |} |}.

Definition analyzeAIPatterns (text : jstring) : PatternAnalysis :=
  let sentences := sentences_of text in
  let words := words_of text in
  if (length words =? 0) || (length sentences =? 0) then
    degenerate words sentences
  else
    (* 1 *)
    let formalityScore :=
      Rmin (INR (formalCount words) / INR (length words) * 5) 1 in
    (* 2 *)
    let repetitionScore :=
      (sum_by excess (JSMap.values (wordFreq words)) / INR (length words))%R in
    let phraseRepetition := phraseRepetition words in
    (* 3 *)
    let passiveCount := count_passive text in
    let passiveScore :=
      Rmin (INR passiveCount / Rmax (INR (length sentences)) 1) 1 in
    (* 4 *)
    let sentenceLengths := sentenceLengths sentences in
    let avgLength := average sentenceLengths in
    let variance := variance_of sentenceLengths in
    let stdDev := sqrt variance in
    let sentenceVariety := Rmin (stdDev / Rmax avgLength 1) 1 in
    (* 5 *)
    let starterRepetition := starterRepetition sentences in
    let starterScore :=
      Rmin (INR starterRepetition / Rmax (INR (length sentences)) 1) 1 in
    (* 6 *)
    let contractionCount := count_contractions text in
    let contractionScore :=
      (INR contractionCount / Rmax (INR (length sentences)) 1)%R in
    let lackOfContractions := if Rltb contractionScore 0.1 then 0.8%R else 0%R in
    (* 7 *)
    let transitionCount := transitionCount text in
    let transitionScore := Rmin (INR transitionCount / 3) 1 in
    (* 8 *)
    let perfectStructure :=
      (INR (perfectStructureIndicators sentences) / 2)%R in
    (* 9 *)
    let uniqueWords := JSSet.of_list words in
    let vocabDiversity := (INR (length uniqueWords) / INR (length words))%R in
    let lowDiversityScore := if Rltb vocabDiversity 0.5 then 0.6%R else 0%R in
    (* 10 *)
    let paragraphConsistency := paragraphConsistency text in
    (* pattern list *)
    let aiPatterns :=
      push_if (Rgtb formalityScore 0.15)
        (lit "High formality level detected (" ++ percent formalityScore
           ++ lit "%)")
      ++ push_if (Rgtb repetitionScore 0.08)
        (lit "Word repetition detected (" ++ percent repetitionScore
           ++ lit "%)")
      ++ push_if (3 <? phraseRepetition)
        (lit "Phrase repetition detected (" ++ nat_to_string phraseRepetition
           ++ lit " repeated phrases)")
      ++ push_if (Rgtb passiveScore 0.25)
        (lit "Excessive passive voice (" ++ nat_to_string passiveCount
           ++ lit " instances)")
      ++ push_if (Rltb sentenceVariety 0.35)
        (lit "Uniform sentence lengths (variety: " ++ percent sentenceVariety
           ++ lit "%)")
      ++ push_if (Rgtb starterScore 0.3)
        (lit "Repetitive sentence starters detected")
      ++ push_if (Rgtb lackOfContractions 0.5)
        (lit "Lack of contractions (" ++ nat_to_string contractionCount
           ++ lit " found)")
      ++ push_if (0 <? transitionCount)
        (lit "Robotic transitions detected (" ++ nat_to_string transitionCount
           ++ lit " found)")
      ++ push_if (Rgtb perfectStructure 0.3)
        (lit "Unnaturally perfect sentence structure")
      ++ push_if (Rgtb lowDiversityScore 0.3)
        (lit "Limited vocabulary diversity (" ++ percent vocabDiversity
           ++ lit "%)")
      ++ push_if (Rgtb paragraphConsistency 0.3)
        (lit "Suspiciously consistent paragraph lengths") in
    let overallAIScore :=
      Rmin (formalityScore * 0.20 +
            repetitionScore * 0.15 +
            passiveScore * 0.15 +
            (1 - sentenceVariety) * 0.15 +
            starterScore * 0.10 +
            lackOfContractions * 0.10 +
            transitionScore * 0.10 +
            lowDiversityScore * 0.05) 1 in
    {| aiPatterns := aiPatterns;
       formalityScore := formalityScore;
       repetitionScore := repetitionScore;
       passiveCount := passiveCount;
       passiveScore := passiveScore;
       sentenceVariety := sentenceVariety;
       starterScore := starterScore;
       contractionScore := contractionScore;
       transitionScore := transitionScore;
       vocabDiversity := vocabDiversity;
       overallAIScore := overallAIScore;
       detailedMetrics :=
         {| totalWords := length words;
            totalSentences := length sentences;
            avgSentenceLength := JStr (toFixed 1 avgLength);
            uniqueWordRatio := JStr (toFixed 2 vocabDiversity);
            contractionCount := contractionCount;
            passiveVoiceInstances := passiveCount |} |}.

End Analyze.

(** One hundred words, three of them in the formal dictionary. *)
Definition boundary_text : jstring :=
  concat (repeat (lit "utilize ") 3 ++ repeat (lit "a ") 97).

End Analyzer.

(* ================================================================== *)
(** * The random source and exceptions *)
(* ================================================================== *)

Module Rand.

Definition in_unit (q : Q) : bool := Qle_bool 0 q && negb (Qle_bool 1 q).

(** One result of [Math.random()]: a rational in the interval [0,1). *)
Record draw : Type := Draw { value : Q; value_in_unit : in_unit value = true }.

(** The results of the calls to [Math.random()] still to come. *)
Definition rng : Type := nat -> draw.

(** A computation that consumes random draws and may throw. *)
Definition M (A : Type) : Type := rng -> option (A * rng).

Definition ret (A : Type) (a : A) : M A := fun g => Some (a, g).

Definition bind (A B : Type) (c : M A) (k : A -> M B) : M B :=
  fun g => match c g with
           | Some (a, g') => k a g'
           | None => None
           end.

(** [throw new TypeError(...)] *)
Definition throw (A : Type) : M A := fun _ => None.

(** [Math.random()] *)
Definition random : M Q :=
  fun g => Some (value (g 0), fun n => g (S n)).

Definition Qltb (x y : Q) : bool := negb (Qle_bool y x).

(** [Math.floor(Math.random() * n)] *)
Definition random_index (n : nat) : M nat :=
  bind random (fun r =>
    ret (Z.to_nat (Qfloor (r * inject_Z (Z.of_nat n))))).

(** [xs[Math.floor(Math.random() * xs.length)]] on an array of strings. *)
Definition pick (xs : list jstring) : M jstring :=
  bind (random_index (length xs)) (fun i => ret (nth i xs [])).

Fixpoint mapM (A B : Type) (f : A -> M B) (xs : list A) : M (list B) :=
  match xs with
  | [] => ret []
  | x :: xs' =>
      bind (f x) (fun y => bind (mapM f xs') (fun ys => ret (y :: ys)))
  end.

Fixpoint foldM (A B : Type) (f : B -> A -> M B) (xs : list A) (b : B) : M B :=
  match xs with
  | [] => ret b
  | x :: xs' => bind (f b x) (foldM f xs')
  end.

End Rand.

Import Rand.

Declare Scope rand_scope.
Delimit Scope rand_scope with rand.
Notation "x <- c ;; k" := (bind c (fun x => k))
  (at level 61, c at next level, right associativity) : rand_scope.

(* ================================================================== *)
(** * The humanization engine *)
(* ================================================================== *)

Module Humanizer.

Import Analyzer.

Local Open Scope rand_scope.

Inductive tone : Type := casual | professional | academic | creative.

(** Every value of [strength] other than ['aggressive'] and ['medium'] is
    treated as ['light'] by the source. *)
Inductive strength : Type := light | medium | aggressive.

Definition is_aggressive (s : strength) : bool :=
  match s with aggressive => true | _ => false end.

(** [match[0] === match[0].toUpperCase()] on a non-empty string. *)
Definition isCapitalized (word : jstring) : bool :=
  streq (charAt0 word) (toUpperCase (charAt0 word)).

(** [/[^.!?]+[.!?]+/g] *)
Definition sentence_re : regex :=
  seq [PlusC (fun c => negb (one_of ".!?" c)); PlusC (one_of ".!?")].

(** [text.match(/[^.!?]+[.!?]+/g) || [text]] *)
Definition match_sentences (text : jstring) : list jstring :=
  match match_all sentence_re text with
  | Some ms => ms
  | None => [text]
  end.

(** ** [reduceFormality] *)

Definition baseReplacements : list (string * string) :=
  [ ("utilize", "use"); ("implement", "set up"); ("facilitate", "help");
    ("leverage", "use"); ("optimize", "improve"); ("strategic", "smart");
    ("comprehensive", "complete"); ("methodology", "approach");
    ("framework", "system"); ("paradigm", "model"); ("in order to", "to");
    ("due to the fact that", "because");
    ("it is important to note", "note that");
    ("it should be noted", "worth noting"); ("the majority of", "most");
    ("a significant number", "many"); ("substantial", "big");
    ("numerous", "many"); ("approximately", "about"); ("regarding", "about");
    ("concerning", "about"); ("pertaining to", "about");
    ("with respect to", "about"); ("in light of", "because of");
    ("endeavor", "try"); ("ascertain", "find out"); ("procure", "get");
    ("subsequently", "later"); ("therefore", "so"); ("thus", "so");
    ("hence", "so"); ("accordingly", "so"); ("consequently", "as a result");
    ("nevertheless", "but"); ("nonetheless", "but");
    ("notwithstanding", "despite") ]%string.

Definition aggressiveReplacements : list (string * string) :=
  [ ("demonstrate", "show"); ("indicate", "show"); ("illustrate", "show");
    ("establish", "prove"); ("determine", "figure out");
    ("examine", "look at"); ("analyze", "break down");
    ("evaluate", "check out"); ("assess", "judge");
    ("investigate", "look into"); ("commence", "start"); ("terminate", "end");
    ("initiate", "start"); ("conclude", "end"); ("obtain", "get");
    ("acquire", "get"); ("purchase", "buy"); ("receive", "get") ]%string.

(** [new RegExp(`\\b${w}\\b`, 'gi')] for a phrase of letters and spaces. *)
Definition word_re_i (w : string) : regex := seq [WordB; str_i w; WordB].

Definition reduceFormality (text : jstring) (tn : tone) (st : strength)
  : jstring :=
  let replacements :=
    if is_aggressive st then baseReplacements ++ aggressiveReplacements
    else baseReplacements in
  fold_left
    (fun result fc =>
       let '(formal, informal) := fc in
       replace_all (word_re_i formal)
         (fun m _ => if isCapitalized m then capitalize (lit informal)
                     else lit informal)
         result)
    replacements text.

(** ** [reduceRepetition] *)

Definition synonymMap : list (jstring * list jstring) :=
  map (fun kv => (lit (fst kv), map lit (snd kv)))
  [ ("important", ["key"; "crucial"; "vital"; "essential"; "critical"]);
    ("good", ["great"; "excellent"; "solid"; "strong"; "effective"]);
    ("bad", ["poor"; "weak"; "problematic"; "flawed"; "subpar"]);
    ("big", ["large"; "major"; "significant"; "substantial"; "huge"]);
    ("small", ["minor"; "tiny"; "limited"; "modest"; "slight"]);
    ("show", ["reveal"; "display"; "demonstrate"; "indicate"; "present"]);
    ("make", ["create"; "build"; "produce"; "generate"; "develop"]);
    ("get", ["obtain"; "acquire"; "receive"; "gain"; "secure"]);
    ("use", ["apply"; "employ"; "utilize"; "implement"; "deploy"]);
    ("think", ["believe"; "feel"; "consider"; "reckon"; "figure"]);
    ("say", ["state"; "mention"; "note"; "express"; "indicate"]);
    ("help", ["assist"; "support"; "aid"; "facilitate"; "enable"]);
    ("need", ["require"; "necessitate"; "demand"; "call for"; "want"]);
    ("want", ["desire"; "wish"; "prefer"; "seek"; "need"]) ]%string.

(** What [synonymMap[lowerWord]] evaluates to.  The table is an object
    literal, so a key that it does not own is looked up in
    [Object.prototype]; of the names found there only [constructor] and
    [__proto__] can equal a lower-cased word.  Both give a truthy object
    whose element at any index is [undefined]. *)
Inductive property : Type :=
| Own : list jstring -> property
| Inherited : property
| Absent : property.

Definition synonym_lookup (lowerWord : jstring) : property :=
  match JSMap.get synonymMap lowerWord with
  | Some synonyms => Own synonyms
  | None =>
      if streq lowerWord (lit "constructor") || streq lowerWord (lit "__proto__")
      then Inherited else Absent
  end.

Definition repetition_chance (st : strength) : Q :=
  if is_aggressive st then 0.7%Q else 0.4%Q.

(** One round of the loop over [words]; [result] is kept in reverse.  An
    [undefined] pushed on [result] is joined as the empty string. *)
Definition repetition_step (st : strength)
  (state : JSMap.t nat * list jstring) (word : jstring)
  : M (JSMap.t nat * list jstring) :=
  let '(usedWords, result) := state in
  let lowerWord := toLowerCase word in
  let count := JSMap.get_or_0 usedWords lowerWord in
  let keep := ret (JSMap.set lowerWord (count + 1) usedWords, word :: result) in
  if 1 <? count then
    match synonym_lookup lowerWord with
    | Absent => keep
    | Own synonyms =>
        r <- random ;;
        if Qltb r (repetition_chance st) then
          synonym <- pick synonyms ;;
          ret (JSMap.set lowerWord (count + 1) usedWords,
               (if isCapitalized word then capitalize synonym else synonym)
                 :: result)
        else keep
    | Inherited =>
        r <- random ;;
        if Qltb r (repetition_chance st) then
          _ <- random ;;
          if isCapitalized word then throw _
          else ret (JSMap.set lowerWord (count + 1) usedWords, [] :: result)
        else keep
    end
  else keep.

Definition reduceRepetition (text : jstring) (st : strength) : M jstring :=
  let words := split (Group (PlusC is_space)) text in
  state <- foldM (repetition_step st) words ([], []) ;;
  ret (concat (rev (snd state))).

(** ** [convertPassiveToActive] *)

Definition sp : regex := PlusC is_space.
Definition word_g : regex := Group (PlusC is_word).
Definition word_ed_g : regex := Group (seq [PlusC is_word; str_i "ed"]).

Definition passive_rewrites : list (regex * list piece) :=
  [ (seq [word_g; sp; alt [str_i "is"; str_i "are"]; sp; word_ed_g; sp;
          str_i "by"; sp; word_g],
     [G 3; T " "; G 2; T "s "; G 1]);
    (seq [word_g; sp; alt [str_i "was"; str_i "were"]; sp; word_ed_g; sp;
          str_i "by"; sp; word_g],
     [G 3; T " "; G 2; T " "; G 1]);
    (seq [str_i "it"; sp; alt [str_i "is"; str_i "was"]; sp; word_ed_g; sp;
          str_i "that"],
     [T "we "; G 1; T " that"]);
    (seq [word_g; sp; alt [str_i "can"; str_i "could"]; sp; str_i "be"; sp;
          word_ed_g],
     [T "you can "; G 2; T " "; G 1]) ]%string.

Definition passive_intensity (st : strength) : Q :=
  match st with aggressive => 1%Q | medium => 0.6%Q | light => 0.3%Q end.

Definition convertPassiveToActive (text : jstring) (st : strength) : M jstring :=
  r <- random ;;
  if Qltb (passive_intensity st) r then ret text
  else
    ret (fold_left (fun result pr => replace_all (fst pr) (expand (snd pr)) result)
                   passive_rewrites text).

(** ** [addContractions] *)

Definition word_re (w : string) : regex := seq [WordB; str_cs w; WordB].

Definition contractions : list (string * string) :=
  [ ("I am", "I'm"); ("you are", "you're"); ("we are", "we're");
    ("they are", "they're"); ("it is", "it's"); ("that is", "that's");
    ("what is", "what's"); ("who is", "who's"); ("do not", "don't");
    ("does not", "doesn't"); ("did not", "didn't"); ("cannot", "can't");
    ("could not", "couldn't"); ("would not", "wouldn't");
    ("should not", "shouldn't"); ("will not", "won't");
    ("have not", "haven't"); ("has not", "hasn't"); ("had not", "hadn't");
    ("is not", "isn't"); ("are not", "aren't"); ("was not", "wasn't");
    ("were not", "weren't") ]%string.

Definition contraction_intensity (st : strength) : Q :=
  match st with aggressive => 1%Q | medium => 0.7%Q | light => 0.5%Q end.

Definition addContractions (text : jstring) (st : strength) : M jstring :=
  foldM (fun result pr =>
           r <- random ;;
           if Qltb r (contraction_intensity st)
           then ret (replace_all (word_re (fst pr)) (fun _ _ => lit (snd pr)) result)
           else ret result)
        contractions text.

Definition addContraction (sentence : jstring) : M jstring :=
  addContractions sentence medium.

(** ** [varySentenceStructure] and its helpers *)

Definition conjunctions : list jstring :=
  map lit ["And"; "But"; "Or"; "So"; "Yet"; "Because"]%string.

Definition startWithConjunction (sentence : jstring) : M jstring :=
  r <- random ;;
  if Qltb r 0.3%Q && test (seq [Bol; Cls is_upper]) sentence then
    conj <- pick conjunctions ;;
    ret (conj ++ lit " " ++ uncapitalize sentence)
  else ret sentence.

Definition connectors : list jstring :=
  map lit [", and"; ", but"; ", so"; ", yet"; " - "; ";"]%string.

(** The empty string stands for a falsy argument. *)
Definition combineSentences (sent1 sent2 : jstring) : M jstring :=
  match sent1, sent2 with
  | [], _ => ret sent2
  | _, [] => ret sent1
  | _, _ =>
      connector <- pick connectors ;;
      ret (replace_first (seq [PlusC (one_of ".!?"); Eol]) (fun _ _ => []) sent1
             ++ connector ++ lit " " ++ uncapitalize sent2)
  end.

Definition splitSentence (sentence : jstring) : jstring :=
  let words := split (PlusC is_space) sentence in
  if 15 <? length words then
    let midpoint := length words / 2 in
    let firstPart := join (lit " ") (firstn midpoint words) in
    let secondPart := join (lit " ") (skipn midpoint words) in
    firstPart ++ lit ". " ++ capitalize secondPart
  else sentence.

Definition vary_intensity (st : strength) : Q :=
  match st with aggressive => 0.4%Q | medium => 0.25%Q | light => 0.15%Q end.

(** [transforms[k]()] at round [i]; [result] is kept in reverse. *)
Definition transform (k i total : nat) (result : list jstring)
  (sentence : jstring) : M jstring :=
  match k with
  | 0 => addContraction sentence
  | 1 => startWithConjunction sentence
  | 2 =>
      if (0 <? i) && (2 <? total) then
        r <- random ;;
        if Qltb r 0.3%Q then combineSentences (hd [] result) sentence
        else ret sentence
      else ret sentence
  | _ =>
      if 15 <? length (split (PlusC is_space) sentence)
      then ret (splitSentence sentence) else ret sentence
  end.

Fixpoint vary_loop (st : strength) (total : nat) (i : nat)
  (sentences : list jstring) (result : list jstring) : M (list jstring) :=
  match sentences with
  | [] => ret result
  | s :: rest =>
      let sentence := trim s in
      r <- random ;;
      if Qltb r (vary_intensity st) then
        k <- random_index 4 ;;
        transformed <- transform k i total result sentence ;;
        match result with
        | lastResult :: result' =>
            if negb (streq transformed sentence) && (0 <? i)
               && includes transformed lastResult
            then vary_loop st total (S i) rest (transformed :: result')
            else vary_loop st total (S i) rest (transformed :: result)
        | [] => vary_loop st total (S i) rest (transformed :: result)
        end
      else vary_loop st total (S i) rest (sentence :: result)
  end.

Definition varySentenceStructure (text : jstring) (st : strength) : M jstring :=
  let sentences := match_sentences text in
  result <- vary_loop st (length sentences) 0 sentences [] ;;
  ret (join (lit " ") (rev result)).

(** ** [removeRoboticTransitions] *)

Definition transition_replacements : list (string * string) :=
  [ ("furthermore,", "plus,"); ("moreover,", "also,"); ("in conclusion,", "so,");
    ("additionally,", "also,"); ("consequently,", "so,");
    ("subsequently,", "later,"); ("therefore,", "so,"); ("thus,", "so,");
    ("hence,", "so,"); ("accordingly,", "so,"); ("nevertheless,", "but,");
    ("nonetheless,", "but,");
    ("it is important to note that", "note that");
    ("it should be noted that", "worth noting that");
    ("it is worth mentioning that", "worth mentioning that") ]%string.

Definition removeRoboticTransitions (text : jstring) : jstring :=
  fold_left (fun result rn =>
               replace_all (str_i (fst rn)) (fun _ _ => lit (snd rn)) result)
            transition_replacements text.

(** ** Tone transformations *)

(** The loop shared by [makeCasual], [makeAcademic] and [makeCreative]. *)
Definition add_markers (markers : list jstring) (glue : jstring)
  (intensity : Q) (text : jstring) : M jstring :=
  processed <-
    mapM (fun sentence =>
            r <- random ;;
            if Qltb r intensity then
              marker <- pick markers ;;
              ret (marker ++ glue ++ uncapitalize sentence)
            else ret sentence)
         (match_sentences text) ;;
  ret (join (lit " ") processed).

Definition makeCasual (text : jstring) (st : strength) : M jstring :=
  add_markers
    (map lit ["honestly"; "look"; "you know"; "like"; "actually"; "basically";
              "literally"; "seriously"]%string)
    (lit ", ")
    (match st with aggressive => 0.25%Q | medium => 0.15%Q | light => 0.1%Q end)
    text.

Definition makeProfessional (text : jstring) (st : strength) : jstring :=
  let result := text in
  let result := replace_all (word_re_i "kinda") (fun _ _ => lit "somewhat") result in
  let result := replace_all (word_re_i "gonna") (fun _ _ => lit "going to") result in
  let result := replace_all (word_re_i "wanna") (fun _ _ => lit "want to") result in
  let result := replace_all (word_re_i "yeah") (fun _ _ => lit "yes") result in
  let result := replace_all (word_re_i "nope") (fun _ _ => lit "no") result in
  result.

Definition makeAcademic (text : jstring) (st : strength) : M jstring :=
  add_markers
    (map lit ["interestingly"; "notably"; "it's worth noting"; "this suggests";
              "significantly"; "evidently"]%string)
    (lit ", ")
    (match st with aggressive => 0.15%Q | medium => 0.1%Q | light => 0.05%Q end)
    text.

Definition makeCreative (text : jstring) (st : strength) : M jstring :=
  add_markers
    (map lit ["imagine"; "picture this"; "here's what's interesting";
              "the beauty is"; "get this"; "check it out"]%string)
    (lit " - ")
    (match st with aggressive => 0.2%Q | medium => 0.12%Q | light => 0.08%Q end)
    text.

Definition applyToneTransformations (text : jstring) (tn : tone) (st : strength)
  : M jstring :=
  match tn with
  | casual => makeCasual text st
  | professional => ret (makeProfessional text st)
  | academic => makeAcademic text st
  | creative => makeCreative text st
  end.

(** ** [addNaturalFlow] *)

Definition emphasisWords (tn : tone) : list jstring :=
  map lit
    match tn with
    | casual => ["really"; "actually"; "honestly"; "totally"; "definitely"; "pretty"]
    | professional => ["certainly"; "indeed"; "clearly"; "notably"; "particularly"]
    | academic => ["significantly"; "particularly"; "notably"; "especially"; "considerably"]
    | creative => ["incredibly"; "amazingly"; "beautifully"; "remarkably"; "strikingly"]
    end%string.

Definition flow_intensity (st : strength) : Q :=
  match st with aggressive => 0.15%Q | medium => 0.1%Q | light => 0.05%Q end.

Definition flow_verbs : list string :=
  ["is"; "are"; "was"; "were"; "has"; "have"]%string.

(** [/\b(is|are|was|were|has|have)\b/gi] *)
Definition flow_re : regex :=
  seq [WordB; Group (alt (map str_i flow_verbs)); WordB].

(** The replacement callback of [addNaturalFlow], applied to the matches from
    left to right. *)
Definition flow_segment (words : list jstring) (intensity : Q) (g : seg)
  : M jstring :=
  match g with
  | Keep c => ret [c]
  | Hit m _ =>
      r <- random ;;
      if Qltb r intensity then
        w <- pick words ;;
        ret (w ++ lit " " ++ m)
      else ret m
  end.

Definition addNaturalFlow (text : jstring) (tn : tone) (st : strength)
  : M jstring :=
  parts <- mapM (flow_segment (emphasisWords tn) (flow_intensity st))
                (scan flow_re text) ;;
  ret (concat parts).

(** ** [injectPersonality] *)

Definition personalTouches (tn : tone) : list jstring :=
  map lit
    match tn with
    | casual => ["Let me tell you"; "Here's the deal"; "The thing is"; "You see"]
    | professional => ["It's important to understand"; "Consider this";
                       "What we're seeing is"]
    | academic => ["It bears mentioning"; "One must consider";
                   "The evidence suggests"]
    | creative => ["Here's what's wild"; "The fascinating part is";
                   "You won't believe this"]
    end%string.

(** [xs[i] = f(xs[i])] for an index within the array. *)
Fixpoint update_at (i : nat) (f : jstring -> jstring) (xs : list jstring)
  : list jstring :=
  match xs, i with
  | [], _ => []
  | x :: xs', 0 => f x :: xs'
  | x :: xs', S i' => x :: update_at i' f xs'
  end.

Definition injectPersonality (text : jstring) (tn : tone) : M jstring :=
  let touches := personalTouches tn in
  let sentences := match_sentences text in
  if 2 <? length sentences then
    r <- random ;;
    if Qltb r 0.3%Q then
      insertPoint <- random_index (length sentences) ;;
      touch <- pick touches ;;
      ret (join (lit " ")
             (update_at insertPoint
                (fun s => touch ++ lit " - " ++ uncapitalize s) sentences))
    else ret (join (lit " ") sentences)
  else ret (join (lit " ") sentences).

(** ** [finalPolish] *)

Definition punct : ascii -> bool := one_of ".,!?;:".
Definition dot : ascii := "."%char.

Definition finalPolish (text : jstring) : jstring :=
  let result := text in
  let result := replace_all (PlusC is_space) (fun _ _ => lit " ") result in
  let result := replace_all (seq [PlusC is_space; Group (Cls punct)])
                            (expand [G 1]) result in
  let result := replace_all (seq [Group (Cls punct); StarC is_space])
                            (expand [G 1; T " "]) result in
  let result := replace_all (PlusC (Ascii.eqb ".")) (fun _ _ => lit ".") result in
  let result := replace_all (PlusC (Ascii.eqb "?")) (fun _ _ => lit "?") result in
  let result := replace_all (PlusC (Ascii.eqb "!")) (fun _ _ => lit "!") result in
  let result := replace_all
                  (seq [Group (seq [Cls (one_of ".!?"); PlusC is_space]);
                        Group (Cls is_word)])
                  (fun _ caps => nth 0 caps [] ++ toUpperCase (nth 1 caps []))
                  result in
  let result := capitalize result in
  let result := replace_all (seq [PlusC is_space; chr "-"; PlusC is_space])
                            (fun _ _ => lit " - ") result in
  let result := replace_all (seq [PlusC is_space; chr ","])
                            (fun _ _ => lit ",") result in
  let result := replace_all (seq [PlusC is_space; chr "."])
                            (fun _ _ => lit ".") result in
  trim result.

(** ** [applyHumanization] *)

(** The body of the [for] loop: one pass over the stages, each gated by the
    analysis that the caller supplied. *)
Definition humanize_pass (tn : tone) (st : strength) (analysis : PatternAnalysis)
  (result : jstring) : M jstring :=
  result <- (if Rgtb (formalityScore analysis) 0.1
             then ret (reduceFormality result tn st) else ret result) ;;
  result <- (if Rgtb (repetitionScore analysis) 0.05
             then reduceRepetition result st else ret result) ;;
  result <- (if Rgtb (passiveScore analysis) 0.2
             then convertPassiveToActive result st else ret result) ;;
  result <- (if Rltb (sentenceVariety analysis) 0.4
             then varySentenceStructure result st else ret result) ;;
  result <- (if Rltb (contractionScore analysis) 0.2
             then addContractions result st else ret result) ;;
  let result := removeRoboticTransitions result in
  result <- applyToneTransformations result tn st ;;
  result <- addNaturalFlow result tn st ;;
  if is_aggressive st then injectPersonality result tn else ret result.

(** [for (let pass = 0; pass < passes; pass++) { ... }], with [fuel] the
    number of rounds still to run. *)
Fixpoint pass_loop (fuel : nat) (tn : tone) (st : strength)
  (analysis : PatternAnalysis) (result : jstring) : M jstring :=
  match fuel with
  | 0 => ret result
  | S fuel' =>
      result' <- humanize_pass tn st analysis result ;;
      pass_loop fuel' tn st analysis result'
  end.

Definition applyHumanization (text : jstring) (tn : tone) (st : strength)
  (analysis : PatternAnalysis) : M jstring :=
  let result := text in
  let passes := match st with aggressive => 3 | medium => 2 | light => 1 end in
  result <- pass_loop passes tn st analysis result ;;
  let result := finalPolish result in
  ret result.

(** An analysis record on which none of the five gated stages runs. *)
Definition quiet_analysis : PatternAnalysis :=
  {| aiPatterns := [];
     formalityScore := 0;
     repetitionScore := 0;
     passiveCount := 0;
     passiveScore := 0;
     sentenceVariety := 1;
     starterScore := 0;
     contractionScore := 1;
     transitionScore := 0;
     vocabDiversity := 1;
     overallAIScore := 0;
     detailedMetrics :=
       {| totalWords := 1;
          totalSentences := 1;
          avgSentenceLength := JStr (lit "1.0");
          uniqueWordRatio := JStr (lit "1.00");
          contractionCount := 1;
          passiveVoiceInstances := 0 |} |}.

(** A random source whose every draw is [q]. *)
Definition constant_rng (d : draw) : rng := fun _ => d.

Definition draw_half : draw := @Draw (1 # 2) eq_refl.
Definition draw_zero : draw := @Draw 0 eq_refl.

(** The result of a computation, without the final random state. *)
Definition result_of (A : Type) (r : option (A * rng)) : option A :=
  match r with
  | Some (a, _) => Some a
  | None => None
  end.

End Humanizer.


Import Analyzer.
Import Humanizer.

Unset Implicit Arguments.

(** A stand-in for [toFixed] in the instances below. *)
Definition no_digits : nat -> R -> jstring := fun _ _ => [].

(** All the strings over a six-letter alphabet of length at most [n]. *)
Definition small_alphabet : list ascii := ["a"; " "; "."; ","; "-"; "!"]%char.

Fixpoint small_strings (n : nat) : list jstring :=
  match n with
  | 0 => [[]]
  | S k => [] :: flat_map (fun s => map (fun c => c :: s) small_alphabet)
                          (small_strings k)
  end.
(* ================================================================== *)
(** * Specification devices for the matcher *)
(* ================================================================== *)

Module MatchSpec.

(** [matches r before m rest caps]: the pattern [r] can match the text [m]
    at a position preceded by [before] (nearest character first) and
    followed by [rest], closing the captures [caps]. *)
Inductive matches : regex -> jstring -> jstring -> jstring -> list jstring -> Prop :=
| M_eps before rest : matches Eps before [] rest []
| M_cls (P : ascii -> bool) before c rest :
    P c = true -> matches (Cls P) before [c] rest []
| M_seq r1 r2 before m1 m2 rest c1 c2 :
    matches r1 before m1 (m2 ++ rest) c1 ->
    matches r2 (rev m1 ++ before) m2 rest c2 ->
    matches (Seq r1 r2) before (m1 ++ m2) rest (c1 ++ c2)
| M_alt_l r1 r2 before m rest c :
    matches r1 before m rest c -> matches (Alt r1 r2) before m rest c
| M_alt_r r1 r2 before m rest c :
    matches r2 before m rest c -> matches (Alt r1 r2) before m rest c
| M_star (P : ascii -> bool) before m rest :
    Forall (fun c => P c = true) m -> matches (StarC P) before m rest []
| M_group r before m rest c :
    matches r before m rest c -> matches (Group r) before m rest (c ++ [m])
| M_wordb before rest :
    xorb (word_before before) (word_after rest) = true ->
    matches WordB before [] rest []
| M_bol rest : matches Bol [] [] rest []
| M_eol before : matches Eol before [] [] [].

(** The derivation of a global scan: one constructor for each way in which
    [scan_from] moves on. *)
Inductive Scan (r : regex) : jstring -> jstring -> list seg -> Prop :=
| Scan_end before :
    exec r before [] = None -> Scan r before [] []
| Scan_end_hit before m caps :
    exec r before [] = Some (m, caps) -> Scan r before [] [Hit m caps]
| Scan_keep before c rest segs :
    exec r before (c :: rest) = None ->
    Scan r (c :: before) rest segs ->
    Scan r before (c :: rest) (Keep c :: segs)
| Scan_empty before c rest caps segs :
    exec r before (c :: rest) = Some ([], caps) ->
    Scan r (c :: before) rest segs ->
    Scan r before (c :: rest) (Hit [] caps :: Keep c :: segs)
| Scan_hit before m rest caps segs :
    m <> [] ->
    exec r before (m ++ rest) = Some (m, caps) ->
    Scan r (rev m ++ before) rest segs ->
    Scan r before (m ++ rest) (Hit m caps :: segs).

(** The longest prefix of [s] in the class [P], and what follows it. *)
Fixpoint run (P : ascii -> bool) (s : jstring) : jstring :=
  match s with
  | c :: s' => if P c then c :: run P s' else []
  | [] => []
  end.

Fixpoint after_run (P : ascii -> bool) (s : jstring) : jstring :=
  match s with
  | c :: s' => if P c then after_run P s' else s
  | [] => []
  end.

End MatchSpec.

Import MatchSpec.

(* ================================================================== *)
(** * White space in a text *)
(* ================================================================== *)

Module Spacing.

Definition space_first (s : jstring) : bool :=
  match s with c :: _ => is_space c | [] => false end.

(** Whether [s] ends in white space; [p] answers for the empty string. *)
Fixpoint ends_space (p : bool) (s : jstring) : bool :=
  match s with
  | [] => p
  | c :: s' => ends_space (is_space c) s'
  end.

Definition space_last (s : jstring) : bool := ends_space false s.

(** Every white-space character of [s] is a space and no two of them are
    adjacent; [prev_space] tells whether a space precedes [s]. *)
Fixpoint tidy_from (prev_space : bool) (s : jstring) : bool :=
  match s with
  | [] => true
  | c :: s' =>
      if is_space c
      then Ascii.eqb c " " && negb prev_space && tidy_from true s'
      else tidy_from false s'
  end.

Definition tidy (s : jstring) : bool := tidy_from false s.

(** The properties of a polished text, one by one. *)
Definition only_plain_spaces (s : jstring) : Prop :=
  forall c, In c s -> is_space c = true -> c = " "%char.

Definition no_space_run (s : jstring) : Prop :=
  forall x a b y, s = x ++ a :: b :: y -> is_space a = true -> is_space b = false.

Definition no_outer_space (s : jstring) : Prop :=
  space_first s = false /\ space_last s = false.

Definition newline : ascii := "010"%char.
Definition tab : ascii := "009"%char.

(** No newline and no tab, single spaces only, none at either end. *)
Definition well_spaced (s : jstring) : Prop :=
  ~ In newline s /\ ~ In tab s /\
  only_plain_spaces s /\ no_space_run s /\ no_outer_space s.

(** Two paragraphs separated by a blank line. *)
Definition two_paragraphs : jstring :=
  lit "One two." ++ [newline; newline] ++ lit "Three  four."%string.

End Spacing.

Import Spacing.

Module Nullable.

(** Whether a pattern can match the empty string. *)
Fixpoint nullable (r : regex) : bool :=
  match r with
  | Cls _ => false
  | Seq r1 r2 => nullable r1 && nullable r2
  | Alt r1 r2 => nullable r1 || nullable r2
  | Group r1 => nullable r1
  | Eps | StarC _ | WordB | Bol | Eol => true
  end.

End Nullable.

Import Nullable.

(* ================================================================== *)
(** * The words of a text *)
(* ================================================================== *)

Module Tokens.

Definition flush (cur : jstring) : list jstring :=
  match cur with [] => [] | _ => [rev cur] end.

(** The maximal runs of [\w] characters of [s], in lower case; [cur] holds,
    in reverse, the run in progress. *)
Fixpoint tokens_from (cur : jstring) (s : jstring) : list jstring :=
  match s with
  | [] => flush cur
  | c :: s' =>
      if is_word c then tokens_from (toLower c :: cur) s'
      else flush cur ++ tokens_from [] s'
  end.

Definition tokens (s : jstring) : list jstring := tokens_from [] s.

(** The informal words that the professional tone replaces. *)
Definition informal_words : list string :=
  ["kinda"; "gonna"; "wanna"; "yeah"; "nope"]%string.

(** No informal word is a word of [s]. *)
Definition formal_only (s : jstring) : Prop :=
  forall t, In t (tokens s) -> ~ In t (map lit informal_words).

(** The words that [addNaturalFlow] can put in a text of professional
    tone: the verbs that it matches and the emphasis words. *)
Definition flow_words (t : jstring) : Prop :=
  In t (map lit flow_verbs ++ concat (map tokens (emphasisWords professional))).

(** The words that [injectPersonality] can add to such a text. *)
Definition touch_words (t : jstring) : Prop :=
  In t (concat (map tokens (personalTouches professional))).

End Tokens.

Import Tokens.

Module Classes.

(** Every character class of the pattern is included in [Q]. *)
Fixpoint classes (Q : ascii -> Prop) (r : regex) : Prop :=
  match r with
  | Cls P | StarC P => forall c, P c = true -> Q c
  | Seq r1 r2 | Alt r1 r2 => classes Q r1 /\ classes Q r2
  | Group r1 => classes Q r1
  | Eps | WordB | Bol | Eol => True
  end.

Definition nonword (c : ascii) : Prop := is_word c = false.

End Classes.

Import Classes.

Module Rendering.

(** A part of the output that may stand for a segment of the scan: a kept
    character stands for itself, a match is replaced by a text whose words
    all satisfy [Q]. *)
Definition rendered (Q : jstring -> Prop) (g : seg) (p : jstring) : Prop :=
  match g with
  | Keep c => p = [c]
  | Hit _ _ => forall t, In t (tokens p) -> Q t
  end.

End Rendering.

Import Rendering.

(* ================================================================== *)
(** * The command line: [parseArgs] and [processText] *)
(* ================================================================== *)

Module CLI.

(** A value that is [null], [undefined] or a string. *)
Inductive value : Type :=
| Null : value
| Undefined : value
| Str : jstring -> value.

Record Options : Type := {
  input : value;
  output : value;
  tone : jstring;
  strength : jstring;
  passes : Z;
  analyze : bool;
  compare : bool;
  verbose : bool;
  text : value
}.

(** What a run leaves on the console before [process.exit]: a call of
    [printBanner], a call of [printUsage], a line of [console.error]. *)
Inductive printed : Type :=
| Banner : printed
| Usage : printed
| Error : jstring -> printed.

(** A function of the command line either returns or ends the process
    with an exit code. *)
Inductive outcome (A : Type) : Type :=
| Returned : A -> outcome A
| Exited : nat -> list printed -> outcome A.

Arguments Returned {A} _.
Arguments Exited {A} _ _.

(** ** [parseInt] *)

(** The value of [c] as a digit of the radix, if it is one. *)
Definition digit_value (radix : Z) (c : ascii) : option Z :=
  let v := if is_digit c then Some (Z.of_nat (code c) - 48)%Z
           else if is_lower c then Some (Z.of_nat (code c) - 87)%Z
           else if is_upper c then Some (Z.of_nat (code c) - 55)%Z
           else None in
  match v with
  | Some d => if (d <? radix)%Z then Some d else None
  | None => None
  end.

(** The number written by the longest prefix of [s] made of digits; [acc]
    is the value of the digits read so far, [None] when there is none. *)
Fixpoint parse_digits (radix : Z) (s : jstring) (acc : option Z) : option Z :=
  match s with
  | c :: s' =>
      match digit_value radix c with
      | Some d =>
          parse_digits radix s'
            (Some (match acc with
                   | Some a => a * radix + d
                   | None => d
                   end)%Z)
      | None => acc
      end
  | [] => acc
  end.

(** [parseInt(v)] without a radix; [None] is [NaN].  The strings of [null]
    and [undefined] have no digit. *)
Definition parseInt (v : value) : option Z :=
  match v with
  | Str s =>
      let digits := trimStart s in
      let '(sign, digits) :=
        match digits with
        | "-"%char :: digits' => ((-1)%Z, digits')
        | "+"%char :: digits' => (1%Z, digits')
        | _ => (1%Z, digits)
        end in
      let '(radix, digits) :=
        match digits with
        | "0"%char :: "x"%char :: digits' => (16%Z, digits')
        | "0"%char :: "X"%char :: digits' => (16%Z, digits')
        | _ => (10%Z, digits)
        end in
      match parse_digits radix digits None with
      | Some n => Some (sign * n)%Z
      | None => None
      end
  | Null | Undefined => None
  end.

(** ** [parseArgs] *)

Definition defaults : Options :=
  {| input := Null;
     output := Null;
     tone := lit "casual";
     strength := lit "medium";
     passes := 2;
     analyze := false;
     compare := false;
     verbose := false;
     text := Null |}.

Definition set_input (v : value) (o : Options) : Options :=
  {| input := v; output := output o; tone := tone o; strength := strength o;
     passes := passes o; analyze := analyze o; compare := compare o;
     verbose := verbose o; text := text o |}.

Definition set_output (v : value) (o : Options) : Options :=
  {| input := input o; output := v; tone := tone o; strength := strength o;
     passes := passes o; analyze := analyze o; compare := compare o;
     verbose := verbose o; text := text o |}.

Definition set_tone (v : jstring) (o : Options) : Options :=
  {| input := input o; output := output o; tone := v; strength := strength o;
     passes := passes o; analyze := analyze o; compare := compare o;
     verbose := verbose o; text := text o |}.

Definition set_strength (v : jstring) (o : Options) : Options :=
  {| input := input o; output := output o; tone := tone o; strength := v;
     passes := passes o; analyze := analyze o; compare := compare o;
     verbose := verbose o; text := text o |}.

Definition set_passes (v : Z) (o : Options) : Options :=
  {| input := input o; output := output o; tone := tone o;
     strength := strength o; passes := v; analyze := analyze o;
     compare := compare o; verbose := verbose o; text := text o |}.

Definition set_analyze (v : bool) (o : Options) : Options :=
  {| input := input o; output := output o; tone := tone o;
     strength := strength o; passes := passes o; analyze := v;
     compare := compare o; verbose := verbose o; text := text o |}.

Definition set_compare (v : bool) (o : Options) : Options :=
  {| input := input o; output := output o; tone := tone o;
     strength := strength o; passes := passes o; analyze := analyze o;
     compare := v; verbose := verbose o; text := text o |}.

Definition set_verbose (v : bool) (o : Options) : Options :=
  {| input := input o; output := output o; tone := tone o;
     strength := strength o; passes := passes o; analyze := analyze o;
     compare := compare o; verbose := v; text := text o |}.

Definition set_text (v : value) (o : Options) : Options :=
  {| input := input o; output := output o; tone := tone o;
     strength := strength o; passes := passes o; analyze := analyze o;
     compare := compare o; verbose := verbose o; text := v |}.

Definition tones : list jstring :=
  map lit ["casual"; "professional"; "academic"; "creative"]%string.

Definition strengths : list jstring :=
  map lit ["light"; "medium"; "aggressive"]%string.

(** [args[++i]]: the argument after the option, [undefined] past the end. *)
Definition next_arg (rest : list jstring) : value :=
  match rest with
  | v :: _ => Str v
  | [] => Undefined
  end.

(** [args[++i]?.toLowerCase()] *)
Definition next_lower (rest : list jstring) : value :=
  match rest with
  | v :: _ => Str (toLowerCase v)
  | [] => Undefined
  end.

(** A value in a template literal. *)
Definition show (v : value) : jstring :=
  match v with
  | Str s => s
  | Undefined => lit "undefined"
  | Null => lit "null"
  end.

(** [names.includes(v)] *)
Definition among (names : list jstring) (v : value) : bool :=
  match v with
  | Str s => array_includes names s
  | Null | Undefined => false
  end.

(** The two spellings of an option in the [switch]. *)
Definition is_option (arg : jstring) (short long : string) : bool :=
  streq arg (lit short) || streq arg (lit long).

Definition invalid_tone (v : value) : jstring :=
  lit "ERROR: Invalid tone: " ++ show v
    ++ lit ". Use: casual, professional, academic, or creative".

Definition invalid_strength (v : value) : jstring :=
  lit "ERROR: Invalid strength: " ++ show v
    ++ lit ". Use: light, medium, or aggressive".

Definition invalid_passes : jstring :=
  lit "ERROR: Passes must be between 1 and 5".

(** The [for] loop of [parseArgs] from the index [i] on, with [args] the
    arguments from that index; an option that takes a value skips it, and
    the loop ends when the index passes the last argument. *)
Fixpoint parse_from (args : list jstring) (options : Options)
  : outcome Options :=
  match args with
  | [] => Returned options
  | arg :: rest =>
      if is_option arg "-i" "--input" then
        let options := set_input (next_arg rest) options in
        match rest with
        | _ :: rest' => parse_from rest' options
        | [] => Returned options
        end
      else if is_option arg "-o" "--output" then
        let options := set_output (next_arg rest) options in
        match rest with
        | _ :: rest' => parse_from rest' options
        | [] => Returned options
        end
      else if is_option arg "-t" "--tone" then
        let tone := next_lower rest in
        if negb (among tones tone) then Exited 1 [Error (invalid_tone tone)]
        else
          let options := set_tone (show tone) options in
          match rest with
          | _ :: rest' => parse_from rest' options
          | [] => Returned options
          end
      else if is_option arg "-s" "--strength" then
        let strength := next_lower rest in
        if negb (among strengths strength)
        then Exited 1 [Error (invalid_strength strength)]
        else
          let options := set_strength (show strength) options in
          match rest with
          | _ :: rest' => parse_from rest' options
          | [] => Returned options
          end
      else if is_option arg "-p" "--passes" then
        match parseInt (next_arg rest) with
        | None => Exited 1 [Error invalid_passes]
        | Some passes =>
            if (passes <? 1)%Z || (5 <? passes)%Z
            then Exited 1 [Error invalid_passes]
            else
              let options := set_passes passes options in
              match rest with
              | _ :: rest' => parse_from rest' options
              | [] => Returned options
              end
        end
      else if is_option arg "-a" "--analyze" then
        parse_from rest (set_analyze true options)
      else if is_option arg "-c" "--compare" then
        parse_from rest (set_compare true options)
      else if is_option arg "-v" "--verbose" then
        parse_from rest (set_verbose true options)
      else if is_option arg "-h" "--help" then
        Exited 0 [Banner; Usage]
      else if negb (starts_with (lit "-") arg) then
        Returned (set_text (Str (join (lit " ") args)) options)
      else parse_from rest options
  end.

Definition parseArgs (args : list jstring) : outcome Options :=
  parse_from args defaults.

(** ** [processText] *)

(** The tone and the strength that the engine sees in a string of the
    options: it compares the strength with ['aggressive'] and ['medium']
    only, and [parseArgs] stores no tone but the four names. *)
Definition tone_of (s : jstring) : option Humanizer.tone :=
  if streq s (lit "casual") then Some casual
  else if streq s (lit "professional") then Some professional
  else if streq s (lit "academic") then Some academic
  else if streq s (lit "creative") then Some creative
  else None.

Definition strength_of (s : jstring) : Humanizer.strength :=
  if streq s (lit "aggressive") then aggressive
  else if streq s (lit "medium") then medium
  else light.

Local Open Scope rand_scope.

(** [for (let i = 1; i <= options.passes; i++) result =
    applyHumanization(result, tone, strength, analysis)], with [rounds] the
    number of rounds still to run. *)
Fixpoint humanize_loop (rounds : nat) (tn : Humanizer.tone)
  (st : Humanizer.strength) (analysis : PatternAnalysis) (result : jstring)
  : M jstring :=
  match rounds with
  | 0 => ret result
  | S rounds' =>
      result' <- applyHumanization result tn st analysis ;;
      humanize_loop rounds' tn st analysis result'
  end.

(** [if (options.output)]: a string that is not empty. *)
Definition truthy (v : value) : bool :=
  match v with
  | Str (_ :: _) => true
  | Str [] | Null | Undefined => false
  end.

Definition write_failed (message : jstring) : jstring :=
  newline :: lit "ERROR: Failed to write output file: " ++ message.

(** [processText(text, options)], with the tone and the strength of the
    options given as [tn] and [st].  [write path data] stands for
    [writeFileSync(resolve(path), data, 'utf8')]: it is [None] when the call
    returns and [Some message] when it throws an error with that message.
    The function returns the text that it has written to the output file
    or, without one, to the console; it ends the process on a blank text,
    before the banner, and on a failed write, after it.  The lines of
    [console.log] are not recorded. *)
Definition processText (toFixed : nat -> R -> jstring)
  (write : jstring -> jstring -> option jstring) (text : jstring)
  (tn : Humanizer.tone) (st : Humanizer.strength) (passes : Z)
  (output : value) : M (outcome jstring) :=
  if (length text =? 0) || (length (trim text) =? 0) then
    ret (Exited 1 [Error (lit "ERROR: No text provided to humanize")])
  else
    let analysis := analyzeAIPatterns toFixed text in
    result <- humanize_loop (Z.to_nat passes) tn st analysis text ;;
    if truthy output then
      match write (show output) result with
      | None => ret (Returned result)
      | Some message => ret (Exited 1 [Banner; Error (write_failed message)])
      end
    else ret (Returned result).

End CLI.

(* ================================================================== *)
(** * Specification devices for the stages *)
(* ================================================================== *)

Module StageSpec.

(** The characters that end a sentence. *)
Definition terminator : ascii -> bool := one_of ".!?".

(** The table that [reduceFormality] works with at a strength. *)
Definition replacements_at (st : strength) : list (string * string) :=
  if is_aggressive st then baseReplacements ++ aggressiveReplacements
  else baseReplacements.

(** A key of a table that is one word. *)
Definition one_word (w : string) : bool :=
  match lit w with
  | [] => false
  | cs => forallb is_word cs
  end.

(** No draw of the random source is below [q]. *)
Definition draws_at_least (q : Q) (g : rng) : Prop :=
  forall n, Qle_bool q (value (g n)) = true.

(** The random source after [n] draws. *)
Definition after_draws (n : nat) (g : rng) : rng := fun k => g (n + k).

(** The words between white space that the prototype lookup of
    [reduceRepetition] can stumble on. *)
Definition plain_word (word : jstring) : bool :=
  match synonym_lookup (toLowerCase word) with
  | Inherited => false
  | _ => true
  end.

(** The options whose value [parseArgs] checks, and the help option: the
    places of its [switch] that end the process. *)
Definition ends_process (arg : jstring) : bool :=
  CLI.is_option arg "-t" "--tone" || CLI.is_option arg "-s" "--strength"
  || CLI.is_option arg "-p" "--passes" || CLI.is_option arg "-h" "--help".

End StageSpec.

Import StageSpec.

(* ================================================================== *)
(** * Texts that differ by the case of letters *)
(* ================================================================== *)

Module CaseSpec.

(** Every character class of the pattern gives the same answer on a
    character and on its image by [f]. *)
Fixpoint stable (f : ascii -> ascii) (r : regex) : Prop :=
  match r with
  | Cls P | StarC P => forall c, P (f c) = P c
  | Seq r1 r2 | Alt r1 r2 => stable f r1 /\ stable f r2
  | Group r1 => stable f r1
  | Eps | WordB | Bol | Eol => True
  end.

(** The image by [f] of a state of the matcher and of a segment of a
    scan. *)
Definition state_map (f : ascii -> ascii) (st : mstate) : mstate :=
  let '(before, after, caps) := st in
  (map f before, map f after, map (map f) caps).

Definition seg_map (f : ascii -> ascii) (g : seg) : seg :=
  match g with
  | Keep c => Keep (f c)
  | Hit m caps => Hit (map f m) (map (map f) caps)
  end.

End CaseSpec.

Import CaseSpec.

(* ================================================================== *)
(** * Properties of the matcher *)
(* ================================================================== *)

Lemma star_states_sound (P : ascii -> bool) after before b a :
  In (b, a) (star_states P before after) ->
  exists m, b = rev m ++ before /\ after = m ++ a /\
            Forall (fun c => P c = true) m.
Proof.
  revert before. induction after as [|c rest IH]; intros before H; simpl in H.
  - destruct H as [H|[]]. inversion H; subst. exists []. auto.
  - destruct (P c) eqn:Pc.
    + apply in_app_or in H. destruct H as [H|[H|[]]].
      * apply IH in H. destruct H as (m & -> & -> & Hm).
        exists (c :: m). simpl. rewrite <- app_assoc. auto.
      * inversion H; subst. exists []. auto.
    + destruct H as [H|[]]. inversion H; subst. exists []. auto.
Qed.

Lemma firstn_rev_app (m before : jstring) :
  rev (firstn (length (rev m ++ before) - length before) (rev m ++ before)) = m.
Proof.
  rewrite length_app, Nat.add_sub, firstn_app, Nat.sub_diag, firstn_all.
  simpl. rewrite app_nil_r. apply rev_involutive.
Qed.

Lemma rmatch_sound r : forall before after caps b' a' caps',
  In (b', a', caps') (rmatch r (before, after, caps)) ->
  exists m c, b' = rev m ++ before /\ after = m ++ a' /\ caps' = caps ++ c /\
              matches r before m a' c.
Proof.
  induction r as [|P|r1 IH1 r2 IH2|r1 IH1 r2 IH2|P|r IH| | |];
    intros before after caps b' a' caps' H; simpl in H.
  - destruct H as [H|[]]. inversion H; subst. exists [], [].
    rewrite ?app_nil_r. repeat split; constructor.
  - destruct after as [|c rest]; [destruct H|].
    destruct (P c) eqn:Pc; [|destruct H]. destruct H as [H|[]].
    inversion H; subst. exists [c], []. rewrite ?app_nil_r.
    repeat split. now constructor.
  - apply in_flat_map in H. destruct H as ([[b1 a1] k1] & H1 & H2).
    apply IH1 in H1. destruct H1 as (m1 & c1 & -> & -> & -> & M1).
    apply IH2 in H2. destruct H2 as (m2 & c2 & -> & -> & -> & M2).
    exists (m1 ++ m2), (c1 ++ c2). rewrite rev_app_distr, <- !app_assoc.
    repeat split. now constructor.
  - apply in_app_or in H. destruct H as [H|H].
    + apply IH1 in H. destruct H as (m & c & -> & -> & -> & M).
      exists m, c. repeat split. now apply M_alt_l.
    + apply IH2 in H. destruct H as (m & c & -> & -> & -> & M).
      exists m, c. repeat split. now apply M_alt_r.
  - apply in_map_iff in H. destruct H as ([b a] & E & H). simpl in E.
    inversion E; subst. apply star_states_sound in H.
    destruct H as (m & -> & -> & Hm). exists m, []. rewrite ?app_nil_r.
    repeat split. now constructor.
  - apply in_map_iff in H. destruct H as ([[b a] k] & E & H).
    apply IH in H. destruct H as (m & c & -> & -> & -> & M).
    inversion E; subst. exists m, (c ++ [m]).
    rewrite firstn_rev_app, <- app_assoc. repeat split. now constructor.
  - destruct (xorb (word_before before) (word_after after)) eqn:X; [|destruct H].
    destruct H as [H|[]]. inversion H; subst. exists [], [].
    rewrite ?app_nil_r. repeat split. now constructor.
  - destruct before; [|destruct H]. destruct H as [H|[]]. inversion H; subst.
    exists [], []. rewrite ?app_nil_r. repeat split. constructor.
  - destruct after; [|destruct H]. destruct H as [H|[]]. inversion H; subst.
    exists [], []. rewrite ?app_nil_r. repeat split. constructor.
Qed.

(** A successful [exec] returns a prefix of the subject that the pattern
    matches. *)
Lemma exec_sound r before after m caps :
  exec r before after = Some (m, caps) ->
  exists rest, after = m ++ rest /\ matches r before m rest caps.
Proof.
  unfold exec. destruct (rmatch r (before, after, [])) as [|[[b a] k] l] eqn:E;
    [discriminate|].
  intros H. inversion H; subst; clear H.
  assert (I : In (b, a, caps) (rmatch r (before, after, [])))
    by (rewrite E; now left).
  apply rmatch_sound in I. destruct I as (m & c & -> & -> & -> & M).
  rewrite firstn_rev_app. exists a. split; auto.
Qed.

Lemma scan_from_skip r (x : jstring) : forall before rest,
  scan_from r before (x ++ rest) (length x) = scan_from r (rev x ++ before) rest 0.
Proof.
  induction x as [|c x IH]; intros before rest; simpl.
  - destruct rest; reflexivity.
  - rewrite IH, <- app_assoc. reflexivity.
Qed.

Lemma scan_from_Scan r after : forall before,
  Scan r before after (scan_from r before after 0).
Proof.
  remember (length after) as n eqn:Hn. revert after Hn.
  induction n as [n IH] using lt_wf_ind. intros after Hn before.
  destruct after as [|c rest]; simpl.
  - destruct (exec r before []) as [[m caps]|] eqn:E; now constructor.
  - destruct (exec r before (c :: rest)) as [[m caps]|] eqn:E.
    + destruct m as [|c' m'].
      * apply Scan_empty; auto. eapply IH; eauto. subst; simpl; lia.
      * destruct (exec_sound _ _ _ _ _ E) as (rest' & Erest & _).
        simpl in Erest. inversion Erest; subst c' rest.
        rewrite scan_from_skip.
        change (c :: m' ++ rest') with ((c :: m') ++ rest') in *.
        apply Scan_hit; [discriminate|auto|].
        replace (rev m' ++ c :: before) with (rev (c :: m') ++ before)
          by (simpl; now rewrite <- app_assoc).
        eapply IH; eauto. subst; simpl. rewrite length_app. lia.
    + apply Scan_keep; auto. eapply IH; eauto. subst; simpl; lia.
Qed.

Lemma scan_Scan r s : Scan r [] s (scan r s).
Proof. apply scan_from_Scan. Qed.

(** ** Greedy runs *)

Lemma star_states_hd (P : ascii -> bool) after : forall before,
  exists l, star_states P before after =
            (rev (run P after) ++ before, after_run P after) :: l.
Proof.
  induction after as [|c rest IH]; intros before; simpl.
  - now exists [].
  - destruct (P c).
    + destruct (IH (c :: before)) as (l & ->). simpl.
      rewrite <- app_assoc. eexists. reflexivity.
    + now exists [].
Qed.

Lemma run_app_after_run (P : ascii -> bool) s : run P s ++ after_run P s = s.
Proof. induction s as [|c s IH]; simpl; auto. destruct (P c); simpl; congruence. Qed.

Lemma run_all (P : ascii -> bool) s :
  Forall (fun c => P c = true) s -> run P s = s.
Proof. induction 1; simpl; auto. rewrite H. congruence. Qed.

Lemma exec_plus (P : ascii -> bool) before after :
  exec (PlusC P) before after =
  match run P after with [] => None | m => Some (m, []) end.
Proof.
  unfold exec, PlusC. cbn [rmatch]. destruct after as [|c rest]; simpl; auto.
  destruct (P c); simpl; auto.
  destruct (star_states_hd P rest (c :: before)) as (l & ->). simpl.
  replace (rev (run P rest) ++ c :: before)
    with (rev (c :: run P rest) ++ before) by (simpl; now rewrite <- app_assoc).
  now rewrite firstn_rev_app.
Qed.

(** ** Tokenisation of blank text *)

Lemma is_space_toLower c : is_space (toLower c) = is_space c.
Proof. destruct c as [[] [] [] [] [] [] [] []]; reflexivity. Qed.

Lemma split_blank s :
  Forall (fun c => is_space c = true) s ->
  filter (fun w : jstring => 0 <? length w) (split (PlusC is_space) s) = [].
Proof.
  intros H. unfold split, scan. destruct s as [|c rest]; cbn [scan_from].
  - rewrite exec_plus. reflexivity.
  - rewrite exec_plus, (run_all _ _ H).
    rewrite <- (app_nil_r rest) at 2. rewrite scan_from_skip.
    cbn [scan_from]. rewrite exec_plus. reflexivity.
Qed.

Lemma words_of_blank text :
  Forall (fun c => is_space c = true) text -> words_of text = [].
Proof.
  intros H. apply split_blank. unfold toLowerCase.
  apply Forall_map. eapply Forall_impl; [|exact H].
  intros c Hc. now rewrite is_space_toLower.
Qed.

(** ** The degenerate and the regular branch of [analyzeAIPatterns] *)

Section AnalyzerFacts.

Variable toFixed : nat -> R -> jstring.

Lemma analyze_degenerate text :
  words_of text = [] \/ sentences_of text = [] ->
  analyzeAIPatterns toFixed text =
  degenerate (words_of text) (sentences_of text).
Proof.
  intros H. unfold analyzeAIPatterns.
  destruct H as [-> | ->]; simpl; auto.
  now rewrite orb_true_r.
Qed.

Lemma nondegenerate_test text :
  words_of text <> [] -> sentences_of text <> [] ->
  (length (words_of text) =? 0) || (length (sentences_of text) =? 0) = false.
Proof.
  intros Hw Hs. destruct (words_of text); [congruence|].
  destruct (sentences_of text); [congruence|]. reflexivity.
Qed.

End AnalyzerFacts.

(** ** Arithmetic of the scores *)

Local Open Scope R_scope.

Lemma Rmin_unit x : 0 <= x -> 0 <= Rmin x 1 <= 1.
Proof.
  intros H. split.
  - apply Rmin_glb; lra.
  - apply Rmin_r.
Qed.

Lemma ratio_nonneg (a b : nat) : 0 <= INR a / Rmax (INR b) 1.
Proof.
  apply Rmult_le_pos; [apply pos_INR|].
  left. apply Rinv_0_lt_compat.
  eapply Rlt_le_trans; [|apply Rmax_r]. lra.
Qed.

Lemma div_INR_unit (a b : nat) : (a <= b)%nat -> (0 < b)%nat ->
  0 <= INR a / INR b <= 1.
Proof.
  intros Hab Hb. assert (0 < INR b) by (apply lt_0_INR; lia).
  apply le_INR in Hab. pose proof (pos_INR a). split.
  - apply Rmult_le_pos; auto. left. now apply Rinv_0_lt_compat.
  - apply (Rmult_le_reg_r (INR b)); auto. unfold Rdiv.
    rewrite Rmult_assoc, Rinv_l; lra.
Qed.

Lemma sum_by_acc (A : Type) (f : A -> R) xs : forall a,
  fold_left (fun sum x => sum + f x) xs a = a + sum_by f xs.
Proof.
  unfold sum_by. induction xs as [|x xs IH]; intros a; simpl.
  - lra.
  - rewrite IH, (IH (0 + f x)). lra.
Qed.

Lemma sum_by_cons (A : Type) (f : A -> R) x xs :
  sum_by f (x :: xs) = f x + sum_by f xs.
Proof. unfold sum_by at 1. simpl. rewrite sum_by_acc. lra. Qed.

Lemma sum_by_nonneg (A : Type) (f : A -> R) xs :
  (forall x, 0 <= f x) -> 0 <= sum_by f xs.
Proof.
  intros Hf. induction xs as [|x xs IH].
  - unfold sum_by; simpl; lra.
  - rewrite sum_by_cons. specialize (Hf x). lra.
Qed.

Lemma excess_bounds freq : 0 <= excess freq <= INR freq.
Proof.
  unfold excess. pose proof (pos_INR freq).
  destruct (2 <? freq)%nat eqn:E; [|lra].
  apply Nat.ltb_lt in E. apply lt_INR in E. simpl in E. lra.
Qed.

Lemma sum_excess_le vals : sum_by excess vals <= INR (list_sum vals).
Proof.
  induction vals as [|v vals IH].
  - unfold sum_by; simpl; lra.
  - rewrite sum_by_cons. simpl list_sum. rewrite plus_INR.
    pose proof (excess_bounds v). lra.
Qed.

Local Close Scope R_scope.

(** ** Counting in maps and sets *)

Lemma list_sum_set k v (m : JSMap.t nat) :
  list_sum (JSMap.values (JSMap.set k v m)) + JSMap.get_or_0 m k =
  list_sum (JSMap.values m) + v.
Proof.
  unfold JSMap.get_or_0, JSMap.values.
  induction m as [|[k' v'] m IH]; simpl.
  - lia.
  - destruct (streq k k'); simpl; lia.
Qed.

Lemma list_sum_incr k (m : JSMap.t nat) :
  list_sum (JSMap.values (JSMap.incr k m)) = S (list_sum (JSMap.values m)).
Proof.
  unfold JSMap.incr.
  pose proof (list_sum_set k (JSMap.get_or_0 m k + 1) m). lia.
Qed.

Lemma count_words_sum words : forall wf pf,
  list_sum (JSMap.values (fst (count_words words wf pf))) <=
  list_sum (JSMap.values wf) + length words.
Proof.
  induction words as [|w rest IH]; intros wf pf; simpl.
  - lia.
  - etransitivity; [apply IH|].
    destruct (3 <? length w); [rewrite list_sum_incr|]; lia.
Qed.

Lemma wordFreq_sum words :
  list_sum (JSMap.values (wordFreq words)) <= length words.
Proof. apply (count_words_sum words [] []). Qed.

Lemma set_add_length x s : length (JSSet.add x s) <= S (length s).
Proof.
  unfold JSSet.add. destruct (existsb (streq x) s); [lia|].
  rewrite length_app. simpl. lia.
Qed.

Lemma set_of_list_length xs : length (JSSet.of_list xs) <= length xs.
Proof.
  unfold JSSet.of_list.
  assert (G : forall s, length (fold_left (fun s x => JSSet.add x s) xs s)
                        <= length s + length xs).
  { induction xs as [|x xs IH]; intros s; simpl; [lia|].
    etransitivity; [apply IH|]. pose proof (set_add_length x s). lia. }
  apply (G []).
Qed.

(* ================================================================== *)
(** * Properties of [analyzeAIPatterns] *)
(* ================================================================== *)

Ltac regular_branch Hw Hs :=
  unfold analyzeAIPatterns;
  rewrite (nondegenerate_test _ Hw Hs);
  cbn [aiPatterns formalityScore repetitionScore passiveCount passiveScore
       sentenceVariety starterScore contractionScore transitionScore
       vocabDiversity overallAIScore detailedMetrics totalWords totalSentences].

Ltac degenerate_branch H :=
  rewrite (analyze_degenerate _ _ H);
  cbn [degenerate aiPatterns formalityScore repetitionScore passiveCount
       passiveScore sentenceVariety starterScore contractionScore
       transitionScore vocabDiversity overallAIScore detailedMetrics
       totalWords totalSentences].

Section AnalyzerTheorems.

Variable toFixed : nat -> R -> jstring.

Local Open Scope R_scope.

(** C1.  On a text with at least one word and one sentence, the overall score
    is the weighted sum of the component scores, capped at 1:
    0.20 formality + 0.15 repetition + 0.15 passive + 0.15 (1 - variety)
    + 0.10 starter + 0.10 lackOfContractions + 0.10 transition
    + 0.05 lowDiversityScore, where lackOfContractions is 0.8 when the
    contraction score is below 0.1 and 0 otherwise, and lowDiversityScore is
    0.6 when the vocabulary diversity is below 0.5 and 0 otherwise. *)
Theorem overallAIScore_formula text :
  words_of text <> [] -> sentences_of text <> [] ->
  let a := analyzeAIPatterns toFixed text in
  let lackOfContractions := if Rltb (contractionScore a) 0.1 then 0.8 else 0 in
  let lowDiversityScore := if Rltb (vocabDiversity a) 0.5 then 0.6 else 0 in
  overallAIScore a =
  Rmin (0.20 * formalityScore a + 0.15 * repetitionScore a
        + 0.15 * passiveScore a + 0.15 * (1 - sentenceVariety a)
        + 0.10 * starterScore a + 0.10 * lackOfContractions
        + 0.10 * transitionScore a + 0.05 * lowDiversityScore) 1.
Proof.
  intros Hw Hs a lack low. subst a lack low. regular_branch Hw Hs.
  f_equal. ring.
Qed.

Lemma repetitionScore_unit (words : list jstring) :
  words <> [] ->
  0 <= sum_by excess (JSMap.values (wordFreq words)) / INR (length words) <= 1.
Proof.
  intros Hw.
  assert (Hn : 0 < INR (length words)).
  { apply lt_0_INR. destruct words; [congruence|simpl; lia]. }
  pose proof (sum_by_nonneg _ excess (JSMap.values (wordFreq words))
                (fun f => proj1 (excess_bounds f))) as H0.
  pose proof (sum_excess_le (JSMap.values (wordFreq words))) as H1.
  pose proof (le_INR _ _ (wordFreq_sum words)) as H2.
  split.
  - apply Rmult_le_pos; auto. left. now apply Rinv_0_lt_compat.
  - apply (Rmult_le_reg_r (INR (length words))); auto. unfold Rdiv.
    rewrite Rmult_assoc, Rinv_l; lra.
Qed.

Lemma variety_nonneg v avg : 0 <= sqrt v / Rmax avg 1.
Proof.
  apply Rmult_le_pos; [apply sqrt_pos|].
  left. apply Rinv_0_lt_compat.
  eapply Rlt_le_trans; [|apply Rmax_r]. lra.
Qed.

Lemma third_nonneg (n : nat) : 0 <= INR n / 3.
Proof. pose proof (pos_INR n). lra. Qed.

Lemma formality_ratio_nonneg (a b : nat) : 0 <= INR a / INR b * 5.
Proof.
  pose proof (pos_INR a). pose proof (pos_INR b).
  apply Rmult_le_pos; [|lra]. apply Rmult_le_pos; auto.
  destruct (Req_dec (INR b) 0) as [->|Hb].
  - rewrite Rinv_0. lra.
  - left. apply Rinv_0_lt_compat. lra.
Qed.

(** The text of the example in which the contraction score exceeds 1. *)
Lemma contractionScore_example :
  contractionScore (analyzeAIPatterns toFixed (lit "don't can't.")) = 2.
Proof.
  assert (Hw : words_of (lit "don't can't.") <> []) by (vm_compute; discriminate).
  assert (Hs : sentences_of (lit "don't can't.") <> []) by (vm_compute; discriminate).
  regular_branch Hw Hs.
  replace (count_contractions (lit "don't can't.")) with 2%nat
    by (vm_compute; reflexivity).
  replace (length (sentences_of (lit "don't can't."))) with 1%nat
    by (vm_compute; reflexivity).
  simpl INR. rewrite Rmax_left by lra. lra.
Qed.

(** C2.  Every score of the record except [contractionScore] lies in the
    closed interval from 0 to 1, for every input; [contractionScore] is
    never negative, and it exceeds 1 on some input. *)
Theorem scores_in_unit_interval :
  (forall text,
     let a := analyzeAIPatterns toFixed text in
     0 <= formalityScore a <= 1 /\
     0 <= repetitionScore a <= 1 /\
     0 <= passiveScore a <= 1 /\
     0 <= sentenceVariety a <= 1 /\
     0 <= starterScore a <= 1 /\
     0 <= vocabDiversity a <= 1 /\
     0 <= transitionScore a <= 1 /\
     0 <= overallAIScore a <= 1 /\
     0 <= contractionScore a) /\
  (exists text, 1 < contractionScore (analyzeAIPatterns toFixed text)).
Proof.
  split.
  - intros text a. subst a.
    destruct (list_eq_dec jstring_dec (words_of text) []) as [Ew|Hw].
    { degenerate_branch (or_introl Ew : _ \/ sentences_of text = []). lra. }
    destruct (list_eq_dec jstring_dec (sentences_of text) []) as [Es|Hs].
    { degenerate_branch (or_intror Es : words_of text = [] \/ _). lra. }
    regular_branch Hw Hs.
    set (fs := Rmin (INR (formalCount (words_of text)) /
                     INR (length (words_of text)) * 5) 1).
    set (rs := sum_by excess (JSMap.values (wordFreq (words_of text))) /
               INR (length (words_of text))).
    set (ps := Rmin (INR (count_passive text) /
                     Rmax (INR (length (sentences_of text))) 1) 1).
    set (sv := Rmin (sqrt (variance_of (sentenceLengths (sentences_of text))) /
                     Rmax (average (sentenceLengths (sentences_of text))) 1) 1).
    set (ss := Rmin (INR (starterRepetition (sentences_of text)) /
                     Rmax (INR (length (sentences_of text))) 1) 1).
    set (cs := INR (count_contractions text) /
               Rmax (INR (length (sentences_of text))) 1).
    set (ts := Rmin (INR (transitionCount text) / 3) 1).
    set (vd := INR (length (JSSet.of_list (words_of text))) /
               INR (length (words_of text))).
    assert (Hfs : 0 <= fs <= 1) by (apply Rmin_unit, formality_ratio_nonneg).
    assert (Hrs : 0 <= rs <= 1) by (apply repetitionScore_unit; auto).
    assert (Hps : 0 <= ps <= 1) by (apply Rmin_unit, ratio_nonneg).
    assert (Hsv : 0 <= sv <= 1) by (apply Rmin_unit, variety_nonneg).
    assert (Hss : 0 <= ss <= 1) by (apply Rmin_unit, ratio_nonneg).
    assert (Hcs : 0 <= cs) by apply ratio_nonneg.
    assert (Hts : 0 <= ts <= 1) by (apply Rmin_unit, third_nonneg).
    assert (Hvd : 0 <= vd <= 1).
    { apply div_INR_unit; [apply set_of_list_length|].
      destruct (words_of text); [congruence|simpl; lia]. }
    repeat (split; [tauto|]). split; [|tauto].
    apply Rmin_unit.
    destruct (Rltb cs 0.1); destruct (Rltb vd 0.5); lra.
  - exists (lit "don't can't."). rewrite contractionScore_example. lra.
Qed.

Local Close Scope R_scope.

(** C3.  On the empty string, on a string of white space, and on every
    string that yields no word or no sentence, the analysis is the
    degenerate record: the nine scores are 0 and the pattern list is the
    single entry "Insufficient text for analysis". *)
Theorem insufficient_text text :
  text = [] \/ Forall (fun c => is_space c = true) text \/
  words_of text = [] \/ sentences_of text = [] ->
  let a := analyzeAIPatterns toFixed text in
  formalityScore a = 0%R /\ repetitionScore a = 0%R /\ passiveScore a = 0%R /\
  sentenceVariety a = 0%R /\ starterScore a = 0%R /\
  contractionScore a = 0%R /\ transitionScore a = 0%R /\
  vocabDiversity a = 0%R /\ overallAIScore a = 0%R /\
  aiPatterns a = [lit "Insufficient text for analysis"].
Proof.
  intros H a. subst a.
  assert (D : words_of text = [] \/ sentences_of text = []).
  { destruct H as [->|[H|[H|H]]]; auto.
    left. now apply words_of_blank. }
  degenerate_branch D. repeat split; reflexivity.
Qed.

(** C9.  When the text has a word but no sentence, the degenerate record
    still reports the number of words: [totalWords] is the number of words
    and is positive, while the scores are 0 and the pattern list is the
    single entry "Insufficient text for analysis". *)
Theorem degenerate_reports_word_count text :
  words_of text <> [] -> sentences_of text = [] ->
  let a := analyzeAIPatterns toFixed text in
  totalWords (detailedMetrics a) = length (words_of text) /\
  0 < totalWords (detailedMetrics a) /\
  totalSentences (detailedMetrics a) = 0 /\
  formalityScore a = 0%R /\ repetitionScore a = 0%R /\ passiveScore a = 0%R /\
  sentenceVariety a = 0%R /\ starterScore a = 0%R /\
  contractionScore a = 0%R /\ transitionScore a = 0%R /\
  vocabDiversity a = 0%R /\ overallAIScore a = 0%R /\
  aiPatterns a = [lit "Insufficient text for analysis"].
Proof.
  intros Hw Hs a. subst a.
  degenerate_branch (or_intror Hs : words_of text = [] \/ _).
  rewrite Hs. repeat split; try reflexivity.
  destruct (words_of text); [congruence|simpl; lia].
Qed.

(** ** The formality flag *)

Lemma starts_with_app (p s : jstring) : starts_with p (p ++ s) = true.
Proof.
  induction p as [|c p IH]; simpl; auto.
  now rewrite Ascii.eqb_refl.
Qed.

Lemma In_push_if (c : bool) (x e : jstring) : In e (push_if c x) -> e = x.
Proof. destruct c; simpl; intuition. Qed.

(** C6, amended.  On a text with at least one word and one sentence whose
    formal-word density satisfies formalCount / wordCount * 5 > 0.15, the
    pattern list has an entry that begins with
    "High formality level detected". *)
Theorem high_formality_flag text :
  words_of text <> [] -> sentences_of text <> [] ->
  (INR (formalCount (words_of text)) / INR (length (words_of text)) * 5 > 0.15)%R ->
  exists entry,
    In entry (aiPatterns (analyzeAIPatterns toFixed text)) /\
    starts_with (lit "High formality level detected") entry = true.
Proof.
  intros Hw Hs Hd. regular_branch Hw Hs.
  unfold Rgtb at 1, Rltb at 1.
  destruct (Rlt_dec _ _) as [_|N].
  - eexists. split; [left; reflexivity|].
    change (lit "High formality level detected (")
      with (lit "High formality level detected" ++ lit " (").
    rewrite <- !app_assoc. apply starts_with_app.
  - exfalso. apply N. apply Rmin_glb_lt; lra.
Qed.

End AnalyzerTheorems.

(** The text of C6's boundary case: one hundred words, three of them
    formal. *)
Lemma boundary_text_counts :
  formalCount (words_of boundary_text) = 3 /\
  length (words_of boundary_text) = 100 /\
  sentences_of boundary_text <> [].
Proof. vm_compute. repeat split; discriminate. Qed.

(** C6 as stated fails: with three formal words among one hundred the density
    is exactly 0.15, the hypothesis of the claim holds, and no entry of the
    pattern list begins with "High formality level detected". *)
Lemma high_formality_flag_boundary :
  words_of boundary_text <> [] /\ sentences_of boundary_text <> [] /\
  (INR (formalCount (words_of boundary_text)) /
   INR (length (words_of boundary_text)) * 5 >= 0.15)%R /\
  ~ exists toFixed entry,
      In entry (aiPatterns (analyzeAIPatterns toFixed boundary_text)) /\
      starts_with (lit "High formality level detected") entry = true.
Proof.
  destruct boundary_text_counts as (Hf & Hl & Hs).
  assert (Hw : words_of boundary_text <> []).
  { intros E. rewrite E in Hl. discriminate. }
  repeat split; auto.
  - rewrite Hf, Hl. rewrite !INR_IZR_INZ. simpl. lra.
  - intros (toFixed & entry & Hin & Hst). revert Hin.
    regular_branch Hw Hs. rewrite Hf, Hl.
    unfold Rgtb at 1, Rltb at 1.
    destruct (Rlt_dec _ _) as [L|_].
    { exfalso. pose proof (Rmin_l (INR 3 / INR 100 * 5) 1) as L'.
      assert (E : (INR 3 / INR 100 * 5 = 0.15)%R)
        by (rewrite !INR_IZR_INZ; simpl; lra).
      lra. }
    cbn [push_if app]. intros Hin.
    repeat (apply in_app_or in Hin; destruct Hin as [Hin|Hin];
            [apply In_push_if in Hin; subst entry; discriminate Hst|]).
    apply In_push_if in Hin; subst entry; discriminate Hst.
Qed.

(* ================================================================== *)
(** * Structure of the pipeline *)
(* ================================================================== *)

Lemma quiet_gates :
  Rgtb (formalityScore quiet_analysis) 0.1 = false /\
  Rgtb (repetitionScore quiet_analysis) 0.05 = false /\
  Rgtb (passiveScore quiet_analysis) 0.2 = false /\
  Rltb (sentenceVariety quiet_analysis) 0.4 = false /\
  Rltb (contractionScore quiet_analysis) 0.2 = false.
Proof.
  unfold Rgtb, Rltb. simpl.
  repeat split; destruct (Rlt_dec _ _); auto; lra.
Qed.

Lemma humanize_pass_quiet tn st result g :
  humanize_pass tn st quiet_analysis result g =
  bind (applyToneTransformations (removeRoboticTransitions result) tn st)
       (fun result =>
          bind (addNaturalFlow result tn st)
               (fun result => if is_aggressive st
                              then injectPersonality result tn
                              else ret result)) g.
Proof.
  unfold humanize_pass. destruct quiet_gates as (-> & -> & -> & -> & ->).
  reflexivity.
Qed.

(** The rewriting depends on the draws of the random source. *)
Lemma humanization_depends_on_draws :
  result_of (applyHumanization (lit "It is so.") casual light quiet_analysis
               (constant_rng draw_half))
  = Some (lit "It is so.") /\
  result_of (applyHumanization (lit "It is so.") casual light quiet_analysis
               (constant_rng draw_zero))
  = Some (lit "Honestly, it really is so.").
Proof.
  unfold applyHumanization, pass_loop, bind. rewrite !humanize_pass_quiet.
  split; vm_compute; reflexivity.
Qed.


(* ================================================================== *)
(** * [finalPolish] on a text with leading white space *)
(* ================================================================== *)

(** C4 fails on the code: the first letter is capitalised before the text is
    trimmed, so a text with leading white space keeps its lower-case first
    letter in the first application and loses it in the second. *)
Lemma finalPolish_not_idempotent :
  finalPolish (lit " a") = lit "a" /\
  finalPolish (finalPolish (lit " a")) = lit "A" /\
  finalPolish (finalPolish (lit " a")) <> finalPolish (lit " a").
Proof. vm_compute. repeat split; discriminate. Qed.

(** On the short texts the two applications differ by the leading white
    space only: polishing twice is polishing the text without it. *)
Lemma finalPolish_twice_small :
  forallb (fun s => streq (finalPolish (finalPolish s))
                          (finalPolish (trimStart s)))
          (small_strings 4) = true.
Proof. vm_compute. reflexivity. Qed.

(** [reduceRepetition] can throw: the third "Constructor" finds
    [Object.prototype.constructor] in the synonym table, whose element is
    [undefined], and the capitalised branch calls [charAt] on it. *)
Lemma repetition_type_error :
  result_of (reduceRepetition (lit "Constructor constructor Constructor") light
               (constant_rng draw_zero)) = None.
Proof. vm_compute. reflexivity. Qed.

(* ================================================================== *)
(** * The professional tone: substrings *)
(* ================================================================== *)

(** C5 as stated fails: "wannabe" contains "wanna" and is no match of
    [\bwanna\b], so the professional tone leaves it in place. *)
Lemma professional_keeps_substring :
  result_of (applyHumanization (lit "wannabe") professional light
               quiet_analysis (constant_rng draw_half))
  = Some (lit "Wannabe") /\
  includes (toLowerCase (lit "Wannabe")) (lit "wanna") = true.
Proof.
  unfold applyHumanization, pass_loop, bind. rewrite !humanize_pass_quiet.
  split; vm_compute; reflexivity.
Qed.

(* ================================================================== *)
(** * Instances *)
(* ================================================================== *)

Lemma overallAIScore_formula_witness :
  words_of (lit "Hello world.") <> [] /\
  sentences_of (lit "Hello world.") <> [] /\
  let a := analyzeAIPatterns no_digits (lit "Hello world.") in
  let lackOfContractions := if Rltb (contractionScore a) 0.1 then 0.8%R else 0%R in
  let lowDiversityScore := if Rltb (vocabDiversity a) 0.5 then 0.6%R else 0%R in
  overallAIScore a =
  Rmin (0.20 * formalityScore a + 0.15 * repetitionScore a
        + 0.15 * passiveScore a + 0.15 * (1 - sentenceVariety a)
        + 0.10 * starterScore a + 0.10 * lackOfContractions
        + 0.10 * transitionScore a + 0.05 * lowDiversityScore) 1.
Proof.
  assert (Hw : words_of (lit "Hello world.") <> []) by (vm_compute; discriminate).
  assert (Hs : sentences_of (lit "Hello world.") <> []) by (vm_compute; discriminate).
  split; [exact Hw|]. split; [exact Hs|].
  exact (@overallAIScore_formula no_digits (lit "Hello world.") Hw Hs).
Defined.

Lemma insufficient_text_witness :
  Forall (fun c => is_space c = true) (lit "   ") /\
  aiPatterns (analyzeAIPatterns no_digits (lit "   ")) =
  [lit "Insufficient text for analysis"].
Proof.
  assert (H : Forall (fun c => is_space c = true) (lit "   "))
    by (repeat constructor).
  split; [exact H|].
  apply (@insufficient_text no_digits (lit "   ") (or_intror (or_introl H))).
Defined.

Lemma degenerate_reports_word_count_witness :
  words_of (lit ".") <> [] /\ sentences_of (lit ".") = [] /\
  totalWords (detailedMetrics (analyzeAIPatterns no_digits (lit "."))) = 1.
Proof.
  assert (Hw : words_of (lit ".") <> []) by (vm_compute; discriminate).
  assert (Hs : sentences_of (lit ".") = []) by (vm_compute; reflexivity).
  split; [exact Hw|]. split; [exact Hs|].
  exact (proj1 (@degenerate_reports_word_count no_digits (lit ".") Hw Hs)).
Defined.

Lemma high_formality_flag_witness :
  words_of (lit "utilize") <> [] /\ sentences_of (lit "utilize") <> [] /\
  exists entry,
    In entry (aiPatterns (analyzeAIPatterns no_digits (lit "utilize"))) /\
    starts_with (lit "High formality level detected") entry = true.
Proof.
  assert (Hw : words_of (lit "utilize") <> []) by (vm_compute; discriminate).
  assert (Hs : sentences_of (lit "utilize") <> []) by (vm_compute; discriminate).
  split; [exact Hw|]. split; [exact Hs|].
  apply (@high_formality_flag no_digits (lit "utilize") Hw Hs).
  replace (formalCount (words_of (lit "utilize"))) with 1 by (vm_compute; reflexivity).
  replace (length (words_of (lit "utilize"))) with 1 by (vm_compute; reflexivity).
  simpl. lra.
Defined.

(* ================================================================== *)
(** * White space after [finalPolish] *)
(* ================================================================== *)

(** ** More on the matcher *)

Lemma exec_hd r before after m caps :
  exec r before after = Some (m, caps) ->
  exists a' l, rmatch r (before, after, []) = (rev m ++ before, a', caps) :: l /\
               after = m ++ a'.
Proof.
  unfold exec. destruct (rmatch r (before, after, [])) as [|[[b a] k] l] eqn:E;
    [discriminate|].
  intros H. inversion H; subst; clear H.
  assert (I : In (b, a, caps) (rmatch r (before, after, [])))
    by (rewrite E; now left).
  apply rmatch_sound in I. destruct I as (m & c & -> & -> & -> & M).
  rewrite firstn_rev_app. now exists a, l.
Qed.

Lemma exec_matches r before m rest caps :
  exec r before (m ++ rest) = Some (m, caps) -> matches r before m rest caps.
Proof.
  intros H. destruct (exec_sound _ _ _ _ _ H) as (rest' & E & M).
  apply app_inv_head in E. now subst.
Qed.

Lemma after_run_hd (P : ascii -> bool) s :
  match after_run P s with c :: _ => P c = false | [] => True end.
Proof.
  induction s as [|c s IH]; simpl; auto.
  destruct (P c) eqn:Pc; auto.
Qed.

Lemma rmatch_Seq r1 r2 st :
  rmatch (Seq r1 r2) st = flat_map (rmatch r2) (rmatch r1 st).
Proof. destruct st as [[b a] k]. reflexivity. Qed.

Lemma rmatch_StarC (P : ascii -> bool) before after caps :
  rmatch (StarC P) (before, after, caps) =
  map (fun ba => (fst ba, snd ba, caps)) (star_states P before after).
Proof. reflexivity. Qed.

(** A pattern that ends in a greedy [c*] leaves no [c] behind. *)
Lemma exec_star_greedy r1 (P : ascii -> bool) before m rest caps :
  exec (Seq r1 (StarC P)) before (m ++ rest) = Some (m, caps) ->
  match rest with c :: _ => P c = false | [] => True end.
Proof.
  intros H. apply exec_hd in H. destruct H as (a' & l & E & Ea).
  apply app_inv_head in Ea. subst a'. rewrite rmatch_Seq in E.
  destruct (rmatch r1 _) as [|[[b1 a1] k1] l1]; [simpl in E; discriminate|].
  cbn [flat_map] in E. rewrite rmatch_StarC in E.
  destruct (star_states_hd P a1 b1) as (l2 & E2). rewrite E2 in E.
  simpl in E. inversion E; subst. apply after_run_hd.
Qed.

Lemma exec_plus_some (P : ascii -> bool) before m rest caps :
  exec (PlusC P) before (m ++ rest) = Some (m, caps) ->
  m <> [] /\ Forall (fun c => P c = true) m /\ caps = [] /\
  match rest with c :: _ => P c = false | [] => True end.
Proof.
  intros H. pose proof H as G. unfold PlusC in G.
  apply exec_star_greedy in G.
  apply exec_matches in H. unfold PlusC in H.
  inversion H; subst; clear H.
  match goal with H : matches (Cls _) _ _ _ _ |- _ => inversion H; subst; clear H end.
  match goal with H : matches (StarC _) _ _ _ _ |- _ => inversion H; subst; clear H end.
  repeat split; auto; try discriminate. simpl. now constructor.
Qed.

Lemma exec_plus_none (P : ascii -> bool) before c rest :
  exec (PlusC P) before (c :: rest) = None -> P c = false.
Proof.
  rewrite exec_plus. simpl. destruct (P c); [discriminate|auto].
Qed.

(** ** Tidy texts *)

Lemma ends_space_nonempty p s : s <> [] -> ends_space p s = space_last s.
Proof. destruct s; [congruence|reflexivity]. Qed.

Lemma ends_space_app p a b :
  ends_space p (a ++ b) = ends_space (ends_space p a) b.
Proof. revert p. induction a as [|c a IH]; intros p; simpl; auto. Qed.

Lemma tidy_from_app p a b :
  tidy_from p (a ++ b) = tidy_from p a && tidy_from (ends_space p a) b.
Proof.
  revert p. induction a as [|c a IH]; intros p; simpl; auto.
  destruct (is_space c); rewrite IH; auto.
  now rewrite <- !andb_assoc.
Qed.

Lemma tidy_from_weaken p s : tidy_from true s = true -> tidy_from p s = true.
Proof.
  destruct s as [|c s]; simpl; auto.
  destruct (is_space c); auto. rewrite andb_false_r. discriminate.
Qed.

Lemma tidy_from_true_first s : tidy_from true s = true -> space_first s = false.
Proof.
  destruct s as [|c s]; simpl; auto.
  destruct (is_space c); auto. rewrite andb_false_r. discriminate.
Qed.

Lemma tidy_from_strengthen s :
  tidy_from false s = true -> space_first s = false -> tidy_from true s = true.
Proof.
  destruct s as [|c s]; simpl; auto. intros H E. rewrite E in *. exact H.
Qed.

Lemma tidy_after p a b :
  tidy_from p (a ++ b) = true ->
  ends_space p a = true -> space_first b = false.
Proof.
  rewrite tidy_from_app. intros H E. apply andb_true_iff in H.
  destruct H as [_ H]. rewrite E in H. now apply tidy_from_true_first.
Qed.

Section ReplaceTidy.

Variable r : regex.
Variable f : jstring -> list jstring -> jstring.

Hypothesis nonempty_hits :
  forall before after caps, exec r before after <> Some ([], caps).

Hypothesis tidy_hits :
  forall before m rest caps,
    exec r before (m ++ rest) = Some (m, caps) ->
    tidy_from false m = true ->
    f m caps <> [] /\ tidy_from false (f m caps) = true /\
    (space_first (f m caps) = true -> space_first m = true) /\
    (space_last (f m caps) = true ->
     space_last m = true \/ space_first rest = false).

Lemma Scan_tidy before after segs :
  Scan r before after segs ->
  forall p_in p_out,
    tidy_from p_in after = true ->
    (p_out = true -> space_first after = false) ->
    tidy_from p_out (concat (map (render f) segs)) = true.
Proof.
  induction 1 as [before E|before m caps E|before c rest segs E S IH
                 |before c rest caps segs E S IH|before m rest caps segs Hm E S IH];
    intros p_in p_out Hin Hout.
  - reflexivity.
  - destruct m; [now apply nonempty_hits in E|].
    apply exec_sound in E. destruct E as (rest & E & _). discriminate.
  - simpl in *. destruct (is_space c) eqn:Sc.
    + apply andb_true_iff in Hin. destruct Hin as [Hin Hrest].
      apply andb_true_iff in Hin. destruct Hin as [Hc _]. rewrite Hc.
      destruct p_out; [specialize (Hout eq_refl); discriminate|]. simpl.
      apply (IH true true); auto. intros _. now apply tidy_from_true_first.
    + apply (IH false false); auto. discriminate.
  - now apply nonempty_hits in E.
  - assert (Hm0 : tidy_from false m = true).
    { rewrite tidy_from_app in Hin. apply andb_true_iff in Hin.
      destruct Hin as [Hin _]. destruct p_in; auto.
      now apply tidy_from_weaken with (p := false) in Hin. }
    destruct (tidy_hits _ _ _ _ E Hm0) as (Hu & Tu & Fu & Lu).
    cbn [map concat render]. rewrite tidy_from_app.
    apply andb_true_iff. split.
    + destruct p_out; auto. apply tidy_from_strengthen; auto.
      specialize (Hout eq_refl).
      destruct (space_first (f m caps)) eqn:F; auto.
      specialize (Fu eq_refl). destruct m; [congruence|].
      simpl in *. congruence.
    + rewrite (ends_space_nonempty _ _ Hu).
      apply (IH (ends_space p_in m) (space_last (f m caps))).
      * rewrite tidy_from_app in Hin. apply andb_true_iff in Hin. tauto.
      * intros L. destruct (Lu L) as [Lm|]; auto.
        apply (tidy_after _ _ _ Hin). now rewrite (ends_space_nonempty _ _ Hm).
Qed.

Lemma replace_tidy s : tidy s = true -> tidy (replace_all r f s) = true.
Proof.
  intros H. unfold tidy, replace_all.
  apply (Scan_tidy _ _ _ (scan_Scan r s) false false); auto. discriminate.
Qed.

End ReplaceTidy.

(** ** Patterns that match no empty string *)

Lemma matches_nil_nullable r before m rest caps :
  matches r before m rest caps -> m = [] -> nullable r = true.
Proof.
  induction 1; intros E; simpl; auto; try discriminate.
  - apply app_eq_nil in E. destruct E as [-> ->]. now rewrite IHmatches1, IHmatches2.
  - now rewrite IHmatches.
  - rewrite IHmatches; auto. apply orb_true_r.
Qed.

Lemma exec_nonempty r :
  nullable r = false ->
  forall before after caps, exec r before after <> Some ([], caps).
Proof.
  intros N before after caps E. apply exec_sound in E.
  destruct E as (rest & _ & M).
  apply matches_nil_nullable in M; auto. congruence.
Qed.

Ltac inv_matches :=
  repeat match goal with
  | H : matches Eps _ _ _ _ |- _ => inversion H; subst; clear H
  | H : matches (Cls _) _ _ _ _ |- _ => inversion H; subst; clear H
  | H : matches (Seq _ _) _ _ _ _ |- _ => inversion H; subst; clear H
  | H : matches (Alt _ _) _ _ _ _ |- _ => inversion H; subst; clear H
  | H : matches (StarC _) _ _ _ _ |- _ => inversion H; subst; clear H
  | H : matches (Group _) _ _ _ _ |- _ => inversion H; subst; clear H
  | H : matches WordB _ _ _ _ |- _ => inversion H; subst; clear H
  | H : matches Bol _ _ _ _ |- _ => inversion H; subst; clear H
  | H : matches Eol _ _ _ _ |- _ => inversion H; subst; clear H
  end.

(** ** Character classes *)

Ltac by_cases_on c :=
  destruct c as [[] [] [] [] [] [] [] []]; vm_compute; intros; congruence.

Lemma punct_not_space c : punct c = true -> is_space c = false.
Proof. by_cases_on c. Qed.

Lemma word_not_space c : is_word c = true -> is_space c = false.
Proof. by_cases_on c. Qed.

Lemma toUpper_space c : is_space (toUpper c) = is_space c.
Proof. by_cases_on c. Qed.

Lemma toUpper_is_blank c : Ascii.eqb (toUpper c) " " = Ascii.eqb c " ".
Proof. by_cases_on c. Qed.

Lemma eqb_not_space (d c : ascii) :
  is_space d = false -> Ascii.eqb d c = true -> is_space c = false.
Proof. intros Hd E. apply Ascii.eqb_eq in E. now subst. Qed.

(** ** The steps of [finalPolish] keep a text tidy *)

Lemma solid_tidy u :
  Forall (fun c => is_space c = false) u ->
  forall p, tidy_from p u = true /\ ends_space false u = false.
Proof.
  induction 1 as [|c u Hc Hu IH]; intros p; simpl; auto.
  rewrite Hc. apply (IH false).
Qed.

Lemma blank_last x y :
  y <> [] -> Forall (fun c => is_space c = true) y -> space_last (x ++ y) = true.
Proof.
  intros Hy Fy. unfold space_last. rewrite ends_space_app.
  generalize (ends_space false x). induction Fy as [|c y Hc Fy IH]; [congruence|].
  intros p. simpl. destruct y; [exact Hc|]. apply IH. discriminate.
Qed.

Lemma collapse_tidy s :
  tidy (replace_all (PlusC is_space) (fun _ _ => lit " ") s) = true.
Proof.
  unfold tidy, replace_all.
  assert (G : forall before after segs,
             Scan (PlusC is_space) before after segs ->
             forall p_out, (p_out = true -> space_first after = false) ->
             tidy_from p_out (concat (map (render (fun _ _ => lit " ")) segs)) = true).
  { induction 1 as [before E|before m caps E|before c rest segs E S IH
                   |before c rest caps segs E S IH|before m rest caps segs Hm E S IH];
      intros p_out Hout.
    - reflexivity.
    - rewrite exec_plus in E. discriminate.
    - apply exec_plus_none in E. simpl. rewrite E. apply IH. discriminate.
    - now apply exec_nonempty in E.
    - apply exec_plus_some in E. destruct E as (_ & Fm & _ & Hrest).
      destruct m as [|c m]; [congruence|]. inversion Fm; subst.
      destruct p_out; [specialize (Hout eq_refl); simpl in Hout; congruence|].
      cbn. apply IH. intros _. destruct rest; auto. }
  apply (G _ _ _ (scan_Scan _ s)). discriminate.
Qed.

Lemma unspace_before_tidy (P : ascii -> bool) s :
  (forall c, P c = true -> is_space c = false) ->
  tidy s = true ->
  tidy (replace_all (seq [PlusC is_space; Group (Cls P)]) (expand [G 1]) s) = true.
Proof.
  intros HP. apply replace_tidy.
  - now apply exec_nonempty.
  - intros before m rest caps E Tm. apply exec_matches in E.
    cbn [seq] in E. unfold PlusC in E. inv_matches. cbn.
    match goal with H : P ?c = true |- _ => apply HP in H; rewrite H end.
    repeat split; try discriminate.
Qed.

Lemma space_after_tidy s :
  tidy s = true ->
  tidy (replace_all (seq [Group (Cls punct); StarC is_space])
                    (expand [G 1; T " "]) s) = true.
Proof.
  apply replace_tidy.
  - now apply exec_nonempty.
  - intros before m rest caps E Tm.
    pose proof (exec_star_greedy _ _ _ _ _ _ E) as Gr.
    apply exec_matches in E. cbn [seq] in E. inv_matches. cbn.
    match goal with H : punct ?c = true |- _ =>
      apply punct_not_space in H; rewrite H end.
    repeat split; try discriminate.
    intros _. right. destruct rest; auto.
Qed.

Lemma squeeze_tidy (d : ascii) s :
  is_space d = false ->
  tidy s = true ->
  tidy (replace_all (PlusC (Ascii.eqb d)) (fun _ _ => [d]) s) = true.
Proof.
  intros Hd. apply replace_tidy.
  - now apply exec_nonempty.
  - intros before m rest caps E Tm. cbn. rewrite Hd.
    repeat split; try discriminate.
Qed.

Lemma capitalize_after_tidy s :
  tidy s = true ->
  tidy (replace_all
          (seq [Group (seq [Cls (one_of ".!?"); PlusC is_space]);
                Group (Cls is_word)])
          (fun _ caps => nth 0 caps [] ++ toUpperCase (nth 1 caps [])) s) = true.
Proof.
  apply replace_tidy.
  - now apply exec_nonempty.
  - intros before m rest caps E Tm. apply exec_matches in E.
    cbn [seq] in E. unfold PlusC in E. inv_matches.
    match goal with H : is_word ?c = true |- _ =>
      pose proof (word_not_space _ H) as Hw; clear H end.
    cbn [app nth toUpperCase map] in *.
    rewrite !app_comm_cons in *.
    rewrite tidy_from_app in Tm. apply andb_true_iff in Tm.
    destruct Tm as [Tm _].
    unfold space_last. rewrite tidy_from_app, !ends_space_app, Tm.
    cbn [tidy_from ends_space space_first andb].
    rewrite toUpper_space, Hw.
    repeat split; auto; discriminate.
Qed.

Lemma dash_tidy s :
  tidy s = true ->
  tidy (replace_all (seq [PlusC is_space; chr "-"; PlusC is_space])
                    (fun _ _ => lit " - ") s) = true.
Proof.
  apply replace_tidy.
  - now apply exec_nonempty.
  - intros before m rest caps E Tm. apply exec_matches in E.
    cbn [seq] in E. unfold PlusC, chr in E. inv_matches.
    split; [vm_compute; discriminate|]. split; [reflexivity|].
    split; intros _.
    + cbn. assumption.
    + left.
      match goal with |- space_last (?a ++ ?b ++ ?d) = true =>
        rewrite (app_assoc a b d) end.
      apply blank_last; [simpl; discriminate|]. now constructor.
Qed.

Lemma unspace_comma_tidy (d : ascii) s :
  is_space d = false ->
  tidy s = true ->
  tidy (replace_all (seq [PlusC is_space; chr d]) (fun _ _ => [d]) s) = true.
Proof.
  intros Hd. apply replace_tidy.
  - now apply exec_nonempty.
  - intros before m rest caps E Tm. cbn. rewrite Hd.
    repeat split; try discriminate.
Qed.

Lemma capitalize_tidy s : tidy s = true -> tidy (capitalize s) = true.
Proof.
  unfold tidy, capitalize. destruct s as [|c s]; simpl; auto.
  now rewrite toUpper_space, toUpper_is_blank.
Qed.

(** ** Trimming *)

Lemma trimStart_suffix s :
  exists w, s = w ++ trimStart s /\ space_first (trimStart s) = false.
Proof.
  induction s as [|c s (w & E & F)]; simpl.
  - now exists [].
  - destruct (is_space c) eqn:Sc.
    + exists (c :: w). simpl. split; congruence.
    + exists []. simpl. auto.
Qed.

Lemma trimEnd_prefix s :
  exists w, s = trimEnd s ++ w /\ space_last (trimEnd s) = false.
Proof.
  unfold trimEnd. destruct (trimStart_suffix (rev s)) as (w & E & F).
  exists (rev w). split.
  - rewrite <- rev_app_distr, <- E. now rewrite rev_involutive.
  - remember (trimStart (rev s)) as t. clear - F. unfold space_last.
    destruct t as [|c t]; simpl in *; auto.
    rewrite ends_space_app. simpl. exact F.
Qed.

Lemma tidy_prefix p a b : tidy_from p (a ++ b) = true -> tidy_from p a = true.
Proof. rewrite tidy_from_app. intros H. apply andb_true_iff in H. tauto. Qed.

Lemma tidy_suffix a b : tidy_from false (a ++ b) = true -> tidy_from false b = true.
Proof.
  rewrite tidy_from_app. intros H. apply andb_true_iff in H.
  destruct H as [_ H]. destruct (ends_space false a); auto.
  now apply tidy_from_weaken.
Qed.

Lemma trim_tidy s :
  tidy s = true -> tidy (trim s) = true /\ no_outer_space (trim s).
Proof.
  unfold tidy, trim, no_outer_space. intros H.
  destruct (trimStart_suffix s) as (w & E & F).
  destruct (trimEnd_prefix (trimStart s)) as (v & E' & L).
  rewrite E in H. apply tidy_suffix in H.
  rewrite E' in H. apply tidy_prefix in H.
  repeat split; auto.
  destruct (trimEnd (trimStart s)) as [|c t] eqn:T; auto.
  rewrite E' in F. exact F.
Qed.

(** ** The polished text *)

Lemma finalPolish_tidy text :
  tidy (finalPolish text) = true /\ no_outer_space (finalPolish text).
Proof.
  unfold finalPolish. apply trim_tidy.
  apply (unspace_comma_tidy "."); [reflexivity|].
  apply (unspace_comma_tidy ","); [reflexivity|].
  apply dash_tidy. apply capitalize_tidy. apply capitalize_after_tidy.
  apply (squeeze_tidy "!"); [reflexivity|].
  apply (squeeze_tidy "?"); [reflexivity|].
  apply (squeeze_tidy "."); [reflexivity|].
  apply space_after_tidy.
  apply unspace_before_tidy; [apply punct_not_space|].
  apply collapse_tidy.
Qed.

Lemma tidy_plain_spaces s : tidy s = true -> only_plain_spaces s.
Proof.
  unfold tidy, only_plain_spaces.
  enough (G : forall p, tidy_from p s = true ->
                        forall c, In c s -> is_space c = true -> c = " "%char)
    by apply G.
  induction s as [|c s IH]; intros p H d Hin Sd; [destruct Hin|].
  destruct Hin as [->|Hd]; simpl in H.
  - rewrite Sd in H. apply andb_true_iff in H. destruct H as [H _].
    apply andb_true_iff in H. destruct H as [H _]. now apply Ascii.eqb_eq in H.
  - destruct (is_space c).
    + apply andb_true_iff in H. destruct H as [_ H]. now apply (IH true).
    + now apply (IH false).
Qed.

Lemma tidy_no_space_run s : tidy s = true -> no_space_run s.
Proof.
  unfold tidy, no_space_run. intros H x a b y -> Sa.
  rewrite tidy_from_app in H. apply andb_true_iff in H. destruct H as [_ H].
  simpl in H. rewrite Sa in H.
  apply andb_true_iff in H. destruct H as [_ H].
  destruct (is_space b); auto. rewrite andb_false_r in H. discriminate.
Qed.

Lemma tidy_well_spaced s :
  tidy s = true -> no_outer_space s -> well_spaced s.
Proof.
  intros T O. pose proof (tidy_plain_spaces _ T) as P.
  repeat split; try apply O; auto.
  - intros I. specialize (P _ I eq_refl). discriminate.
  - intros I. specialize (P _ I eq_refl). discriminate.
  - now apply tidy_no_space_run.
Qed.

Lemma applyHumanization_polished text tn st analysis g out :
  result_of (applyHumanization text tn st analysis g) = Some out ->
  exists r, out = finalPolish r.
Proof.
  unfold applyHumanization, bind, ret, result_of.
  destruct (pass_loop _ tn st analysis text g) as [[r g']|]; [|discriminate].
  intros E. inversion E. now exists r.
Qed.

(** C10.  The text that [finalPolish] returns, and so every text that
    [applyHumanization] returns, has no newline and no tab: its only
    white-space characters are single spaces, never two in a row and none
    at either end.  A blank line between paragraphs does not survive. *)
Theorem humanized_text_spacing :
  (forall text, well_spaced (finalPolish text)) /\
  (forall text tn st analysis g out,
     result_of (applyHumanization text tn st analysis g) = Some out ->
     well_spaced out).
Proof.
  assert (F : forall text, well_spaced (finalPolish text)).
  { intros text. destruct (finalPolish_tidy text) as [T O].
    now apply tidy_well_spaced. }
  split; auto.
  intros text tn st analysis g out H.
  apply applyHumanization_polished in H. destruct H as (r & ->). apply F.
Qed.

Lemma humanized_text_spacing_witness :
  result_of (applyHumanization two_paragraphs professional light quiet_analysis
               (constant_rng draw_half))
  = Some (lit "One two. Three four.") /\
  well_spaced (lit "One two. Three four.").
Proof.
  assert (E : result_of (applyHumanization two_paragraphs professional light
                           quiet_analysis (constant_rng draw_half))
              = Some (lit "One two. Three four.")).
  { unfold applyHumanization, pass_loop, bind. rewrite !humanize_pass_quiet.
    vm_compute. reflexivity. }
  split; [exact E|].
  exact (proj2 humanized_text_spacing _ _ _ _ _ _ E).
Defined.

(* ================================================================== *)
(** * Completeness of the matcher *)
(* ================================================================== *)

Lemma star_states_complete (P : ascii -> bool) m : forall before rest,
  Forall (fun c => P c = true) m ->
  In (rev m ++ before, rest) (star_states P before (m ++ rest)).
Proof.
  induction m as [|c m IH]; intros before rest F; simpl.
  - destruct rest as [|d rest]; simpl; auto.
    destruct (P d); [apply in_or_app; right|]; now left.
  - inversion F; subst. rewrite H1. apply in_or_app. left.
    rewrite <- app_assoc. now apply IH.
Qed.

Lemma rmatch_complete r before m rest c :
  matches r before m rest c ->
  forall caps,
    In (rev m ++ before, rest, caps ++ c) (rmatch r (before, m ++ rest, caps)).
Proof.
  induction 1; intros caps; simpl; rewrite ?app_nil_r; auto.
  - rewrite H. now left.
  - apply in_flat_map. exists (rev m1 ++ before, m2 ++ rest, caps ++ c1). split.
    + rewrite <- app_assoc. apply IHmatches1.
    + rewrite rev_app_distr, <- !app_assoc, (app_assoc caps). apply IHmatches2.
  - apply in_or_app. left. apply IHmatches.
  - apply in_or_app. right. apply IHmatches.
  - apply in_map_iff. exists (rev m ++ before, rest). split; auto.
    now apply star_states_complete.
  - apply in_map_iff. exists (rev m ++ before, rest, caps ++ c). split.
    + now rewrite firstn_rev_app, <- app_assoc.
    + apply IHmatches.
  - rewrite H. now left.
Qed.

Lemma matches_exec r before m rest c :
  matches r before m rest c -> exec r before (m ++ rest) <> None.
Proof.
  intros M. pose proof (rmatch_complete _ _ _ _ _ M []) as I.
  unfold exec. destruct (rmatch r _) as [|[[b a] k] l].
  - destruct I.
  - discriminate.
Qed.

Lemma Scan_hit_exec r before after segs m caps :
  Scan r before after segs -> In (Hit m caps) segs ->
  exists b rest, exec r b (m ++ rest) = Some (m, caps).
Proof.
  induction 1 as [before E|before m0 caps0 E|before c rest segs E S IH
                 |before c rest caps0 segs E S IH|before m0 rest caps0 segs Hm E S IH];
    intros I.
  - destruct I.
  - destruct I as [I|[]]. inversion I; subst.
    destruct (exec_sound _ _ _ _ _ E) as (rest & Er & _).
    exists before, rest. now rewrite <- Er.
  - destruct I as [I|I]; [discriminate|auto].
  - destruct I as [I|[I|I]]; try discriminate; auto.
    inversion I; subst. now exists before, (c :: rest).
  - destruct I as [I|I]; auto. inversion I; subst. now exists before, rest.
Qed.

Lemma hits_In segs m : In m (hits segs) -> exists caps, In (Hit m caps) segs.
Proof.
  induction segs as [|[c|m0 caps0] segs IH]; simpl; intros I.
  - destruct I.
  - destruct (IH I) as (caps & H). eauto.
  - destruct I as [->|I]; [eauto|]. destruct (IH I) as (caps & H). eauto.
Qed.

(* ================================================================== *)
(** * Words of a text *)
(* ================================================================== *)

Lemma is_word_toLower c : is_word (toLower c) = is_word c.
Proof. by_cases_on c. Qed.

Lemma toLower_idem c : toLower (toLower c) = toLower c.
Proof. by_cases_on c. Qed.

Lemma toLower_toUpper c : toLower (toUpper c) = toLower c.
Proof. by_cases_on c. Qed.

Lemma space_not_word c : is_space c = true -> is_word c = false.
Proof. by_cases_on c. Qed.

Lemma punct_not_word c : punct c = true -> is_word c = false.
Proof. by_cases_on c. Qed.

Lemma terminator_not_word c : one_of ".!?" c = true -> is_word c = false.
Proof. by_cases_on c. Qed.

Lemma is_word_same_lower c d : toLower c = toLower d -> is_word c = is_word d.
Proof. intros E. now rewrite <- (is_word_toLower c), E, is_word_toLower. Qed.

Lemma tokens_from_sep cur s :
  word_after s = false -> tokens_from cur s = flush cur ++ tokens s.
Proof.
  unfold tokens. destruct s as [|c s]; simpl.
  - now rewrite app_nil_r.
  - intros ->. reflexivity.
Qed.

Lemma tokens_from_app_sep a : forall cur b,
  word_after b = false ->
  tokens_from cur (a ++ b) = tokens_from cur a ++ tokens b.
Proof.
  induction a as [|c a IH]; intros cur b Hb; simpl.
  - now apply tokens_from_sep.
  - destruct (is_word c).
    + now apply IH.
    + rewrite IH by auto. now rewrite app_assoc.
Qed.

Lemma tokens_blank b :
  Forall (fun c => is_word c = false) b -> tokens b = [].
Proof.
  unfold tokens. induction 1 as [|c b Hc Hb IH]; simpl; auto. now rewrite Hc.
Qed.

Lemma tokens_from_block b cur s :
  b <> [] -> Forall (fun c => is_word c = false) b ->
  tokens_from cur (b ++ s) = flush cur ++ tokens s.
Proof.
  intros Hb F. destruct b as [|c b]; [congruence|]. inversion F; subst.
  simpl. rewrite H1. f_equal.
  change (tokens_from [] (b ++ s)) with (tokens (b ++ s)).
  clear - H2. induction H2 as [|d b Hd Hb IH]; simpl; auto.
  unfold tokens. simpl. now rewrite Hd.
Qed.

Lemma tokens_from_app_end a c cur b :
  is_word c = false ->
  tokens_from cur ((a ++ [c]) ++ b) = tokens_from cur (a ++ [c]) ++ tokens b.
Proof.
  intros Hc. rewrite <- app_assoc. rewrite !tokens_from_app_sep by (simpl; auto).
  rewrite <- app_assoc. f_equal. unfold tokens. simpl. now rewrite Hc.
Qed.

Lemma tokens_from_same_lower s1 : forall s2 cur,
  map toLower s1 = map toLower s2 -> tokens_from cur s1 = tokens_from cur s2.
Proof.
  induction s1 as [|c s1 IH]; intros [|d s2] cur E; try discriminate; auto.
  simpl in *. inversion E as [[Ec Es]].
  rewrite (is_word_same_lower _ _ Ec), Ec.
  destruct (is_word d); [|f_equal]; now apply IH.
Qed.

Lemma tokens_same_lower s1 s2 :
  map toLower s1 = map toLower s2 -> tokens s1 = tokens s2.
Proof. apply tokens_from_same_lower. Qed.

(** A run of [\w] characters is one token. *)
Lemma tokens_from_word m : forall cur,
  Forall (fun c => is_word c = true) m ->
  tokens_from cur m = flush (rev (map toLower m) ++ cur).
Proof.
  induction m as [|c m IH]; intros cur F; simpl; auto.
  inversion F; subst. rewrite H1, IH by auto.
  now rewrite <- app_assoc.
Qed.

Lemma tokens_word m :
  m <> [] -> Forall (fun c => is_word c = true) m ->
  tokens m = [map toLower m].
Proof.
  intros Hm F. unfold tokens. rewrite tokens_from_word by auto.
  rewrite app_nil_r. unfold flush.
  destruct (rev (map toLower m)) eqn:E.
  - apply (f_equal (@rev ascii)) in E. rewrite rev_involutive in E.
    destruct m; [congruence|discriminate].
  - now rewrite <- E, rev_involutive.
Qed.

(* ================================================================== *)
(** * [finalPolish] keeps the words of a text *)
(* ================================================================== *)

Lemma matches_classes (Q : ascii -> Prop) r before m rest caps :
  matches r before m rest caps -> classes Q r ->
  Forall Q m /\ Forall (Forall Q) caps.
Proof.
  induction 1; simpl; intros C; auto.
  - destruct C as [C1 C2].
    destruct (IHmatches1 C1), (IHmatches2 C2).
    split; apply Forall_app; auto.
  - destruct C as [C1 C2]. auto.
  - destruct C as [C1 C2]. auto.
  - split; auto. eapply Forall_impl; [|exact H]. auto.
  - destruct (IHmatches C). split; auto. apply Forall_app. auto.
Qed.

Lemma exec_classes (Q : ascii -> Prop) r before m rest caps :
  classes Q r -> exec r before (m ++ rest) = Some (m, caps) ->
  Forall Q m /\ Forall (Forall Q) caps.
Proof. intros C E. apply exec_matches in E. eapply matches_classes; eauto. Qed.

Section ReplaceBlocks.

Variable r : regex.
Variable f : jstring -> list jstring -> jstring.

Hypothesis nonempty_hits :
  forall before after caps, exec r before after <> Some ([], caps).

Hypothesis block_hits :
  forall before m rest caps,
    exec r before (m ++ rest) = Some (m, caps) ->
    Forall nonword m /\ f m caps <> [] /\ Forall nonword (f m caps).

Lemma Scan_tokens_block before after segs :
  Scan r before after segs ->
  forall cur,
    tokens_from cur (concat (map (render f) segs)) = tokens_from cur after.
Proof.
  induction 1 as [before E|before m caps E|before c rest segs E S IH
                 |before c rest caps segs E S IH|before m rest caps segs Hm E S IH];
    intros cur.
  - reflexivity.
  - destruct m; [now apply nonempty_hits in E|].
    apply exec_sound in E. destruct E as (rest & E & _). discriminate.
  - simpl. now rewrite !IH.
  - now apply nonempty_hits in E.
  - destruct (block_hits _ _ _ _ E) as (Fm & Hu & Fu).
    cbn [map concat render].
    rewrite !tokens_from_block by auto. f_equal. apply IH.
Qed.

Lemma replace_blocks_tokens s : tokens (replace_all r f s) = tokens s.
Proof. apply (Scan_tokens_block _ _ _ (scan_Scan r s)). Qed.

End ReplaceBlocks.

Section ReplaceCase.

Variable r : regex.
Variable f : jstring -> list jstring -> jstring.

Hypothesis same_lower :
  forall before m rest caps,
    exec r before (m ++ rest) = Some (m, caps) ->
    map toLower (f m caps) = map toLower m.

Lemma Scan_same_lower before after segs :
  Scan r before after segs ->
  map toLower (concat (map (render f) segs)) = map toLower after.
Proof.
  induction 1 as [before E|before m caps E|before c rest segs E S IH
                 |before c rest caps segs E S IH|before m rest caps segs Hm E S IH].
  - reflexivity.
  - destruct (exec_sound _ _ _ _ _ E) as (rest & Er & _).
    symmetry in Er. apply app_eq_nil in Er. destruct Er as [-> ->].
    simpl. rewrite app_nil_r. apply (same_lower before [] [] caps E).
  - simpl. now rewrite IH.
  - cbn [map concat render]. rewrite map_app.
    rewrite (same_lower before [] (c :: rest) caps E). simpl. now rewrite IH.
  - cbn [map concat render]. rewrite !map_app, IH.
    now rewrite (same_lower _ _ _ _ E).
Qed.

Lemma replace_case_tokens s : tokens (replace_all r f s) = tokens s.
Proof.
  apply tokens_same_lower. apply (Scan_same_lower _ _ _ (scan_Scan r s)).
Qed.

End ReplaceCase.

Lemma space_nonword c : is_space c = true -> nonword c.
Proof. apply space_not_word. Qed.

Lemma punct_nonword c : punct c = true -> nonword c.
Proof. apply punct_not_word. Qed.

Lemma eqb_nonword (d : ascii) :
  is_word d = false -> forall c, Ascii.eqb d c = true -> nonword c.
Proof. intros Hd c E. apply Ascii.eqb_eq in E. now subst. Qed.

Ltac classes_nonword :=
  cbn [seq]; unfold PlusC, chr; cbn [classes]; repeat split;
  first [ exact space_nonword | exact punct_nonword
        | apply eqb_nonword; reflexivity ].

Lemma lit_nonword (s : string) :
  forallb (fun c => negb (is_word c)) (lit s) = true -> Forall nonword (lit s).
Proof.
  intros H. apply Forall_forall. intros c I.
  rewrite forallb_forall in H. apply H in I.
  unfold nonword. now destruct (is_word c).
Qed.

Lemma collapse_tokens s :
  tokens (replace_all (PlusC is_space) (fun _ _ => lit " ") s) = tokens s.
Proof.
  apply replace_blocks_tokens.
  - now apply exec_nonempty.
  - intros before m rest caps E.
    apply (exec_classes nonword) in E; [|split; exact space_nonword].
    split; [tauto|]. split; [discriminate|]. now apply lit_nonword.
Qed.

Lemma unspace_before_tokens s :
  tokens (replace_all (seq [PlusC is_space; Group (Cls punct)]) (expand [G 1]) s)
  = tokens s.
Proof.
  apply replace_blocks_tokens.
  - now apply exec_nonempty.
  - intros before m rest caps E.
    pose proof E as Fm. apply (exec_classes nonword) in Fm;
      [|classes_nonword].
    destruct Fm as [Fm _]. split; auto. apply exec_matches in E.
    cbn [seq] in E. unfold PlusC in E. inv_matches. cbn.
    split; [discriminate|]. constructor; auto. now apply punct_nonword.
Qed.

Lemma space_after_tokens s :
  tokens (replace_all (seq [Group (Cls punct); StarC is_space])
                      (expand [G 1; T " "]) s) = tokens s.
Proof.
  apply replace_blocks_tokens.
  - now apply exec_nonempty.
  - intros before m rest caps E.
    pose proof E as Fm. apply (exec_classes nonword) in Fm;
      [|classes_nonword].
    destruct Fm as [Fm _]. split; auto. apply exec_matches in E. cbn [seq] in E. inv_matches. cbn.
    split; [discriminate|].
    repeat constructor; auto. now apply punct_nonword.
Qed.

Lemma squeeze_tokens (d : ascii) s :
  is_word d = false ->
  tokens (replace_all (PlusC (Ascii.eqb d)) (fun _ _ => [d]) s) = tokens s.
Proof.
  intros Hd. apply replace_blocks_tokens.
  - now apply exec_nonempty.
  - intros before m rest caps E.
    apply (exec_classes nonword) in E; [|split; exact (eqb_nonword d Hd)].
    split; [tauto|]. split; [discriminate|]. now repeat constructor.
Qed.

Lemma capitalize_after_tokens s :
  tokens (replace_all
            (seq [Group (seq [Cls (one_of ".!?"); PlusC is_space]);
                  Group (Cls is_word)])
            (fun _ caps => nth 0 caps [] ++ toUpperCase (nth 1 caps [])) s)
  = tokens s.
Proof.
  apply replace_case_tokens.
  intros before m rest caps E. apply exec_matches in E.
  cbn [seq] in E. unfold PlusC in E. inv_matches.
  cbn [app nth toUpperCase map]. rewrite !map_app.
  simpl. now rewrite toLower_toUpper.
Qed.

Lemma dash_tokens s :
  tokens (replace_all (seq [PlusC is_space; chr "-"; PlusC is_space])
                      (fun _ _ => lit " - ") s) = tokens s.
Proof.
  apply replace_blocks_tokens.
  - now apply exec_nonempty.
  - intros before m rest caps E.
    apply (exec_classes nonword) in E.
    + split; [tauto|]. split; [discriminate|]. now apply lit_nonword.
    + classes_nonword.
Qed.

Lemma unspace_comma_tokens (d : ascii) s :
  is_word d = false ->
  tokens (replace_all (seq [PlusC is_space; chr d]) (fun _ _ => [d]) s)
  = tokens s.
Proof.
  intros Hd. apply replace_blocks_tokens.
  - now apply exec_nonempty.
  - intros before m rest caps E.
    apply (exec_classes nonword) in E.
    + split; [tauto|]. split; [discriminate|]. now repeat constructor.
    + cbn [seq]; unfold PlusC, chr; cbn [classes]; repeat split;
        first [exact space_nonword | exact (eqb_nonword d Hd)].
Qed.

Lemma capitalize_lower s : map toLower (capitalize s) = map toLower s.
Proof. destruct s as [|c s]; simpl; auto. now rewrite toLower_toUpper. Qed.

Lemma uncapitalize_lower s : map toLower (uncapitalize s) = map toLower s.
Proof. destruct s as [|c s]; simpl; auto. now rewrite toLower_idem. Qed.

Lemma trimStart_tokens s : tokens (trimStart s) = tokens s.
Proof.
  induction s as [|c s IH]; simpl; auto.
  destruct (is_space c) eqn:Sc; auto.
  rewrite IH. unfold tokens. simpl. now rewrite (space_not_word _ Sc).
Qed.

Lemma trimStart_blank s :
  exists w, s = w ++ trimStart s /\ Forall (fun c => is_space c = true) w.
Proof.
  induction s as [|c s (w & E & F)]; simpl.
  - now exists [].
  - destruct (is_space c) eqn:Sc.
    + exists (c :: w). simpl. split; [congruence|]. now constructor.
    + now exists [].
Qed.

Lemma trimEnd_tokens s : tokens (trimEnd s) = tokens s.
Proof.
  unfold trimEnd. destruct (trimStart_blank (rev s)) as (w & E & F).
  apply (f_equal (@rev ascii)) in E.
  rewrite rev_involutive, rev_app_distr in E. rewrite E at 2.
  assert (Fw : Forall nonword (rev w)).
  { apply Forall_rev. eapply Forall_impl; [|exact F]. apply space_nonword. }
  unfold tokens at 2. rewrite tokens_from_app_sep.
  - now rewrite (tokens_blank _ Fw), app_nil_r.
  - destruct (rev w); auto. now inversion Fw.
Qed.

Lemma trim_tokens s : tokens (trim s) = tokens s.
Proof. unfold trim. now rewrite trimEnd_tokens, trimStart_tokens. Qed.

Lemma finalPolish_tokens text : tokens (finalPolish text) = tokens text.
Proof.
  unfold finalPolish.
  rewrite trim_tokens.
  rewrite (unspace_comma_tokens ".") by reflexivity.
  rewrite (unspace_comma_tokens ",") by reflexivity.
  rewrite dash_tokens.
  rewrite (tokens_same_lower _ _ (capitalize_lower _)).
  rewrite capitalize_after_tokens.
  rewrite (squeeze_tokens "!") by reflexivity.
  rewrite (squeeze_tokens "?") by reflexivity.
  rewrite (squeeze_tokens ".") by reflexivity.
  rewrite space_after_tokens, unspace_before_tokens.
  apply collapse_tokens.
Qed.

(* ================================================================== *)
(** * Patterns that match whole words *)
(* ================================================================== *)

Lemma word_after_app m x :
  m <> [] -> Forall (fun c => is_word c = true) m -> word_after (m ++ x) = true.
Proof. intros Hm F. destruct m; [congruence|]. now inversion F. Qed.

Lemma word_before_rev m x :
  m <> [] -> Forall (fun c => is_word c = true) m ->
  word_before (rev m ++ x) = true.
Proof.
  intros Hm F. apply Forall_rev in F.
  destruct (rev m) eqn:E.
  - apply (f_equal (@rev ascii)) in E. rewrite rev_involutive in E.
    simpl in E. congruence.
  - now inversion F.
Qed.

Lemma run_Forall (P : ascii -> bool) s : Forall (fun c => P c = true) (run P s).
Proof.
  induction s as [|c s IH]; simpl; auto.
  destruct (P c) eqn:Pc; auto.
Qed.

Section WholeWords.

Variable r : regex.
Variables K Q : jstring -> Prop.

Hypothesis hit_shape :
  forall before m rest caps,
    exec r before (m ++ rest) = Some (m, caps) ->
    m <> [] /\ Forall (fun c => is_word c = true) m /\
    word_before before = false /\ word_after rest = false.

Hypothesis kept :
  forall before after,
    word_before before = false -> exec r before after = None ->
    K (map toLower (run is_word after)).

Lemma whole_nonempty before after caps : exec r before after <> Some ([], caps).
Proof.
  intros E. destruct (hit_shape before [] after caps E) as (H & _). congruence.
Qed.

Lemma whole_no_end_hit before m caps : exec r before [] <> Some (m, caps).
Proof.
  intros E. destruct (exec_sound _ _ _ _ _ E) as (rest & Er & _).
  symmetry in Er. apply app_eq_nil in Er. destruct Er as [-> ->].
  now apply whole_nonempty in E.
Qed.

Lemma Scan_word_after before rest segs parts :
  Scan r before rest segs -> word_after rest = false ->
  Forall2 (rendered Q) segs parts -> word_after (concat parts) = false.
Proof.
  intros S W F.
  destruct S as [before E|before m caps E|before c rest segs E S
                |before c rest caps segs E S|before m rest caps segs Hm E S].
  - inversion F; subst. reflexivity.
  - now apply whole_no_end_hit in E.
  - inversion F as [|g p segs' parts' Hp F']; subst. simpl in Hp. subst p.
    exact W.
  - now apply whole_nonempty in E.
  - destruct (hit_shape _ _ _ _ E) as (_ & Fm & _).
    rewrite word_after_app in W; auto. discriminate.
Qed.

Lemma Scan_whole before after segs :
  Scan r before after segs ->
  forall parts cur,
    Forall2 (rendered Q) segs parts ->
    (cur <> [] -> word_before before = true) ->
    (cur = [] -> word_before before = true -> word_after after = false) ->
    (cur <> [] -> K (rev cur ++ map toLower (run is_word after))) ->
    forall t, In t (tokens_from cur (concat parts)) ->
              (In t (tokens_from cur after) /\ K t) \/ Q t.
Proof.
  induction 1 as [before E|before m caps E|before c rest segs E S IH
                 |before c rest caps segs E S IH|before m rest caps segs Hm E S IH];
    intros parts cur F C1 C2 C3 t I.
  - inversion F; subst. simpl in *. left. split; auto.
    destruct cur; [destruct I|]. destruct I as [<-|[]].
    rewrite <- (app_nil_r (rev _)). apply C3. discriminate.
  - now apply whole_no_end_hit in E.
  - inversion F as [|g p segs' parts' Hp F']; subst. simpl in Hp. subst p.
    cbn [concat app] in I. simpl in I. simpl tokens_from.
    destruct (is_word c) eqn:Wc.
    + apply (IH parts' (toLower c :: cur)); auto.
      * discriminate.
      * intros _. simpl. rewrite <- app_assoc. simpl.
        destruct cur as [|d cur].
        -- simpl. specialize (kept before (c :: rest)).
           simpl in kept. rewrite Wc in kept. apply kept; auto.
           destruct (word_before before) eqn:Wb; auto.
           specialize (C2 eq_refl eq_refl). simpl in C2. congruence.
        -- specialize (C3 ltac:(discriminate)). simpl in C3.
           rewrite Wc in C3. simpl in C3. exact C3.
    + apply in_app_or in I. destruct I as [I|I].
      * left. split; [apply in_or_app; now left|].
        destruct cur; [destruct I|]. destruct I as [<-|[]].
        specialize (C3 ltac:(discriminate)). simpl in C3.
        rewrite Wc in C3. simpl in C3. now rewrite app_nil_r in C3.
      * destruct (IH parts' [] F') with (t := t) as [[I' Kt]|Qt]; auto;
          try congruence.
        -- simpl. intros _ B. congruence.
        -- left. split; auto. apply in_or_app. now right.
  - now apply whole_nonempty in E.
  - destruct (hit_shape _ _ _ _ E) as (_ & Fm & Wb & Wa).
    destruct cur as [|d cur];
      [|specialize (C1 ltac:(discriminate)); congruence].
    inversion F as [|g p segs' parts' Hp F']; subst. simpl in Hp.
    cbn [concat] in I.
    rewrite tokens_from_app_sep in I
      by (eapply Scan_word_after; eauto).
    apply in_app_or in I. destruct I as [I|I]; [right; auto|].
    destruct (IH parts' [] F') with (t := t) as [[I' Kt]|Qt]; auto;
      try congruence.
    left. split; auto. rewrite tokens_from_app_sep by auto.
    apply in_or_app. now right.
Qed.

(** Every match is a word of the text. *)
Lemma Scan_hit_token before after segs :
  Scan r before after segs ->
  forall cur, (cur <> [] -> word_before before = true) ->
  forall m caps, In (Hit m caps) segs ->
                 In (map toLower m) (tokens_from cur after).
Proof.
  induction 1 as [before E|before m0 caps0 E|before c rest segs E S IH
                 |before c rest caps0 segs E S IH|before m0 rest caps0 segs Hm E S IH];
    intros cur C1 m caps I.
  - destruct I.
  - now apply whole_no_end_hit in E.
  - destruct I as [I|I]; [discriminate|]. simpl.
    destruct (is_word c) eqn:Wc.
    + apply (IH (toLower c :: cur)) with (caps := caps); auto.
    + apply in_or_app. right.
      apply (IH []) with (caps := caps); auto; congruence.
  - now apply whole_nonempty in E.
  - destruct (hit_shape _ _ _ _ E) as (_ & Fm & Wb & Wa).
    destruct cur as [|d cur];
      [|specialize (C1 ltac:(discriminate)); congruence].
    rewrite tokens_from_app_sep by auto. apply in_or_app.
    destruct I as [I|I].
    + inversion I; subst. left.
      change (tokens_from [] m) with (tokens m).
      rewrite tokens_word by auto. now left.
    + right. apply (IH []) with (caps := caps); auto; congruence.
Qed.

Section Replace.

Variable f : jstring -> list jstring -> jstring.

Hypothesis new_words :
  forall before m rest caps,
    exec r before (m ++ rest) = Some (m, caps) ->
    forall t, In t (tokens (f m caps)) -> Q t.

Lemma Scan_rendered before after segs :
  Scan r before after segs ->
  Forall2 (rendered Q) segs (map (render f) segs).
Proof.
  induction 1 as [before E|before m caps E|before c rest segs E S IH
                 |before c rest caps segs E S IH|before m rest caps segs Hm E S IH];
    simpl.
  - constructor.
  - now apply whole_no_end_hit in E.
  - constructor; [reflexivity|exact IH].
  - now apply whole_nonempty in E.
  - constructor; [|exact IH]. simpl. eapply new_words; eauto.
Qed.

Lemma replace_whole_words s t :
  In t (tokens (replace_all r f s)) -> (In t (tokens s) /\ K t) \/ Q t.
Proof.
  unfold replace_all, tokens. intros I.
  eapply (Scan_whole _ _ _ (scan_Scan r s)); eauto.
  - apply (Scan_rendered _ _ _ (scan_Scan r s)).
  - intros _ H. discriminate H.
  - intros H. now elim H.
Qed.

End Replace.

End WholeWords.

(* ================================================================== *)
(** * Literal words under the [i] flag *)
(* ================================================================== *)

Lemma matches_chr_i c before m rest caps :
  matches (chr_i c) before m rest caps ->
  exists x, m = [x] /\ toLower x = toLower c /\ caps = [].
Proof.
  unfold chr_i. intros M. inversion M; subst.
  match goal with H : Ascii.eqb _ _ = true |- _ => apply Ascii.eqb_eq in H end.
  eauto.
Qed.

Lemma matches_seq_chr_i ws : forall before m rest caps,
  matches (seq (map chr_i ws)) before m rest caps ->
  map toLower m = map toLower ws /\ caps = [].
Proof.
  induction ws as [|c ws IH]; intros before m rest caps M.
  - inversion M; subst. auto.
  - destruct ws as [|c' ws'].
    + apply matches_chr_i in M. destruct M as (x & -> & E & ->).
      simpl. now rewrite E.
    + change (seq (map chr_i (c :: c' :: ws')))
        with (Seq (chr_i c) (seq (map chr_i (c' :: ws')))) in M.
      inversion M as [| |r1 r2 b m1 m2 rs c1 c2 M1 M2| | | | | | |]; subst.
      apply matches_chr_i in M1. destruct M1 as (x & -> & E & ->).
      apply IH in M2. destruct M2 as (E' & ->).
      simpl in *. now rewrite E, E'.
Qed.

Lemma seq_chr_i_matches ws : forall m before rest,
  map toLower m = map toLower ws ->
  matches (seq (map chr_i ws)) before m rest [].
Proof.
  induction ws as [|c ws IH]; intros [|x m] before rest E; try discriminate.
  - constructor.
  - simpl in E. inversion E as [[Ex Em]].
    assert (Mx : forall b r', matches (chr_i c) b [x] r' []).
    { intros b r'. unfold chr_i. constructor. now apply Ascii.eqb_eq. }
    destruct ws as [|c' ws'].
    + destruct m; [|discriminate]. apply Mx.
    + change (seq (map chr_i (c :: c' :: ws')))
        with (Seq (chr_i c) (seq (map chr_i (c' :: ws')))).
      apply (M_seq (chr_i c) _ before [x] m rest [] []); auto.
Qed.

Lemma same_lower_word m w :
  map toLower m = map toLower w ->
  Forall (fun c => is_word c = true) w ->
  Forall (fun c => is_word c = true) m.
Proof.
  revert w. induction m as [|x m IH]; intros [|c w] E F; try discriminate; auto.
  simpl in E. inversion E as [[Ex Em]]. inversion F; subst.
  constructor; eauto. now rewrite (is_word_same_lower _ _ Ex).
Qed.

Lemma same_lower_nonempty (m w : jstring) :
  map toLower m = map toLower w -> w <> [] -> m <> [].
Proof. intros E Hw ->. destruct w; [congruence|discriminate]. Qed.

(** A pattern between two [\b] that matches runs of [\w] characters only
    matches whole words. *)
Lemma bounded_shape R before m rest caps :
  (forall b m' rest' c',
      matches R b m' rest' c' ->
      m' <> [] /\ Forall (fun c => is_word c = true) m') ->
  exec (seq [WordB; R; WordB]) before (m ++ rest) = Some (m, caps) ->
  m <> [] /\ Forall (fun c => is_word c = true) m /\
  word_before before = false /\ word_after rest = false /\
  matches R before m rest caps.
Proof.
  intros HR E. apply exec_matches in E. cbn [seq] in E.
  inversion E as [| |r1 r2 b m1 m2 rs c1 c2 M1 M2| | | | | | |]; subst.
  inversion M1; subst.
  inversion M2 as [| |r1 r2 b m3 m4 rs c3 c4 M3 M4| | | | | | |]; subst.
  inversion M4; subst.
  simpl in *. rewrite !app_nil_r in *.
  destruct (HR _ _ _ _ M3) as (Hm & Fm).
  rewrite word_after_app in * by auto.
  rewrite word_before_rev in * by auto.
  repeat split; auto.
  - now destruct (word_before before).
  - now destruct (word_after rest).
Qed.

Lemma bounded_matches R before m rest caps :
  m <> [] -> Forall (fun c => is_word c = true) m ->
  word_before before = false -> word_after rest = false ->
  matches R before m rest caps ->
  matches (seq [WordB; R; WordB]) before m rest caps.
Proof.
  intros Hm Fm Wb Wa M. cbn [seq].
  assert (M2 : matches (Seq R WordB) before (m ++ []) rest (caps ++ [])).
  { apply M_seq; [exact M|]. constructor.
    now rewrite word_before_rev, Wa by auto. }
  rewrite !app_nil_r in M2.
  apply (M_seq WordB _ before [] m rest [] caps); auto.
  constructor. now rewrite word_after_app, Wb by auto.
Qed.

Section WordPattern.

Variable w : string.
Hypothesis w_nonempty : lit w <> [].
Hypothesis w_word : Forall (fun c => is_word c = true) (lit w).

Lemma str_i_word b m rest c :
  matches (str_i w) b m rest c ->
  m <> [] /\ Forall (fun c => is_word c = true) m.
Proof.
  intros M. apply matches_seq_chr_i in M. destruct M as (E & _).
  split; [eapply same_lower_nonempty|eapply same_lower_word]; eauto.
Qed.

Lemma word_re_i_shape before m rest caps :
  exec (word_re_i w) before (m ++ rest) = Some (m, caps) ->
  m <> [] /\ Forall (fun c => is_word c = true) m /\
  word_before before = false /\ word_after rest = false.
Proof.
  intros E. apply (bounded_shape (str_i w)) in E; [tauto|].
  apply str_i_word.
Qed.

Lemma word_re_i_lower before m rest caps :
  exec (word_re_i w) before (m ++ rest) = Some (m, caps) ->
  map toLower m = map toLower (lit w).
Proof.
  intros E. apply (bounded_shape (str_i w)) in E; [|apply str_i_word].
  destruct E as (_ & _ & _ & _ & M).
  now apply matches_seq_chr_i in M.
Qed.

Lemma word_re_i_kept before after :
  word_before before = false -> exec (word_re_i w) before after = None ->
  map toLower (run is_word after) <> map toLower (lit w).
Proof.
  intros Wb E L. revert E.
  rewrite <- (run_app_after_run is_word after).
  apply (matches_exec _ _ _ _ []).
  apply bounded_matches; auto.
  - eapply same_lower_nonempty; eauto.
  - apply run_Forall.
  - pose proof (after_run_hd is_word after) as H.
    destruct (after_run is_word after); auto.
  - now apply seq_chr_i_matches.
Qed.

(** Replacing the whole-word matches of [w] removes the word [w] and adds
    the words of the replacement. *)
Lemma replace_word_tokens (repl : string) s t :
  In t (tokens (replace_all (word_re_i w) (fun _ _ => lit repl) s)) ->
  (In t (tokens s) /\ t <> map toLower (lit w)) \/ In t (tokens (lit repl)).
Proof.
  apply (replace_whole_words (word_re_i w)
           (fun t => t <> map toLower (lit w))
           (fun t => In t (tokens (lit repl)))).
  - apply word_re_i_shape.
  - apply word_re_i_kept.
  - auto.
Qed.

(** A whole-word match of [w] is a word of the text. *)
Lemma test_word_token s :
  test (word_re_i w) s = true -> In (map toLower (lit w)) (tokens s).
Proof.
  unfold test. destruct (hits (scan (word_re_i w) s)) as [|m ms] eqn:H;
    [discriminate|]. intros _.
  assert (I : In m (hits (scan (word_re_i w) s))) by (rewrite H; now left).
  apply hits_In in I. destruct I as (caps & I).
  pose proof (scan_Scan (word_re_i w) s) as S.
  destruct (Scan_hit_exec _ _ _ _ _ _ S I) as (b & rest & E).
  rewrite <- (word_re_i_lower _ _ _ _ E).
  apply (Scan_hit_token _ word_re_i_shape _ _ _ S []) with (caps := caps);
    auto; congruence.
Qed.

End WordPattern.

(* ================================================================== *)
(** * [makeProfessional] *)
(* ================================================================== *)

Ltac word_side_conditions :=
  first [ discriminate | repeat constructor ].

Lemma makeProfessional_formal text st : formal_only (makeProfessional text st).
Proof.
  unfold formal_only, makeProfessional. intros t I F.
  apply replace_word_tokens in I; [|word_side_conditions..].
  destruct I as [[I N5]|I];
    [|vm_compute in I, F; intuition (subst; discriminate)].
  apply replace_word_tokens in I; [|word_side_conditions..].
  destruct I as [[I N4]|I];
    [|vm_compute in I, F; intuition (subst; discriminate)].
  apply replace_word_tokens in I; [|word_side_conditions..].
  destruct I as [[I N3]|I];
    [|vm_compute in I, F; intuition (subst; discriminate)].
  apply replace_word_tokens in I; [|word_side_conditions..].
  destruct I as [[I N2]|I];
    [|vm_compute in I, F; intuition (subst; discriminate)].
  apply replace_word_tokens in I; [|word_side_conditions..].
  destruct I as [[I N1]|I];
    [|vm_compute in I, F; intuition (subst; discriminate)].
  vm_compute in F, N1, N2, N3, N4, N5. intuition congruence.
Qed.

(* ================================================================== *)
(** * [addNaturalFlow] *)
(* ================================================================== *)

Lemma matches_alt rs : forall before m rest caps,
  matches (alt rs) before m rest caps ->
  exists r, In r rs /\ matches r before m rest caps.
Proof.
  induction rs as [|r rs IH]; intros before m rest caps M.
  - inversion M; subst. discriminate.
  - destruct rs as [|r' rs'].
    + exists r. split; [now left|exact M].
    + change (alt (r :: r' :: rs')) with (Alt r (alt (r' :: rs'))) in M.
      inversion M as [| | |r1 r2 b m0 rs0 c0 M0|r1 r2 b m0 rs0 c0 M0| | | | |];
        subst.
      * exists r. split; [now left|auto].
      * apply IH in M0. destruct M0 as (r0 & I & M0).
        exists r0. split; [now right|auto].
Qed.

Lemma flow_verb_shape b m rest c :
  matches (Group (alt (map str_i flow_verbs))) b m rest c ->
  (m <> [] /\ Forall (fun c => is_word c = true) m) /\
  In (map toLower m) (map lit flow_verbs).
Proof.
  intros M.
  inversion M as [| | | | | |r1 b0 m0 rs0 c0 M0| | |]; subst.
  change (matches (alt (map str_i flow_verbs)) b m rest c0) in M0.
  apply matches_alt in M0. destruct M0 as (r & I & M0).
  apply in_map_iff in I. destruct I as (w & <- & I).
  apply matches_seq_chr_i in M0. destruct M0 as (E & _).
  assert (W : lit w <> [] /\ Forall (fun c => is_word c = true) (lit w) /\
              map toLower (lit w) = lit w).
  { simpl in I.
    repeat (destruct I as [<-|I];
            [split; [discriminate|split; [repeat constructor|reflexivity]]|]).
    destruct I. }
  destruct W as (W1 & W2 & W3). split; [split|].
  - eapply same_lower_nonempty; eauto.
  - eapply same_lower_word; eauto.
  - rewrite E, W3. now apply in_map.
Qed.

Lemma flow_re_shape before m rest caps :
  exec flow_re before (m ++ rest) = Some (m, caps) ->
  m <> [] /\ Forall (fun c => is_word c = true) m /\
  word_before before = false /\ word_after rest = false.
Proof.
  intros E. unfold flow_re in E.
  apply bounded_shape in E; [tauto|]. intros. now apply flow_verb_shape in H.
Qed.

Lemma flow_re_verb before m rest caps :
  exec flow_re before (m ++ rest) = Some (m, caps) ->
  In (map toLower m) (map lit flow_verbs).
Proof.
  intros E. unfold flow_re in E.
  apply bounded_shape in E; [|intros; now apply flow_verb_shape in H].
  destruct E as (_ & _ & _ & _ & M). now apply flow_verb_shape in M.
Qed.

Lemma mapM_cons_inv (A B : Type) (f : A -> M B) x xs g parts g' :
  mapM f (x :: xs) g = Some (parts, g') ->
  exists p ps g1,
    f x g = Some (p, g1) /\ mapM f xs g1 = Some (ps, g') /\ parts = p :: ps.
Proof.
  simpl. unfold bind, ret.
  destruct (f x g) as [[p g1]|] eqn:Hp; [|discriminate].
  destruct (mapM f xs g1) as [[ps g2]|] eqn:Hps; [|discriminate].
  intros E. inversion E; subst. now exists p, ps, g1.
Qed.

Lemma pick_result xs g w g' :
  pick xs g = Some (w, g') -> In w xs \/ w = [].
Proof.
  unfold pick, random_index, bind, random, ret. intros E. inversion E.
  match goal with |- In (nth ?n ?l ?d) _ \/ _ =>
    destruct (nth_in_or_default n l d); auto end.
Qed.

Lemma flow_segment_hit words q m caps g p g' :
  flow_segment words q (Hit m caps) g = Some (p, g') ->
  p = m \/ exists w, (In w words \/ w = []) /\ p = w ++ lit " " ++ m.
Proof.
  unfold flow_segment, bind. unfold random at 1.
  destruct (Qltb _ q).
  - destruct (pick words _) as [[w g1]|] eqn:P; [|discriminate].
    unfold ret. intros E. inversion E; subst. right. exists w. split; auto.
    eapply pick_result; eauto.
  - unfold ret. intros E. inversion E. now left.
Qed.

Lemma emphasis_tokens w t :
  In w (emphasisWords professional) \/ w = [] ->
  In t (tokens w) -> flow_words t.
Proof.
  intros [I | ->] H; [|destruct H].
  unfold flow_words. apply in_or_app. right.
  apply in_concat. exists (tokens w). split; auto. now apply in_map.
Qed.

Lemma flow_rendered q before after segs :
  Scan flow_re before after segs ->
  forall g parts g',
    mapM (flow_segment (emphasisWords professional) q) segs g = Some (parts, g') ->
    Forall2 (rendered flow_words) segs parts.
Proof.
  induction 1 as [before E|before m caps E|before c rest segs E S IH
                 |before c rest caps segs E S IH|before m rest caps segs Hm E S IH];
    intros g parts g' H.
  - inversion H. constructor.
  - now apply (whole_no_end_hit _ flow_re_shape) in E.
  - apply mapM_cons_inv in H. destruct H as (p & ps & g1 & Hp & Hps & ->).
    inversion Hp; subst. constructor; [reflexivity|eauto].
  - now apply (whole_nonempty _ flow_re_shape) in E.
  - apply mapM_cons_inv in H. destruct H as (p & ps & g1 & Hp & Hps & ->).
    constructor; [|eauto]. simpl. intros t I.
    destruct (flow_re_shape _ _ _ _ E) as (_ & Fm & _).
    assert (Tm : forall t, In t (tokens m) -> flow_words t).
    { intros t' I'. rewrite tokens_word in I' by auto.
      destruct I' as [<-|[]]. apply in_or_app. left.
      eapply flow_re_verb; eauto. }
    apply flow_segment_hit in Hp. destruct Hp as [->|(w & Hw & ->)]; auto.
    unfold tokens in I. rewrite tokens_from_app_sep in I by reflexivity.
    apply in_app_or in I. destruct I as [I|I].
    + eapply emphasis_tokens; eauto.
    + apply Tm. exact I.
Qed.

Lemma addNaturalFlow_words text st g out :
  result_of (addNaturalFlow text professional st g) = Some out ->
  forall t, In t (tokens out) -> In t (tokens text) \/ flow_words t.
Proof.
  unfold addNaturalFlow, bind, ret, result_of.
  destruct (mapM _ _ g) as [[parts g']|] eqn:H; [|discriminate].
  intros E t I. inversion E; subst.
  destruct (Scan_whole flow_re (fun _ => True) flow_words flow_re_shape
              (fun _ _ _ _ => Logic.I) _ _ _ (scan_Scan flow_re text) parts []
              (flow_rendered _ _ _ _ (scan_Scan flow_re text) _ _ _ H))
    with (t := t) as [[I' _]|Qt]; auto; try easy.
Qed.

(* ================================================================== *)
(** * Sentences and [injectPersonality] *)
(* ================================================================== *)

Lemma ends_with_terminator pre t tm :
  one_of ".!?" t = true -> Forall (fun c => one_of ".!?" c = true) tm ->
  exists a c, pre ++ t :: tm = a ++ [c] /\ one_of ".!?" c = true.
Proof.
  intros Ht Ftm.
  destruct (@exists_last _ (t :: tm)) as (a & c & E); [discriminate|].
  exists (pre ++ a), c. rewrite E, app_assoc. split; auto.
  assert (I : In c (t :: tm)) by (rewrite E; apply in_or_app; right; now left).
  destruct I as [<-|I]; auto.
  rewrite Forall_forall in Ftm. auto.
Qed.

Lemma sentence_re_shape before m rest caps :
  exec sentence_re before (m ++ rest) = Some (m, caps) ->
  exists a c, m = a ++ [c] /\ one_of ".!?" c = true.
Proof.
  intros E. apply exec_matches in E. unfold sentence_re in E.
  cbn [seq] in E. unfold PlusC in E. inv_matches.
  now apply ends_with_terminator.
Qed.

Lemma sentence_re_nonempty before after caps :
  exec sentence_re before after <> Some ([], caps).
Proof. now apply exec_nonempty. Qed.

(** Where no sentence starts at a character other than a terminator, no
    terminator follows. *)
Lemma sentence_re_none before c rest :
  exec sentence_re before (c :: rest) = None ->
  one_of ".!?" c = false ->
  Forall (fun c => one_of ".!?" c = false) (c :: rest).
Proof.
  intros E Hc.
  set (nonterm := fun c => negb (one_of ".!?" c)) in *.
  assert (Fr : Forall (fun c => one_of ".!?" c = false) (run nonterm rest)).
  { eapply Forall_impl; [|apply run_Forall]. unfold nonterm. intros a H.
    now destruct (one_of ".!?" a). }
  pose proof (run_app_after_run nonterm rest) as Es.
  pose proof (after_run_hd nonterm rest) as Ht.
  destruct (after_run nonterm rest) as [|t rest'].
  - rewrite app_nil_r in Es. rewrite <- Es. now constructor.
  - exfalso. revert E.
    replace (c :: rest)
      with ((([c] ++ run nonterm rest) ++ ([t] ++ [])) ++ rest')
      by (rewrite <- Es at 2; simpl; now rewrite <- app_assoc).
    apply (matches_exec _ _ _ _ (([] ++ []) ++ ([] ++ []))).
    unfold sentence_re. cbn [seq]. unfold PlusC.
    apply M_seq; apply M_seq.
    + constructor. unfold nonterm. now rewrite Hc.
    + constructor. apply run_Forall.
    + constructor. unfold nonterm in Ht. now destruct (one_of ".!?" t).
    + constructor. constructor.
Qed.

Lemma no_terminator_no_hit before after segs :
  Scan sentence_re before after segs ->
  Forall (fun c => one_of ".!?" c = false) after -> hits segs = [].
Proof.
  induction 1 as [before E|before m caps E|before c rest segs E S IH
                 |before c rest caps segs E S IH|before m rest caps segs Hm E S IH];
    intros F.
  - reflexivity.
  - destruct (exec_sound _ _ _ _ _ E) as (rest & Er & _).
    symmetry in Er. apply app_eq_nil in Er. destruct Er as [-> _].
    now apply sentence_re_nonempty in E.
  - simpl. apply IH. now inversion F.
  - now apply sentence_re_nonempty in E.
  - destruct (sentence_re_shape _ _ _ _ E) as (a & c & -> & Hc).
    rewrite Forall_forall in F.
    rewrite (F c) in Hc; [discriminate|].
    apply in_or_app. left. apply in_or_app. right. now left.
Qed.

(** The words of a sentence are words of the text. *)
Lemma Scan_sentence_tokens before after segs :
  Scan sentence_re before after segs ->
  forall h, In h (hits segs) ->
  forall t, In t (tokens h) -> In t (tokens after).
Proof.
  induction 1 as [before E|before m caps E|before c rest segs E S IH
                 |before c rest caps segs E S IH|before m rest caps segs Hm E S IH];
    intros h I t It.
  - destruct I.
  - destruct (exec_sound _ _ _ _ _ E) as (rest & Er & _).
    symmetry in Er. apply app_eq_nil in Er. destruct Er as [-> _].
    now apply sentence_re_nonempty in E.
  - simpl in I. destruct (one_of ".!?" c) eqn:Hc.
    + unfold tokens. simpl. rewrite (terminator_not_word _ Hc). simpl.
      eapply IH; eauto.
    + pose proof (sentence_re_none _ _ _ E Hc) as F. inversion F; subst.
      rewrite (no_terminator_no_hit _ _ _ S) in I by auto. destruct I.
  - now apply sentence_re_nonempty in E.
  - destruct (sentence_re_shape _ _ _ _ E) as (a & c & -> & Hc).
    unfold tokens.
    rewrite tokens_from_app_end by (now apply terminator_not_word).
    apply in_or_app. destruct I as [<-|I]; [now left|right].
    eapply IH; eauto.
Qed.

Lemma match_sentences_tokens text h t :
  In h (match_sentences text) -> In t (tokens h) -> In t (tokens text).
Proof.
  unfold match_sentences, match_all.
  destruct (hits (scan sentence_re text)) as [|m ms] eqn:H.
  - intros [<-|[]]. auto.
  - rewrite <- H. intros I It.
    eapply (Scan_sentence_tokens _ _ _ (scan_Scan sentence_re text)); eauto.
Qed.

Lemma tokens_join hs : forall t,
  In t (tokens (join (lit " ") hs)) -> exists h, In h hs /\ In t (tokens h).
Proof.
  induction hs as [|p hs IH]; intros t I.
  - simpl in I. destruct I.
  - destruct hs as [|q hs].
    + exists p. split; [now left|exact I].
    + change (join (lit " ") (p :: q :: hs))
        with (p ++ lit " " ++ join (lit " ") (q :: hs)) in I.
      unfold tokens in I. rewrite tokens_from_app_sep in I by reflexivity.
      apply in_app_or in I. destruct I as [I|I].
      * exists p. split; [now left|exact I].
      * destruct (IH t I) as (h & Hh & Ht). exists h. split; [now right|auto].
Qed.

Lemma In_update_at f xs : forall i h,
  In h (update_at i f xs) -> In h xs \/ exists x, In x xs /\ h = f x.
Proof.
  induction xs as [|x xs IH]; intros i h I.
  - destruct i; destruct I.
  - destruct i as [|i]; simpl in I.
    + destruct I as [<-|I]; [right; exists x; split; [now left|auto]|].
      left. now right.
    + destruct I as [<-|I]; [left; now left|].
      destruct (IH _ _ I) as [H|(y & Hy & ->)].
      * left. now right.
      * right. exists y. split; [now right|auto].
Qed.

Lemma touch_tokens touch s t :
  In touch (personalTouches professional) \/ touch = [] ->
  In t (tokens (touch ++ lit " - " ++ uncapitalize s)) ->
  In t (tokens s) \/ touch_words t.
Proof.
  intros Ht I. unfold tokens in I.
  rewrite tokens_from_app_sep in I by reflexivity.
  apply in_app_or in I. destruct I as [I|I].
  - right. destruct Ht as [Ht | ->]; [|destruct I].
    unfold touch_words. apply in_concat. exists (tokens touch).
    split; auto. now apply in_map.
  - left.
    change (tokens (lit " - " ++ uncapitalize s)) with (tokens (uncapitalize s)) in I.
    now rewrite (tokens_same_lower _ _ (uncapitalize_lower s)) in I.
Qed.

Lemma bind_result (A B : Type) (c : M A) (k : A -> M B) g b :
  result_of (bind c k g) = Some b ->
  exists a g1, c g = Some (a, g1) /\ result_of (k a g1) = Some b.
Proof.
  unfold bind. destruct (c g) as [[a g1]|]; [|discriminate]. eauto.
Qed.

Lemma ret_result (A : Type) (a b : A) g :
  result_of (ret a g) = Some b -> a = b.
Proof. unfold ret, result_of. intros E. now injection E. Qed.

Lemma injectPersonality_words text g out :
  result_of (injectPersonality text professional g) = Some out ->
  forall t, In t (tokens out) -> In t (tokens text) \/ touch_words t.
Proof.
  assert (J : forall t, In t (tokens (join (lit " ") (match_sentences text))) ->
                        In t (tokens text) \/ touch_words t).
  { intros t I. apply tokens_join in I. destruct I as (h & Hh & Ht).
    left. eapply match_sentences_tokens; eauto. }
  unfold injectPersonality.
  destruct (2 <? length (match_sentences text));
    [|intros H; apply ret_result in H; now subst].
  intros H. apply bind_result in H. destruct H as (r & g1 & _ & H).
  destruct (Qltb r 0.3);
    [|apply ret_result in H; now subst].
  apply bind_result in H. destruct H as (i & g2 & _ & H).
  apply bind_result in H. destruct H as (touch & g3 & P & H).
  apply ret_result in H. subst out. intros t I.
  apply tokens_join in I. destruct I as (h & Hh & Ht).
  apply In_update_at in Hh. destruct Hh as [Hh|(x & Hx & ->)].
  - left. eapply match_sentences_tokens; [exact Hh|exact Ht].
  - apply touch_tokens in Ht; [|eapply pick_result; exact P].
    destruct Ht as [Ht|Ht]; [left|right; exact Ht].
    eapply match_sentences_tokens; [exact Hx|exact Ht].
Qed.

(* ================================================================== *)
(** * The professional tone: whole words *)
(* ================================================================== *)

Lemma last_pass tn st analysis n : forall text g r,
  result_of (pass_loop (S n) tn st analysis text g) = Some r ->
  exists x g1, result_of (humanize_pass tn st analysis x g1) = Some r.
Proof.
  induction n as [|n IH]; intros text g r H.
  - apply bind_result in H. destruct H as (a & g1 & Ha & H).
    cbn [pass_loop] in H. apply ret_result in H. subst.
    exists text, g. now rewrite Ha.
  - apply bind_result in H. destruct H as (a & g1 & Ha & H). eauto.
Qed.

Lemma pass_professional st analysis x g r :
  result_of (humanize_pass professional st analysis x g) = Some r ->
  exists y z g1,
    result_of (addNaturalFlow (makeProfessional y st) professional st g1) = Some z /\
    (r = z \/ exists g2, result_of (injectPersonality z professional g2) = Some r).
Proof.
  unfold humanize_pass. intros H.
  do 5 (apply bind_result in H; destruct H as (? & ? & _ & H)).
  apply bind_result in H. destruct H as (a & g1 & Ha & H).
  cbn [applyToneTransformations] in Ha. unfold ret in Ha.
  injection Ha as <- <-.
  apply bind_result in H. destruct H as (z & g2 & Hz & H).
  eexists _, z, _. split; [now rewrite Hz|].
  destruct (is_aggressive st).
  - right. eauto.
  - left. apply ret_result in H. now subst.
Qed.

Lemma professional_formal_only text st analysis g out :
  result_of (applyHumanization text professional st analysis g) = Some out ->
  formal_only out.
Proof.
  unfold applyHumanization. intros H.
  apply bind_result in H. destruct H as (r & g1 & Hr & H).
  apply ret_result in H. subst out.
  assert (L : exists x g0,
             result_of (humanize_pass professional st analysis x g0) = Some r).
  { destruct st; eapply last_pass; rewrite Hr; reflexivity. }
  destruct L as (x & g0 & L). apply pass_professional in L.
  destruct L as (y & z & g2 & Hz & Hrz).
  assert (Fz : formal_only z).
  { intros t I F.
    destruct (addNaturalFlow_words _ _ _ _ Hz t I) as [I'|Q].
    - now apply (makeProfessional_formal y st t).
    - vm_compute in Q, F. intuition (subst; discriminate). }
  assert (Fr : formal_only r).
  { destruct Hrz as [->|(g3 & Hi)]; auto.
    intros t I F.
    destruct (injectPersonality_words _ _ _ Hi t I) as [I'|Q].
    - now apply (Fz t).
    - vm_compute in Q, F. intuition (subst; discriminate). }
  intros t I. rewrite finalPolish_tokens in I. now apply Fr.
Qed.

(** C5, amended.  In the text that [applyHumanization] returns under the
    professional tone, whatever the input text, the analysis record and the
    strength, none of "kinda", "gonna", "wanna", "yeah" and "nope" occurs
    as a whole word in any letter-casing: the five patterns of
    [makeProfessional] no longer match. *)
Theorem professional_whole_words text st analysis g out :
  result_of (applyHumanization text professional st analysis g) = Some out ->
  forall w, In w informal_words -> test (word_re_i w) out = false.
Proof.
  intros H w Hw. apply professional_formal_only in H.
  destruct (test (word_re_i w) out) eqn:T; auto. exfalso.
  assert (W : lit w <> [] /\ Forall (fun c => is_word c = true) (lit w) /\
              map toLower (lit w) = lit w).
  { simpl in Hw.
    repeat (destruct Hw as [<-|Hw];
            [split; [discriminate|split; [repeat constructor|reflexivity]]|]).
    destruct Hw. }
  destruct W as (W1 & W2 & W3).
  apply test_word_token in T; auto. rewrite W3 in T.
  apply (H _ T). now apply in_map.
Qed.

Lemma professional_whole_words_witness :
  result_of (applyHumanization (lit "I'm kinda sure, yeah.") professional light
               quiet_analysis (constant_rng draw_half))
  = Some (lit "I'm somewhat sure, yes.") /\
  forall w, In w informal_words ->
            test (word_re_i w) (lit "I'm somewhat sure, yes.") = false.
Proof.
  assert (E : result_of (applyHumanization (lit "I'm kinda sure, yeah.")
                           professional light quiet_analysis
                           (constant_rng draw_half))
              = Some (lit "I'm somewhat sure, yes.")).
  { unfold applyHumanization, pass_loop, bind. rewrite !humanize_pass_quiet.
    vm_compute. reflexivity. }
  split; [exact E|].
  exact (professional_whole_words _ _ _ _ _ E).
Defined.
(* ================================================================== *)
(** * The command line *)
(* ================================================================== *)

Lemma array_includes_In xs x : array_includes xs x = true -> In x xs.
Proof.
  unfold array_includes. rewrite existsb_exists. intros [y [Hy E]].
  unfold streq in E. destruct (jstring_dec x y); [subst; assumption | discriminate].
Qed.

Lemma among_Str names v :
  CLI.among names v = true -> exists s, v = CLI.Str s /\ In s names.
Proof.
  destruct v as [| |s]; cbn [CLI.among]; try discriminate.
  intros H. exists s. split; [reflexivity | exact (array_includes_In _ _ H)].
Qed.

(** [parse_from] by cases on the argument in front: the shape of the
    induction that the theorems on [parseArgs] share. *)
Lemma parse_from_ind (P : list jstring -> CLI.Options -> Prop) :
  (forall o, P [] o) ->
  (forall arg rest o,
     (forall o', P rest o') -> (forall o', P (tl rest) o') -> P (arg :: rest) o) ->
  forall args o, P args o.
Proof.
  intros Hnil Hcons.
  enough (G : forall n args, length args <= n -> forall o, P args o).
  { intros args o. exact (G (length args) args (le_n _) o). }
  induction n as [|n IH]; intros args Hlen o.
  - destruct args; [apply Hnil | cbn in Hlen; lia].
  - destruct args as [|arg rest]; [apply Hnil|].
    cbn in Hlen. apply Hcons; intros o'; apply IH.
    + lia.
    + destruct rest; cbn in *; lia.
Qed.

Ltac parse_step :=
  cbn [CLI.parse_from];
  repeat match goal with
  | |- context [if CLI.is_option ?a ?s ?l then _ else _] =>
      let E := fresh "Opt" in destruct (CLI.is_option a s l) eqn:E
  end.

Lemma passes_in_range (p : Z) :
  (p <? 1)%Z || (5 <? p)%Z = false -> (1 <= p <= 5)%Z.
Proof.
  rewrite orb_false_iff, !Z.ltb_ge. lia.
Qed.

Lemma parse_from_valid : forall args o o',
  (In (CLI.tone o) CLI.tones /\ In (CLI.strength o) CLI.strengths /\
   (1 <= CLI.passes o <= 5)%Z) ->
  CLI.parse_from args o = CLI.Returned o' ->
  In (CLI.tone o') CLI.tones /\ In (CLI.strength o') CLI.strengths /\
  (1 <= CLI.passes o' <= 5)%Z.
Proof.
  intros args o. revert args o.
  apply (parse_from_ind (fun args o => forall o',
    (In (CLI.tone o) CLI.tones /\ In (CLI.strength o) CLI.strengths /\
     (1 <= CLI.passes o <= 5)%Z) ->
    CLI.parse_from args o = CLI.Returned o' ->
    In (CLI.tone o') CLI.tones /\ In (CLI.strength o') CLI.strengths /\
    (1 <= CLI.passes o' <= 5)%Z)).
  - intros o o' V E. cbn in E. injection E as <-. exact V.
  - intros arg rest o IH1 IH2 o' V. destruct V as (Vt & Vs & Vp). parse_step.
    + destruct rest; intros E; [injection E as <-; cbn; auto|].
      eapply IH2; [|exact E]. cbn. auto.
    + destruct rest; intros E; [injection E as <-; cbn; auto|].
      eapply IH2; [|exact E]. cbn. auto.
    + destruct (CLI.among CLI.tones (CLI.next_lower rest)) eqn:A;
        cbn [negb]; [|discriminate].
      destruct (among_Str _ _ A) as [s [Es Hs]]. rewrite Es. cbn [CLI.show].
      destruct rest; intros E; [injection E as <-; cbn; auto|].
      eapply IH2; [|exact E]. cbn. auto.
    + destruct (CLI.among CLI.strengths (CLI.next_lower rest)) eqn:A;
        cbn [negb]; [|discriminate].
      destruct (among_Str _ _ A) as [s [Es Hs]]. rewrite Es. cbn [CLI.show].
      destruct rest; intros E; [injection E as <-; cbn; auto|].
      eapply IH2; [|exact E]. cbn. auto.
    + destruct (CLI.parseInt (CLI.next_arg rest)) as [p|]; [|discriminate].
      destruct ((p <? 1)%Z || (5 <? p)%Z) eqn:Rg; [discriminate|].
      apply passes_in_range in Rg.
      destruct rest; intros E; [injection E as <-; cbn; auto|].
      eapply IH2; [|exact E]. cbn. auto.
    + intros E. eapply IH1; [|exact E]. cbn. auto.
    + intros E. eapply IH1; [|exact E]. cbn. auto.
    + intros E. eapply IH1; [|exact E]. cbn. auto.
    + discriminate.
    + destruct (starts_with (lit "-") arg); cbn [negb]; intros E.
      * eapply IH1; [|exact E]. auto.
      * injection E as <-. cbn. auto.
Qed.

(** X1.  The options that [parseArgs] returns hold one of the four tones,
    one of the three strengths and a number of passes from 1 to 5, whatever
    the command line. *)
Theorem parseArgs_valid_options (args : list jstring) (o : CLI.Options) :
  CLI.parseArgs args = CLI.Returned o ->
  In (CLI.tone o) CLI.tones /\ In (CLI.strength o) CLI.strengths /\
  (1 <= CLI.passes o <= 5)%Z.
Proof.
  apply parse_from_valid. cbn. repeat split; auto; lia.
Qed.

Lemma parseArgs_valid_options_witness :
  CLI.parseArgs (map lit ["-t"; "Academic"; "--passes"; "4"; "some text"]%string)
  = CLI.Returned
      (CLI.set_text (CLI.Str (lit "some text"))
         (CLI.set_passes 4 (CLI.set_tone (lit "academic") CLI.defaults))) /\
  In (lit "academic") CLI.tones /\ In (lit "medium") CLI.strengths /\
  (1 <= 4 <= 5)%Z.
Proof.
  split; [reflexivity|].
  exact (parseArgs_valid_options
           (map lit ["-t"; "Academic"; "--passes"; "4"; "some text"]%string)
           _ eq_refl).
Defined.

Ltac known_options :=
  repeat match goal with
  | H : CLI.is_option _ _ _ = _ |- _ => rewrite H
  end.

Ltac known_options_in E :=
  repeat match goal with
  | H : CLI.is_option _ _ _ = _ |- _ => rewrite H in E
  end.

Ltac same_step :=
  let tail := fresh "tail" in
  intros tail; cbn [CLI.parse_from CLI.next_arg CLI.next_lower];
  known_options;
  repeat match goal with
  | H : _ = _ |- _ => rewrite H
  end;
  cbn [negb CLI.show]; reflexivity.

(** What [parse_from] does with the text: it leaves the text of the
    options alone, or it stops at an argument [word] without a dash that it
    meets where it looks for an option.  The options are then those read
    from the arguments before [word], and the text is all that follows,
    whatever it is. *)
Lemma parse_from_text : forall args o o_f,
  CLI.parse_from args o = CLI.Returned o_f ->
  CLI.text o_f = CLI.text o \/
  exists before word rest o',
    args = before ++ word :: rest /\
    starts_with (lit "-") word = false /\
    CLI.parse_from before o = CLI.Returned o' /\
    CLI.text o' = CLI.text o /\
    o_f = CLI.set_text (CLI.Str (join (lit " ") (word :: rest))) o' /\
    forall rest',
      CLI.parse_from (before ++ word :: rest') o
      = CLI.Returned
          (CLI.set_text (CLI.Str (join (lit " ") (word :: rest'))) o').
Proof.
  apply (parse_from_ind (fun args o => forall o_f,
    CLI.parse_from args o = CLI.Returned o_f ->
    CLI.text o_f = CLI.text o \/
    exists before word rest o',
      args = before ++ word :: rest /\
      starts_with (lit "-") word = false /\
      CLI.parse_from before o = CLI.Returned o' /\
      CLI.text o' = CLI.text o /\
      o_f = CLI.set_text (CLI.Str (join (lit " ") (word :: rest))) o' /\
      forall rest',
        CLI.parse_from (before ++ word :: rest') o
        = CLI.Returned
            (CLI.set_text (CLI.Str (join (lit " ") (word :: rest'))) o'))).
  - intros o o_f E. cbn in E. injection E as <-. left. reflexivity.
  - intros arg rest o IH1 IH2 o_f.
    assert (One : forall o1, CLI.text o1 = CLI.text o ->
              (forall tail, CLI.parse_from (arg :: tail) o
                            = CLI.parse_from tail o1) ->
              CLI.parse_from (arg :: rest) o = CLI.Returned o_f ->
              CLI.text o_f = CLI.text o \/
              exists before word rest0 o',
                arg :: rest = before ++ word :: rest0 /\
                starts_with (lit "-") word = false /\
                CLI.parse_from before o = CLI.Returned o' /\
                CLI.text o' = CLI.text o /\
                o_f = CLI.set_text
                        (CLI.Str (join (lit " ") (word :: rest0))) o' /\
                forall rest',
                  CLI.parse_from (before ++ word :: rest') o
                  = CLI.Returned
                      (CLI.set_text
                         (CLI.Str (join (lit " ") (word :: rest'))) o')).
    { intros o1 T Step E. rewrite Step in E.
      destruct (IH1 _ _ E)
        as [H | (b & w & r & o' & Ea & Hw & Eb & To & Ef & All)].
      - left. congruence.
      - right. exists (arg :: b), w, r, o'.
        split; [rewrite Ea; reflexivity|]. split; [exact Hw|].
        split; [rewrite <- Eb; exact (Step b)|].
        split; [congruence|]. split; [exact Ef|].
        intros r2. rewrite <- (All r2). exact (Step (b ++ w :: r2)). }
    assert (Two : forall v rest1 o1, rest = v :: rest1 ->
              CLI.text o1 = CLI.text o ->
              (forall tail, CLI.parse_from (arg :: v :: tail) o
                            = CLI.parse_from tail o1) ->
              CLI.parse_from (arg :: rest) o = CLI.Returned o_f ->
              CLI.text o_f = CLI.text o \/
              exists before word rest0 o',
                arg :: rest = before ++ word :: rest0 /\
                starts_with (lit "-") word = false /\
                CLI.parse_from before o = CLI.Returned o' /\
                CLI.text o' = CLI.text o /\
                o_f = CLI.set_text
                        (CLI.Str (join (lit " ") (word :: rest0))) o' /\
                forall rest',
                  CLI.parse_from (before ++ word :: rest') o
                  = CLI.Returned
                      (CLI.set_text
                         (CLI.Str (join (lit " ") (word :: rest'))) o')).
    { intros v rest1 o1 Er T Step E. subst rest. rewrite Step in E.
      cbn [tl] in IH2.
      destruct (IH2 _ _ E)
        as [H | (b & w & r & o' & Ea & Hw & Eb & To & Ef & All)].
      - left. congruence.
      - right. exists (arg :: v :: b), w, r, o'.
        split; [rewrite Ea; reflexivity|]. split; [exact Hw|].
        split; [rewrite <- Eb; exact (Step b)|].
        split; [congruence|]. split; [exact Ef|].
        intros r2. rewrite <- (All r2). exact (Step (b ++ w :: r2)). }
    destruct (CLI.is_option arg "-i" "--input") eqn:O1.
    { destruct rest as [|v rest1].
      - intros E. cbn [CLI.parse_from] in E. rewrite O1 in E.
        injection E as <-. left. reflexivity.
      - apply (Two v rest1 (CLI.set_input (CLI.Str v) o));
          [reflexivity | reflexivity | same_step]. }
    destruct (CLI.is_option arg "-o" "--output") eqn:O2.
    { destruct rest as [|v rest1].
      - intros E. cbn [CLI.parse_from] in E. rewrite O1, O2 in E.
        injection E as <-. left. reflexivity.
      - apply (Two v rest1 (CLI.set_output (CLI.Str v) o));
          [reflexivity | reflexivity | same_step]. }
    destruct (CLI.is_option arg "-t" "--tone") eqn:O3.
    { destruct rest as [|v rest1].
      - intros E. cbn [CLI.parse_from] in E. rewrite O1, O2, O3 in E.
        discriminate E.
      - destruct (CLI.among CLI.tones (CLI.Str (toLowerCase v))) eqn:A.
        + apply (Two v rest1 (CLI.set_tone (toLowerCase v) o));
            [reflexivity | reflexivity | same_step].
        + intros E. cbn [CLI.parse_from CLI.next_lower] in E.
          rewrite O1, O2, O3, A in E. discriminate E. }
    destruct (CLI.is_option arg "-s" "--strength") eqn:O4.
    { destruct rest as [|v rest1].
      - intros E. cbn [CLI.parse_from] in E. rewrite O1, O2, O3, O4 in E.
        discriminate E.
      - destruct (CLI.among CLI.strengths (CLI.Str (toLowerCase v))) eqn:A.
        + apply (Two v rest1 (CLI.set_strength (toLowerCase v) o));
            [reflexivity | reflexivity | same_step].
        + intros E. cbn [CLI.parse_from CLI.next_lower] in E.
          rewrite O1, O2, O3, O4, A in E. discriminate E. }
    destruct (CLI.is_option arg "-p" "--passes") eqn:O5.
    { destruct rest as [|v rest1].
      - intros E. cbn [CLI.parse_from] in E. rewrite O1, O2, O3, O4, O5 in E.
        discriminate E.
      - destruct (CLI.parseInt (CLI.Str v)) as [p|] eqn:PI.
        + destruct ((p <? 1)%Z || (5 <? p)%Z) eqn:Rg.
          * intros E. cbn [CLI.parse_from CLI.next_arg] in E.
            rewrite O1, O2, O3, O4, O5, PI, Rg in E. discriminate E.
          * apply (Two v rest1 (CLI.set_passes p o));
              [reflexivity | reflexivity | same_step].
        + intros E. cbn [CLI.parse_from CLI.next_arg] in E.
          rewrite O1, O2, O3, O4, O5, PI in E. discriminate E. }
    destruct (CLI.is_option arg "-a" "--analyze") eqn:O6.
    { apply (One (CLI.set_analyze true o)); [reflexivity | same_step]. }
    destruct (CLI.is_option arg "-c" "--compare") eqn:O7.
    { apply (One (CLI.set_compare true o)); [reflexivity | same_step]. }
    destruct (CLI.is_option arg "-v" "--verbose") eqn:O8.
    { apply (One (CLI.set_verbose true o)); [reflexivity | same_step]. }
    destruct (CLI.is_option arg "-h" "--help") eqn:O9.
    { intros E. cbn [CLI.parse_from] in E.
      rewrite O1, O2, O3, O4, O5, O6, O7, O8, O9 in E. discriminate E. }
    destruct (starts_with (lit "-") arg) eqn:D.
    { apply (One o); [reflexivity | same_step]. }
    assert (Stop : forall tail,
              CLI.parse_from (arg :: tail) o
              = CLI.Returned
                  (CLI.set_text
                     (CLI.Str (join (lit " ") (arg :: tail))) o))
      by same_step.
    intros E. rewrite Stop in E. injection E as <-.
    right. exists [], arg, rest, o.
    repeat split; try reflexivity; try exact D. exact Stop.
Qed.

(** X2.  The text that [parseArgs] returns is absent, or it starts at the
    first argument without a leading dash that the parser meets where it
    looks for an option: the options are those of the arguments before it,
    which hold no text, and all that follows it is text and is never read
    as an option, whatever it is. *)
Theorem parseArgs_text_is_tail (args : list jstring) (o : CLI.Options) :
  CLI.parseArgs args = CLI.Returned o ->
  CLI.text o = CLI.Null \/
  exists before word rest o',
    args = before ++ word :: rest /\
    starts_with (lit "-") word = false /\
    CLI.parseArgs before = CLI.Returned o' /\
    CLI.text o' = CLI.Null /\
    o = CLI.set_text (CLI.Str (join (lit " ") (word :: rest))) o' /\
    forall rest',
      CLI.parseArgs (before ++ word :: rest')
      = CLI.Returned
          (CLI.set_text (CLI.Str (join (lit " ") (word :: rest'))) o').
Proof.
  intros E. exact (parse_from_text _ _ _ E).
Qed.

Lemma parseArgs_text_is_tail_witness :
  CLI.parseArgs (map lit ["-i"; "notes"; "hello"; "-t"; "formal"; "-p"; "9"]%string)
  = CLI.Returned
      (CLI.set_text (CLI.Str (lit "hello -t formal -p 9"))
         (CLI.set_input (CLI.Str (lit "notes")) CLI.defaults)) /\
  (CLI.Str (lit "hello -t formal -p 9") = CLI.Null \/
   exists before word rest o',
     map lit ["-i"; "notes"; "hello"; "-t"; "formal"; "-p"; "9"]%string
     = before ++ word :: rest /\
     starts_with (lit "-") word = false /\
     CLI.parseArgs before = CLI.Returned o' /\
     CLI.text o' = CLI.Null /\
     CLI.set_text (CLI.Str (lit "hello -t formal -p 9"))
       (CLI.set_input (CLI.Str (lit "notes")) CLI.defaults)
     = CLI.set_text (CLI.Str (join (lit " ") (word :: rest))) o' /\
     forall rest',
       CLI.parseArgs (before ++ word :: rest')
       = CLI.Returned
           (CLI.set_text (CLI.Str (join (lit " ") (word :: rest'))) o')).
Proof.
  split; [reflexivity|].
  exact (parseArgs_text_is_tail
           (map lit ["-i"; "notes"; "hello"; "-t"; "formal"; "-p"; "9"]%string)
           _ eq_refl).
Defined.

Lemma parse_from_accepts : forall args o,
  Forall (fun arg => ends_process arg = false) args ->
  exists o', CLI.parse_from args o = CLI.Returned o'.
Proof.
  apply (parse_from_ind (fun args o =>
    Forall (fun arg => ends_process arg = false) args ->
    exists o', CLI.parse_from args o = CLI.Returned o')).
  - intros o _. exists o. reflexivity.
  - intros arg rest o IH1 IH2 F. inversion F as [|x l Ha Hr]; subst x l.
    assert (Hr2 : Forall (fun arg => ends_process arg = false) (tl rest)).
    { destruct rest; [constructor|]. inversion Hr; assumption. }
    unfold ends_process in Ha. rewrite !orb_false_iff in Ha.
    destruct Ha as [[[Ht Hs] Hp] Hh].
    cbn [CLI.parse_from]. rewrite Ht, Hs, Hp, Hh.
    repeat match goal with
    | |- context [if CLI.is_option ?a ?s ?l then _ else _] =>
        destruct (CLI.is_option a s l)
    end.
    + destruct rest; [eexists; reflexivity | apply IH2; exact Hr2].
    + destruct rest; [eexists; reflexivity | apply IH2; exact Hr2].
    + apply IH1; exact Hr.
    + apply IH1; exact Hr.
    + apply IH1; exact Hr.
    + destruct (negb _); [eexists; reflexivity | apply IH1; exact Hr].
Qed.

(** X3.  [parseArgs] ends the process only at the options [-t], [-s], [-p]
    and [-h]: a command line without them is accepted, whatever unknown
    options it holds and even when [-i] or [-o] comes last, without a
    value. *)
Theorem parseArgs_accepts (args : list jstring) :
  Forall (fun arg => ends_process arg = false) args ->
  exists o, CLI.parseArgs args = CLI.Returned o.
Proof.
  apply parse_from_accepts.
Qed.

Lemma parseArgs_accepts_witness :
  Forall (fun arg => ends_process arg = false)
         (map lit ["--frobnicate"; "-x"; "-o"]%string) /\
  exists o, CLI.parseArgs (map lit ["--frobnicate"; "-x"; "-o"]%string)
            = CLI.Returned o.
Proof.
  assert (F : Forall (fun arg => ends_process arg = false)
                     (map lit ["--frobnicate"; "-x"; "-o"]%string)).
  { repeat constructor. }
  split; [exact F|].
  exact (parseArgs_accepts _ F).
Defined.

Lemma digit_value_10 c : is_digit c = false -> CLI.digit_value 10 c = None.
Proof.
  by_cases_on c.
Qed.

Lemma parse_digits_stop radix junk acc :
  match junk with c :: _ => CLI.digit_value radix c = None | [] => True end ->
  CLI.parse_digits radix junk acc = acc.
Proof.
  destruct junk as [|c junk]; [reflexivity|]. cbn. intros ->. reflexivity.
Qed.

(** X4.  The value of [-p] is read by [parseInt]: an argument that starts
    with a digit from 1 to 5 followed by anything but a digit is taken as
    that number of passes, as in [-p 3x] or [-p 2.9]. *)
Theorem passes_read_by_leading_digit (d : nat) (junk : jstring)
  (rest : list jstring) (o : CLI.Options) :
  1 <= d <= 5 ->
  match junk with c :: _ => is_digit c = false | [] => True end ->
  CLI.parse_from (lit "-p" :: (nat_to_string d ++ junk) :: rest) o =
  CLI.parse_from rest (CLI.set_passes (Z.of_nat d) o).
Proof.
  intros Hd Hj.
  assert (Stop : forall acc, CLI.parse_digits 10 junk acc = acc).
  { intros acc. apply parse_digits_stop. destruct junk; [exact I|].
    apply digit_value_10. exact Hj. }
  assert (D : d = 1 \/ d = 2 \/ d = 3 \/ d = 4 \/ d = 5) by lia.
  destruct D as [-> | [-> | [-> | [-> | ->]]]];
    cbn [CLI.parse_from];
    change (CLI.is_option (lit "-p") "-i" "--input") with false;
    change (CLI.is_option (lit "-p") "-o" "--output") with false;
    change (CLI.is_option (lit "-p") "-t" "--tone") with false;
    change (CLI.is_option (lit "-p") "-s" "--strength") with false;
    change (CLI.is_option (lit "-p") "-p" "--passes") with true;
    cbv iota; cbn [CLI.next_arg CLI.parseInt];
    match goal with
    | |- context [nat_to_string ?n ++ junk] =>
        let s := eval vm_compute in (nat_to_string n) in
        change (nat_to_string n) with s
    end;
    cbn [app trimStart]; cbv beta iota;
    match goal with
    | |- context [is_space ?c] =>
        let b := eval vm_compute in (is_space c) in
        change (is_space c) with b
    end; cbv iota;
    cbn [CLI.parse_digits];
    match goal with
    | |- context [CLI.digit_value 10 ?c] =>
        let b := eval vm_compute in (CLI.digit_value 10 c) in
        change (CLI.digit_value 10 c) with b
    end; cbv iota; rewrite Stop; reflexivity.
Qed.

Lemma passes_read_by_leading_digit_witness :
  CLI.parse_from [lit "-p"; nat_to_string 3 ++ lit "x"] CLI.defaults
  = CLI.Returned (CLI.set_passes 3 CLI.defaults).
Proof.
  exact (passes_read_by_leading_digit 3 (lit "x") [] CLI.defaults
           (conj (le_S _ _ (le_S _ _ (le_n 1))) (le_S _ _ (le_S _ _ (le_n 3))))
           eq_refl).
Defined.
(* ================================================================== *)
(** * More on [analyzeAIPatterns] *)
(* ================================================================== *)

(** ** The pieces of [split] at the runs of a class *)

Lemma filter_class_run (P : ascii -> bool) m :
  Forall (fun c => P c = true) m -> filter (fun c => negb (P c)) m = [].
Proof.
  induction 1 as [|c m Hc _ IH]; [reflexivity|]. cbn. rewrite Hc. exact IH.
Qed.

Lemma Scan_split_concat (P : ascii -> bool) before after segs :
  Scan (PlusC P) before after segs ->
  forall acc,
    concat (split_segs acc segs) = rev acc ++ filter (fun c => negb (P c)) after.
Proof.
  induction 1 as [before E | before m caps E | before c rest segs E _ IH
                 | before c rest caps segs E _ _ | before m rest caps segs Hm E _ IH];
    intros acc.
  - cbn. reflexivity.
  - rewrite exec_plus in E. discriminate E.
  - apply exec_plus_none in E. cbn [split_segs filter]. rewrite E. cbn [negb].
    rewrite IH. cbn [rev]. rewrite <- app_assoc. reflexivity.
  - exfalso. apply (exec_nonempty (PlusC P) eq_refl _ _ _ E).
  - apply exec_plus_some in E. destruct E as (_ & F & -> & _).
    cbn [split_segs app concat]. rewrite IH. cbn [rev app].
    rewrite filter_app, (filter_class_run P m F). reflexivity.
Qed.

Lemma split_concat (P : ascii -> bool) s :
  concat (split (PlusC P) s) = filter (fun c => negb (P c)) s.
Proof.
  unfold split. rewrite (Scan_split_concat P [] s _ (scan_Scan _ s) []).
  reflexivity.
Qed.

Lemma Forall_concat (A : Type) (Q : A -> Prop) (l : list (list A)) :
  Forall Q (concat l) <-> Forall (Forall Q) l.
Proof.
  induction l as [|x l IH]; cbn.
  - split; constructor.
  - rewrite Forall_app, IH. split.
    + intros [H1 H2]. constructor; assumption.
    + intros H. inversion H; subst. split; assumption.
Qed.

Lemma Forall_filter_neg (P Q : ascii -> bool) s :
  Forall (fun c => Q c = true) (filter (fun c => negb (P c)) s) <->
  Forall (fun c => P c || Q c = true) s.
Proof.
  induction s as [|c s IH]; cbn.
  - split; constructor.
  - destruct (P c) eqn:Pc; cbn.
    + rewrite IH. split.
      * intros H. constructor; [rewrite Pc; reflexivity | exact H].
      * intros H. inversion H; assumption.
    + split.
      * intros H. inversion H; subst. constructor; [rewrite Pc; assumption|].
        apply IH. assumption.
      * intros H. inversion H as [|x l Hc Hs]; subst. rewrite Pc in Hc.
        constructor; [exact Hc | apply IH; exact Hs].
Qed.

Lemma filter_nil_iff (A : Type) (f : A -> bool) l :
  filter f l = [] <-> Forall (fun x => f x = false) l.
Proof.
  induction l as [|x l IH]; cbn.
  - split; constructor.
  - destruct (f x) eqn:Fx.
    + split; [discriminate|]. intros H. inversion H; congruence.
    + rewrite IH. split.
      * intros H. constructor; assumption.
      * intros H. inversion H; assumption.
Qed.

Lemma trimStart_blank_iff s :
  trimStart s = [] <-> Forall (fun c => is_space c = true) s.
Proof.
  induction s as [|c s IH]; cbn.
  - split; constructor.
  - destruct (is_space c) eqn:Sc.
    + rewrite IH. split.
      * intros H. constructor; assumption.
      * intros H. inversion H; assumption.
    + split; [discriminate|]. intros H. inversion H; congruence.
Qed.

Lemma trim_blank_iff s :
  (0 <? length (trim s)) = false <-> Forall (fun c => is_space c = true) s.
Proof.
  rewrite Nat.ltb_ge. split.
  - intros H. assert (E : trim s = []).
    { destruct (trim s); [reflexivity | cbn in H; lia]. }
    unfold trim, trimEnd in E.
    assert (E' : trimStart (rev (trimStart s)) = []).
    { rewrite <- (rev_involutive (trimStart (rev (trimStart s)))), E.
      reflexivity. }
    apply trimStart_blank_iff in E'. apply Forall_rev in E'.
    rewrite rev_involutive in E'.
    destruct (trimStart_blank s) as (w & Es & Fw).
    rewrite Es. apply Forall_app. split; assumption.
  - intros F. apply trimStart_blank_iff in F. unfold trim. rewrite F.
    cbn. lia.
Qed.

(** The text has no word exactly when it is blank. *)
Lemma words_of_nil_iff text :
  words_of text = [] <-> Forall (fun c => is_space c = true) text.
Proof.
  split; [|apply words_of_blank].
  unfold words_of. rewrite filter_nil_iff. intros F.
  assert (G : Forall (Forall (fun c : ascii => False))
                     (split (PlusC is_space) (toLowerCase text))).
  { eapply Forall_impl; [|exact F]. intros w Hw.
    destruct w; [constructor | cbn in Hw; discriminate]. }
  apply Forall_concat in G. rewrite split_concat in G.
  unfold toLowerCase in G. clear F.
  induction text as [|c text IH]; [constructor|].
  cbn in G. rewrite is_space_toLower in G.
  destruct (is_space c) eqn:Sc; cbn in G.
  - constructor; [exact Sc | apply IH; exact G].
  - inversion G as [|x l Hx _]. destruct Hx.
Qed.

(** The text has no sentence exactly when it is made of white space and
    of the characters that end a sentence. *)
Lemma sentences_of_nil_iff text :
  sentences_of text = [] <->
  Forall (fun c => terminator c || is_space c = true) text.
Proof.
  unfold sentences_of. rewrite filter_nil_iff.
  rewrite <- (Forall_filter_neg terminator is_space).
  change (fun c => negb (terminator c)) with (fun c => negb (one_of ".!?" c)).
  rewrite <- split_concat, Forall_concat.
  split; intros F; (eapply Forall_impl; [|exact F]); intros s Hs.
  - apply trim_blank_iff. exact Hs.
  - apply trim_blank_iff. exact Hs.
Qed.

Lemma sentences_need_words text :
  sentences_of text <> [] -> words_of text <> [].
Proof.
  intros Hs Hw. apply Hs. apply sentences_of_nil_iff.
  apply words_of_nil_iff in Hw. eapply Forall_impl; [|exact Hw].
  intros c Hc. rewrite Hc. apply orb_true_r.
Qed.

Section AnalyzerExtras.

Variable toFixed : nat -> R -> jstring.

(** X5.  The analysis is the degenerate one, with the entry "Insufficient
    text for analysis", exactly on the texts that are made of white space
    and of the characters [.], [!] and [?] only. *)
Theorem insufficient_text_exactly (text : jstring) :
  In (lit "Insufficient text for analysis")
     (aiPatterns (analyzeAIPatterns toFixed text)) <->
  Forall (fun c => terminator c || is_space c = true) text.
Proof.
  split.
  - intros Hin.
    destruct (list_eq_dec jstring_dec (sentences_of text) []) as [Es|Hs].
    { apply sentences_of_nil_iff. exact Es. }
    exfalso. pose proof (sentences_need_words _ Hs) as Hw.
    revert Hin. regular_branch Hw Hs. intros Hin.
    repeat (apply in_app_or in Hin; destruct Hin as [Hin|Hin];
            [apply In_push_if in Hin;
             apply (f_equal (@hd ascii " "%char)) in Hin;
             cbn [hd lit list_ascii_of_string app] in Hin; discriminate Hin|]).
    apply In_push_if in Hin. discriminate Hin.
  - intros F. apply sentences_of_nil_iff in F.
    degenerate_branch (or_intror F : words_of text = [] \/ _).
    left. reflexivity.
Qed.

Local Open Scope R_scope.

(** X6.  The overall score never exceeds 0.96: the weights add up to 1, but
    the two flags that enter the sum are at most 0.8 and 0.6, so the cap of
    [Math.min] at 1 is never reached. *)
Theorem overallAIScore_below_cap (text : jstring) :
  overallAIScore (analyzeAIPatterns toFixed text) <= 0.96.
Proof.
  destruct (list_eq_dec jstring_dec (words_of text) []) as [Ew|Hw].
  { degenerate_branch (or_introl Ew : _ \/ sentences_of text = []). lra. }
  destruct (list_eq_dec jstring_dec (sentences_of text) []) as [Es|Hs].
  { degenerate_branch (or_intror Es : words_of text = [] \/ _). lra. }
  regular_branch Hw Hs.
  set (fs := Rmin (INR (formalCount (words_of text)) /
                   INR (length (words_of text)) * 5) 1).
  set (rs := sum_by excess (JSMap.values (wordFreq (words_of text))) /
             INR (length (words_of text))).
  set (ps := Rmin (INR (count_passive text) /
                   Rmax (INR (length (sentences_of text))) 1) 1).
  set (sv := Rmin (sqrt (variance_of (sentenceLengths (sentences_of text))) /
                   Rmax (average (sentenceLengths (sentences_of text))) 1) 1).
  set (ss := Rmin (INR (starterRepetition (sentences_of text)) /
                   Rmax (INR (length (sentences_of text))) 1) 1).
  set (cs := INR (count_contractions text) /
             Rmax (INR (length (sentences_of text))) 1).
  set (ts := Rmin (INR (transitionCount text) / 3) 1).
  set (vd := INR (length (JSSet.of_list (words_of text))) /
             INR (length (words_of text))).
  assert (Hfs : 0 <= fs <= 1) by (apply Rmin_unit, formality_ratio_nonneg).
  assert (Hrs : 0 <= rs <= 1) by (apply repetitionScore_unit; auto).
  assert (Hps : 0 <= ps <= 1) by (apply Rmin_unit, ratio_nonneg).
  assert (Hsv : 0 <= sv <= 1) by (apply Rmin_unit, variety_nonneg).
  assert (Hss : 0 <= ss <= 1) by (apply Rmin_unit, ratio_nonneg).
  assert (Hts : 0 <= ts <= 1) by (apply Rmin_unit, third_nonneg).
  eapply Rle_trans; [apply Rmin_l|].
  destruct (Rltb cs 0.1); destruct (Rltb vd 0.5); lra.
Qed.

(** ** Sentences of one length *)

Lemma sum_by_uniform (n : nat) lens :
  Forall (eq n) lens -> sum_by INR lens = INR (length lens) * INR n.
Proof.
  induction 1 as [|x l Hx _ IH].
  - unfold sum_by. cbn. lra.
  - subst x. rewrite sum_by_cons, IH. cbn [length]. rewrite S_INR. lra.
Qed.

Lemma average_uniform (n : nat) lens :
  lens <> [] -> Forall (eq n) lens -> average lens = INR n.
Proof.
  intros Hne F. unfold average. rewrite (sum_by_uniform n lens F).
  assert (Hk : INR (length lens) <> 0).
  { apply not_0_INR. destruct lens; [congruence | cbn; lia]. }
  field. exact Hk.
Qed.

Lemma variance_uniform (n : nat) lens :
  lens <> [] -> Forall (eq n) lens -> variance_of lens = 0.
Proof.
  intros Hne F. unfold variance_of. rewrite (average_uniform n lens Hne F).
  assert (Z0 : sum_by (fun len => (INR len - INR n) ^ 2) lens = 0).
  { clear Hne. induction F as [|x l Hx _ IH].
    - reflexivity.
    - subst x. rewrite sum_by_cons, IH. ring. }
  rewrite Z0. unfold Rdiv. ring.
Qed.

Lemma In_push (c : bool) (x : jstring) : c = true -> In x (push_if c x).
Proof. intros ->. left. reflexivity. Qed.

(** X7.  When all the sentences of a text have the same number of words, as
    in a text of one sentence, the sentence variety is 0: the analysis
    reports uniform sentence lengths, and it opens the gate of
    [varySentenceStructure] in [applyHumanization]. *)
Theorem uniform_sentences_flagged (text : jstring) (n : nat) :
  sentences_of text <> [] ->
  (forall s, In s (sentences_of text) -> length (sentence_words s) = n) ->
  let a := analyzeAIPatterns toFixed text in
  sentenceVariety a = 0 /\
  Rltb (sentenceVariety a) 0.4 = true /\
  exists entry,
    In entry (aiPatterns a) /\
    starts_with (lit "Uniform sentence lengths") entry = true.
Proof.
  intros Hs Hn a. subst a. pose proof (sentences_need_words _ Hs) as Hw.
  assert (F : Forall (eq n) (sentenceLengths (sentences_of text))).
  { unfold sentenceLengths. apply Forall_map. apply Forall_forall.
    intros s Hin. symmetry. apply Hn. exact Hin. }
  assert (Hne : sentenceLengths (sentences_of text) <> []).
  { unfold sentenceLengths. destruct (sentences_of text); [congruence|].
    discriminate. }
  assert (V : Rmin (sqrt (variance_of (sentenceLengths (sentences_of text))) /
                    Rmax (average (sentenceLengths (sentences_of text))) 1) 1
              = 0).
  { rewrite (variance_uniform n _ Hne F), sqrt_0. unfold Rdiv.
    rewrite Rmult_0_l. apply Rmin_left. lra. }
  regular_branch Hw Hs. rewrite !V.
  assert (L4 : Rltb 0 0.4 = true).
  { unfold Rltb. destruct (Rlt_dec 0 0.4); [reflexivity | lra]. }
  assert (L35 : Rltb 0 0.35 = true).
  { unfold Rltb. destruct (Rlt_dec 0 0.35); [reflexivity | lra]. }
  split; [reflexivity|]. split; [exact L4|].
  eexists. split.
  - do 4 (apply in_or_app; right). apply in_or_app; left.
    apply In_push. exact L35.
  - change (lit "Uniform sentence lengths (variety: ")
      with (lit "Uniform sentence lengths" ++ lit " (variety: ").
    rewrite <- !app_assoc. apply starts_with_app.
Qed.

End AnalyzerExtras.

Lemma uniform_sentences_flagged_witness :
  sentences_of (lit "Hello world.") <> [] /\
  (forall s, In s (sentences_of (lit "Hello world.")) ->
             length (sentence_words s) = 2) /\
  sentenceVariety (analyzeAIPatterns no_digits (lit "Hello world.")) = 0%R.
Proof.
  assert (Hs : sentences_of (lit "Hello world.") <> [])
    by (vm_compute; discriminate).
  assert (Hn : forall s, In s (sentences_of (lit "Hello world.")) ->
                         length (sentence_words s) = 2).
  { intros s H. vm_compute in H. destruct H as [<-|[]]. reflexivity. }
  split; [exact Hs|]. split; [exact Hn|].
  exact (proj1 (uniform_sentences_flagged no_digits _ 2 Hs Hn)).
Defined.

(** ** Where the matches of a scan lie *)

Lemma Scan_hit_within r before after segs :
  Scan r before after segs ->
  forall m caps, In (Hit m caps) segs ->
  exists x y, after = x ++ m ++ y /\
              exec r (rev x ++ before) (m ++ y) = Some (m, caps).
Proof.
  induction 1 as [before E | before m0 caps0 E | before c rest segs E _ IH
                 | before c rest caps0 segs E _ IH
                 | before m0 rest caps0 segs Hm E _ IH];
    intros m caps Hin.
  - destruct Hin.
  - destruct Hin as [Hin|[]]. injection Hin as -> ->.
    destruct (exec_sound _ _ _ _ _ E) as (rest & Er & _).
    symmetry in Er. apply app_eq_nil in Er. destruct Er as [-> ->].
    exists [], []. split; [reflexivity | exact E].
  - destruct Hin as [Hin|Hin]; [discriminate Hin|].
    destruct (IH _ _ Hin) as (x & y & -> & Ex).
    exists (c :: x), y. split; [reflexivity|].
    cbn [rev]. rewrite <- app_assoc. exact Ex.
  - destruct Hin as [Hin|[Hin|Hin]]; [|discriminate Hin|].
    + injection Hin as <- <-. exists [], (c :: rest).
      split; [reflexivity | exact E].
    + destruct (IH _ _ Hin) as (x & y & -> & Ex).
      exists (c :: x), y. split; [reflexivity|].
      cbn [rev]. rewrite <- app_assoc. exact Ex.
  - destruct Hin as [Hin|Hin].
    + injection Hin as <- <-. exists [], rest. split; [reflexivity | exact E].
    + destruct (IH _ _ Hin) as (x & y & -> & Ex).
      exists (m0 ++ x), y. split; [rewrite <- app_assoc; reflexivity|].
      rewrite rev_app_distr, <- app_assoc. exact Ex.
Qed.

(** A pattern between two [\b]: what its matches are. *)
Lemma bounded_inner R before m rest caps :
  matches (seq [WordB; R; WordB]) before m rest caps ->
  matches R before m rest caps /\
  xorb (word_before before) (word_after (m ++ rest)) = true /\
  xorb (word_before (rev m ++ before)) (word_after rest) = true.
Proof.
  intros E. cbn [seq] in E.
  inversion E as [| |r1 r2 b m1 m2 rs c1 c2 M1 M2| | | | | | |]; subst.
  inversion M1 as [| | | | | | |b1 r1 X1| |]; subst.
  inversion M2 as [| |r1 r2 b m3 m4 rs c3 c4 M3 M4| | | | | | |]; subst.
  inversion M4 as [| | | | | | |b1 r1 X4| |]; subst.
  cbn [app rev] in *. rewrite !app_nil_r in *.
  repeat split; assumption.
Qed.

Lemma same_lower_In (c : ascii) : forall m w,
  map toLower m = map toLower w -> toLower c = c ->
  (forall x, toLower x = c -> x = c) -> In c w -> In c m.
Proof.
  induction m as [|x m IH]; intros [|y w] E Lc Only Hin;
    try discriminate; try (destruct Hin; fail).
  cbn in E. injection E as Ex Em. destruct Hin as [->|Hin].
  - left. apply Only. rewrite Ex. exact Lc.
  - right. exact (IH w Em Lc Only Hin).
Qed.

Lemma apostrophe_only x : toLower x = "'"%char -> x = "'"%char.
Proof.
  by_cases_on x.
Qed.

Lemma bounded_group_alt ws before m rest caps :
  matches (seq [WordB; Group (alt (map str_i ws)); WordB]) before m rest caps ->
  exists w, In w ws /\ map toLower m = map toLower (lit w).
Proof.
  intros M. apply bounded_inner in M. destruct M as (M & _ & _).
  inversion M as [| | | | | |r1 b0 m0 rs0 c0 M0| | |]; subst.
  apply matches_alt in M0. destruct M0 as (r' & I & M0).
  apply in_map_iff in I. destruct I as (w & <- & I).
  apply matches_seq_chr_i in M0. destruct M0 as (E & _).
  exists w. split; assumption.
Qed.

Lemma contraction_has_apostrophe before m rest caps :
  matches contractionPattern before m rest caps -> In "'"%char m.
Proof.
  intros M. unfold contractionPattern in M. apply bounded_group_alt in M.
  destruct M as (w & I & E).
  apply (same_lower_In "'"%char m (lit w) E eq_refl apostrophe_only).
  cbn [In] in I.
  repeat (destruct I as [<-|I]; [vm_compute; tauto|]).
  destruct I.
Qed.

Lemma no_apostrophe_no_hit text :
  ~ In "'"%char text -> count_contractions text = 0.
Proof.
  intros N. unfold count_contractions, match_count, match_all.
  destruct (hits (scan contractionPattern text)) as [|m ms] eqn:H;
    [reflexivity|].
  exfalso. apply N.
  assert (Hin : In m (hits (scan contractionPattern text)))
    by (rewrite H; left; reflexivity).
  apply hits_In in Hin. destruct Hin as [caps Hin].
  destruct (Scan_hit_within _ _ _ _ (scan_Scan contractionPattern text)
              _ _ Hin) as (x & y & -> & E).
  apply exec_matches in E. apply contraction_has_apostrophe in E.
  apply in_or_app. right. apply in_or_app. left. exact E.
Qed.

Section ContractionFlag.

Variable toFixed : nat -> R -> jstring.

Local Open Scope R_scope.

(** X8.  On a text with a sentence and without an apostrophe the contraction
    score is 0, so the analysis reports "Lack of contractions (0 found)",
    the overall score is at least 0.08, and the gate of [addContractions]
    in [applyHumanization] is open. *)
Theorem no_apostrophe_lack_of_contractions (text : jstring) :
  sentences_of text <> [] -> ~ In "'"%char text ->
  let a := analyzeAIPatterns toFixed text in
  contractionScore a = 0 /\
  In (lit "Lack of contractions (0 found)") (aiPatterns a) /\
  0.08 <= overallAIScore a /\
  Rltb (contractionScore a) 0.2 = true.
Proof.
  intros Hs N a. subst a. pose proof (sentences_need_words _ Hs) as Hw.
  regular_branch Hw Hs. rewrite (no_apostrophe_no_hit text N).
  set (fs := Rmin (INR (formalCount (words_of text)) /
                   INR (length (words_of text)) * 5) 1).
  set (rs := sum_by excess (JSMap.values (wordFreq (words_of text))) /
             INR (length (words_of text))).
  set (ps := Rmin (INR (count_passive text) /
                   Rmax (INR (length (sentences_of text))) 1) 1).
  set (sv := Rmin (sqrt (variance_of (sentenceLengths (sentences_of text))) /
                   Rmax (average (sentenceLengths (sentences_of text))) 1) 1).
  set (ss := Rmin (INR (starterRepetition (sentences_of text)) /
                   Rmax (INR (length (sentences_of text))) 1) 1).
  set (ts := Rmin (INR (transitionCount text) / 3) 1).
  set (vd := INR (length (JSSet.of_list (words_of text))) /
             INR (length (words_of text))).
  assert (Hfs : 0 <= fs <= 1) by (apply Rmin_unit, formality_ratio_nonneg).
  assert (Hrs : 0 <= rs <= 1) by (apply repetitionScore_unit; auto).
  assert (Hps : 0 <= ps <= 1) by (apply Rmin_unit, ratio_nonneg).
  assert (Hsv : 0 <= sv <= 1) by (apply Rmin_unit, variety_nonneg).
  assert (Hss : 0 <= ss <= 1) by (apply Rmin_unit, ratio_nonneg).
  assert (Hts : 0 <= ts <= 1) by (apply Rmin_unit, third_nonneg).
  assert (C0 : INR 0 / Rmax (INR (length (sentences_of text))) 1 = 0).
  { cbn [INR]. unfold Rdiv. apply Rmult_0_l. }
  rewrite !C0.
  assert (L1 : Rltb 0 0.1 = true).
  { unfold Rltb. destruct (Rlt_dec 0 0.1); [reflexivity | lra]. }
  assert (L2 : Rltb 0 0.2 = true).
  { unfold Rltb. destruct (Rlt_dec 0 0.2); [reflexivity | lra]. }
  rewrite !L1.
  assert (G : Rgtb 0.8 0.5 = true).
  { unfold Rgtb, Rltb. destruct (Rlt_dec 0.5 0.8); [reflexivity | lra]. }
  split; [reflexivity|]. split; [|split; [|exact L2]].
  - do 6 (apply in_or_app; right). apply in_or_app; left.
    rewrite G. left. reflexivity.
  - apply Rmin_glb; [|lra]. destruct (Rltb vd 0.5); lra.
Qed.

End ContractionFlag.

Lemma no_apostrophe_lack_of_contractions_witness :
  sentences_of (lit "Hello world.") <> [] /\
  ~ In "'"%char (lit "Hello world.") /\
  In (lit "Lack of contractions (0 found)")
     (aiPatterns (analyzeAIPatterns no_digits (lit "Hello world."))).
Proof.
  assert (Hs : sentences_of (lit "Hello world.") <> [])
    by (vm_compute; discriminate).
  assert (N : ~ In "'"%char (lit "Hello world.")).
  { cbn. intros H. repeat (destruct H as [H|H]; [discriminate H|]). exact H. }
  split; [exact Hs|]. split; [exact N|].
  exact (proj1 (proj2
           (no_apostrophe_lack_of_contractions no_digits _ Hs N))).
Defined.
(* ================================================================== *)
(** * More on the stages of the engine *)
(* ================================================================== *)

(** ** A replacement without a match *)

Lemma Scan_no_hit r f before after segs :
  Scan r before after segs -> hits segs = [] ->
  concat (map (render f) segs) = after.
Proof.
  induction 1 as [before E | before m caps E | before c rest segs E _ IH
                 | before c rest caps segs E _ IH
                 | before m rest caps segs Hm E _ IH];
    cbn [hits]; intros H; try discriminate H.
  - reflexivity.
  - cbn. rewrite (IH H). reflexivity.
Qed.

Lemma replace_all_no_hit r f s : test r s = false -> replace_all r f s = s.
Proof.
  unfold test, replace_all. intros H.
  apply (Scan_no_hit r f [] s _ (scan_Scan r s)).
  destruct (hits (scan r s)); [reflexivity | discriminate H].
Qed.

(** X9.  [reduceFormality] returns unchanged a text in which none of the
    phrases of its table stands between two word boundaries. *)
Theorem reduceFormality_keeps_plain_text (text : jstring) (tn : tone)
  (st : strength) :
  (forall formal informal,
     In (formal, informal) (replacements_at st) ->
     test (word_re_i formal) text = false) ->
  reduceFormality text tn st = text.
Proof.
  unfold reduceFormality, replacements_at.
  generalize (if is_aggressive st
              then baseReplacements ++ aggressiveReplacements
              else baseReplacements).
  intros table. induction table as [|[formal informal] table IH]; intros H.
  - reflexivity.
  - cbn [fold_left]. rewrite replace_all_no_hit.
    + apply IH. intros f i Hin. apply (H f i). right. exact Hin.
    + apply (H formal informal). left. reflexivity.
Qed.

Lemma reduceFormality_keeps_plain_text_witness :
  reduceFormality (lit "The cat sat on the mat.") casual aggressive
  = lit "The cat sat on the mat.".
Proof.
  apply (reduceFormality_keeps_plain_text _ casual aggressive).
  intros formal informal Hin. cbn in Hin.
  repeat (destruct Hin as [Hin|Hin];
          [injection Hin as <- <-; vm_compute; reflexivity|]).
  destruct Hin.
Defined.

(** X10.  [finalPolish] changes the spacing, the punctuation and the case of
    letters only: the words of its result, compared without regard to case,
    are the words of the text, in the same order. *)
Theorem finalPolish_keeps_words (text : jstring) :
  tokens (finalPolish text) = tokens text.
Proof.
  exact (finalPolish_tokens text).
Qed.

(** ** [finalPolish] on a blank text *)

Lemma collapse_blank (f : jstring -> list jstring -> jstring) s :
  s <> [] -> Forall (fun c => is_space c = true) s ->
  replace_all (PlusC is_space) f s = f s [].
Proof.
  intros Hne F. unfold replace_all, scan.
  destruct s as [|c rest]; [congruence|]. cbn [scan_from].
  rewrite exec_plus, (run_all _ _ F).
  rewrite <- (app_nil_r rest) at 2. rewrite scan_from_skip.
  cbn [scan_from]. rewrite exec_plus. cbn. apply app_nil_r.
Qed.

(** X11.  [finalPolish] turns every text of white space only, and the empty
    text, into the empty text. *)
Theorem finalPolish_blank (text : jstring) :
  Forall (fun c => is_space c = true) text -> finalPolish text = [].
Proof.
  intros F. destruct text as [|c rest]; [vm_compute; reflexivity|].
  unfold finalPolish. rewrite collapse_blank by (congruence || assumption).
  vm_compute. reflexivity.
Qed.

Lemma finalPolish_blank_witness :
  Forall (fun c => is_space c = true) [" "%char; newline; tab] /\
  finalPolish [" "%char; newline; tab] = [].
Proof.
  assert (F : Forall (fun c => is_space c = true) [" "%char; newline; tab])
    by (repeat constructor).
  split; [exact F | exact (finalPolish_blank _ F)].
Defined.

(** ** The draws at aggressive strength *)

Lemma draw_below_1 (d : draw) : Qltb (value d) 1 = true.
Proof.
  destruct d as [q Hq]. cbn [value]. unfold in_unit in Hq.
  apply andb_true_iff in Hq. destruct Hq as [_ Hq]. exact Hq.
Qed.

Lemma draw_not_above_1 (d : draw) : Qltb 1 (value d) = false.
Proof.
  pose proof (draw_below_1 d) as H. unfold Qltb in *.
  apply negb_true_iff in H. apply negb_false_iff.
  apply Qle_bool_iff. destruct (Qlt_le_dec (value d) 1) as [L|L].
  - apply Qlt_le_weak. exact L.
  - apply Qle_bool_iff in L. rewrite L in H. discriminate H.
Qed.

Lemma contraction_rules_all (l : list (string * string)) : forall text g,
  foldM (fun result pr =>
           bind random (fun r =>
             if Qltb r 1
             then ret (replace_all (word_re (fst pr))
                                   (fun _ _ => lit (snd pr)) result)
             else ret result))
        l text g
  = Some (fold_left (fun result pr =>
                       replace_all (word_re (fst pr))
                                   (fun _ _ => lit (snd pr)) result)
                    l text,
          after_draws (length l) g).
Proof.
  induction l as [|pr l IH]; intros text g.
  - reflexivity.
  - cbn [foldM fold_left length]. unfold bind at 1. unfold bind at 1.
    unfold random. rewrite draw_below_1. unfold ret at 1.
    rewrite IH. reflexivity.
Qed.

(** X12.  At aggressive strength [addContractions] and
    [convertPassiveToActive] do not depend on the random draws:
    [addContractions] applies its twenty-three rules in order and takes one
    draw for each, [convertPassiveToActive] takes one draw and applies its
    four rewrites. *)
Theorem aggressive_stages_ignore_draws (text : jstring) (g : rng) :
  addContractions text aggressive g
  = Some (fold_left (fun result pr =>
                       replace_all (word_re (fst pr))
                                   (fun _ _ => lit (snd pr)) result)
                    contractions text,
          after_draws 23 g)
  /\
  convertPassiveToActive text aggressive g
  = Some (fold_left (fun result pr =>
                       replace_all (fst pr) (expand (snd pr)) result)
                    passive_rewrites text,
          after_draws 1 g).
Proof.
  split.
  - unfold addContractions. cbn [contraction_intensity].
    exact (contraction_rules_all contractions text g).
  - unfold convertPassiveToActive, bind, random. cbn [passive_intensity].
    rewrite draw_not_above_1. reflexivity.
Qed.

(** ** [reduceRepetition]: the pieces of the text *)

Lemma exec_group_plus (P : ascii -> bool) before m rest caps :
  exec (Group (PlusC P)) before (m ++ rest) = Some (m, caps) ->
  caps = [m] /\ m <> [].
Proof.
  intros E. split.
  - apply exec_matches in E.
    inversion E as [| | | | | |r1 b0 m0 rs0 c0 M0| | |]; subst.
    unfold PlusC in M0. inv_matches. reflexivity.
  - intros ->. exact (exec_nonempty (Group (PlusC P)) eq_refl _ _ _ E).
Qed.

Lemma Scan_split_group (P : ascii -> bool) before after segs :
  Scan (Group (PlusC P)) before after segs ->
  (forall acc, concat (split_segs acc segs) = rev acc ++ after) /\
  (forall acc w, In w (split_segs acc segs) ->
                 exists x y, rev acc ++ after = x ++ w ++ y).
Proof.
  induction 1 as [before E | before m caps E | before c rest segs E _ IH
                 | before c rest caps segs E _ _
                 | before m rest caps segs Hm E _ IH].
  - split.
    + intros acc. cbn. reflexivity.
    + intros acc w [<-|[]]. exists [], []. rewrite !app_nil_r. reflexivity.
  - exfalso. destruct (exec_sound _ _ _ _ _ E) as (rest & Er & _).
    symmetry in Er. apply app_eq_nil in Er. destruct Er as [-> _].
    exact (exec_nonempty (Group (PlusC P)) eq_refl _ _ _ E).
  - destruct IH as [IH1 IH2]. split.
    + intros acc. cbn [split_segs]. rewrite IH1. cbn [rev].
      rewrite <- app_assoc. reflexivity.
    + intros acc w Hin. cbn [split_segs] in Hin.
      destruct (IH2 _ _ Hin) as (x & y & Exy). exists x, y.
      rewrite <- Exy. cbn [rev]. rewrite <- app_assoc. reflexivity.
  - exfalso. exact (exec_nonempty (Group (PlusC P)) eq_refl _ _ _ E).
  - destruct IH as [IH1 IH2].
    destruct (exec_group_plus _ _ _ _ _ E) as [-> _]. split.
    + intros acc. cbn [split_segs app concat]. rewrite IH1. reflexivity.
    + intros acc w Hin. cbn [split_segs app] in Hin.
      destruct Hin as [<-|[<-|Hin]].
      * exists [], (m ++ rest). reflexivity.
      * exists (rev acc), rest. reflexivity.
      * destruct (IH2 _ _ Hin) as (x & y & Exy). cbn [rev app] in Exy.
        exists (rev acc ++ m ++ x), y. rewrite Exy, <- !app_assoc.
        reflexivity.
Qed.

(** [text.split(/(\s+)/).join('')] is the text. *)
Lemma split_group_concat (P : ascii -> bool) s :
  concat (split (Group (PlusC P)) s) = s.
Proof.
  unfold split.
  exact (proj1 (Scan_split_group P [] s _ (scan_Scan _ s)) []).
Qed.

Lemma split_group_within (P : ascii -> bool) s w :
  In w (split (Group (PlusC P)) s) -> exists x y, s = x ++ w ++ y.
Proof.
  unfold split. intros Hin.
  exact (proj2 (Scan_split_group P [] s _ (scan_Scan _ s)) [] w Hin).
Qed.

Lemma draws_at_least_next q g :
  draws_at_least q g -> draws_at_least q (fun n => g (S n)).
Proof.
  intros H n. apply H.
Qed.

Lemma repetition_step_keeps st used result word g :
  draws_at_least (repetition_chance st) g ->
  exists used' g',
    repetition_step st (used, result) word g
    = Some ((used', word :: result), g') /\
    draws_at_least (repetition_chance st) g'.
Proof.
  intros D.
  assert (No : Qltb (value (g 0)) (repetition_chance st) = false).
  { unfold Qltb. rewrite (D 0). reflexivity. }
  unfold repetition_step.
  destruct (1 <? JSMap.get_or_0 used (toLowerCase word)).
  - destruct (synonym_lookup (toLowerCase word)).
    + unfold bind, random. rewrite No. unfold ret.
      eexists. eexists. split; [reflexivity|].
      apply draws_at_least_next. exact D.
    + unfold bind, random. rewrite No. unfold ret.
      eexists. eexists. split; [reflexivity|].
      apply draws_at_least_next. exact D.
    + unfold ret. eexists. eexists. split; [reflexivity | exact D].
  - unfold ret. eexists. eexists. split; [reflexivity | exact D].
Qed.

Lemma repetition_loop_keeps st words : forall used result g,
  draws_at_least (repetition_chance st) g ->
  exists used' g',
    foldM (repetition_step st) words (used, result) g
    = Some ((used', rev words ++ result), g').
Proof.
  induction words as [|word words IH]; intros used result g D.
  - exists used, g. reflexivity.
  - destruct (repetition_step_keeps st used result word g D)
      as (used1 & g1 & E1 & D1).
    destruct (IH used1 (word :: result) g1 D1) as (used2 & g2 & E2).
    exists used2, g2. cbn [foldM]. unfold bind. rewrite E1, E2.
    cbn [rev]. rewrite <- app_assoc. reflexivity.
Qed.

(** X13.  When no draw falls below the replacement chance of the strength
    (0.7 at aggressive strength, 0.4 otherwise), [reduceRepetition] returns
    the text itself: cutting the text at its runs of white space and
    joining the pieces loses nothing, and no exception is thrown. *)
Theorem reduceRepetition_keeps_text (text : jstring) (st : strength) (g : rng) :
  draws_at_least (repetition_chance st) g ->
  result_of (reduceRepetition text st g) = Some text.
Proof.
  intros D. unfold reduceRepetition.
  destruct (repetition_loop_keeps st (split (Group (PlusC is_space)) text)
              [] [] g D) as (used & g' & E).
  cbv zeta. unfold bind, JSMap.t in *. rewrite E. unfold ret.
  cbn [result_of snd].
  rewrite app_nil_r, rev_involutive, split_group_concat. reflexivity.
Qed.

Lemma reduceRepetition_keeps_text_witness :
  draws_at_least (repetition_chance light) (constant_rng draw_half) /\
  result_of (reduceRepetition (lit "good good  good GOOD") light
               (constant_rng draw_half))
  = Some (lit "good good  good GOOD").
Proof.
  assert (D : draws_at_least (repetition_chance light) (constant_rng draw_half)).
  { intros n. reflexivity. }
  split; [exact D | exact (reduceRepetition_keeps_text _ light _ D)].
Defined.

(** ** [reduceRepetition]: when it returns *)

Lemma includes_within (p : jstring) : forall x y, includes (x ++ p ++ y) p = true.
Proof.
  induction x as [|c x IH]; intros y.
  - cbn [app]. destruct (p ++ y) eqn:E; cbn [includes];
      rewrite <- E, starts_with_app; reflexivity.
  - cbn [app includes]. rewrite IH. apply orb_true_r.
Qed.

Lemma streq_eq a b : streq a b = true -> a = b.
Proof.
  unfold streq. destruct (jstring_dec a b); [auto | discriminate].
Qed.

Lemma not_plain_word word :
  plain_word word = false ->
  toLowerCase word = lit "constructor" \/ toLowerCase word = lit "__proto__".
Proof.
  unfold plain_word, synonym_lookup.
  destruct (JSMap.get synonymMap (toLowerCase word)); [discriminate|].
  destruct (streq (toLowerCase word) (lit "constructor")) eqn:E1.
  - intros _. left. exact (streq_eq _ _ E1).
  - destruct (streq (toLowerCase word) (lit "__proto__")) eqn:E2.
    + intros _. right. exact (streq_eq _ _ E2).
    + discriminate.
Qed.

Lemma pieces_plain text :
  includes (toLowerCase text) (lit "constructor") = false ->
  includes (toLowerCase text) (lit "__proto__") = false ->
  Forall (fun word => plain_word word = true)
         (split (Group (PlusC is_space)) text).
Proof.
  intros H1 H2. apply Forall_forall. intros word Hin.
  destruct (plain_word word) eqn:Pw; [reflexivity | exfalso].
  destruct (split_group_within _ _ _ Hin) as (x & y & ->).
  unfold toLowerCase in H1, H2. rewrite !map_app in H1, H2.
  destruct (not_plain_word _ Pw) as [E|E]; unfold toLowerCase in E;
    rewrite E, includes_within in *; discriminate.
Qed.

Lemma repetition_step_returns st state word g :
  plain_word word = true ->
  exists state' g', repetition_step st state word g = Some (state', g').
Proof.
  intros Pw. destruct state as [used result]. unfold repetition_step.
  destruct (1 <? JSMap.get_or_0 used (toLowerCase word));
    [|unfold ret; eauto].
  unfold plain_word in Pw.
  destruct (synonym_lookup (toLowerCase word)); [|discriminate Pw|unfold ret; eauto].
  unfold bind, random.
  destruct (Qltb (value (g 0)) (repetition_chance st)); unfold ret; eauto.
  unfold pick, random_index, bind, random, ret. eauto.
Qed.

Lemma repetition_loop_returns st words : forall state g,
  Forall (fun word => plain_word word = true) words ->
  exists state' g', foldM (repetition_step st) words state g = Some (state', g').
Proof.
  induction words as [|word words IH]; intros state g F.
  - exists state, g. reflexivity.
  - inversion F as [|w l Pw Fl]; subst.
    destruct (repetition_step_returns st state word g Pw) as (s1 & g1 & E1).
    destruct (IH s1 g1 Fl) as (s2 & g2 & E2).
    exists s2, g2. cbn [foldM]. unfold bind. rewrite E1. exact E2.
Qed.

(** X14.  [reduceRepetition] throws its [TypeError] only on a text that
    holds "constructor" or "__proto__" in some case of letters: on every
    other text it returns, whatever the random draws. *)
Theorem reduceRepetition_returns (text : jstring) (st : strength) (g : rng) :
  includes (toLowerCase text) (lit "constructor") = false ->
  includes (toLowerCase text) (lit "__proto__") = false ->
  exists out g', reduceRepetition text st g = Some (out, g').
Proof.
  intros H1 H2. unfold reduceRepetition.
  destruct (repetition_loop_returns st _ ([], []) g (pieces_plain _ H1 H2))
    as (state & g' & E).
  cbv zeta. unfold bind, JSMap.t in *. rewrite E. unfold ret. eauto.
Qed.

Lemma reduceRepetition_returns_witness :
  includes (toLowerCase (lit "Good good good.")) (lit "constructor") = false /\
  includes (toLowerCase (lit "Good good good.")) (lit "__proto__") = false /\
  exists out g',
    reduceRepetition (lit "Good good good.") aggressive (constant_rng draw_zero)
    = Some (out, g').
Proof.
  split; [reflexivity|]. split; [reflexivity|].
  exact (reduceRepetition_returns (lit "Good good good.") aggressive
           (constant_rng draw_zero) eq_refl eq_refl).
Defined.

(* ================================================================== *)
(** * Patterns between two word boundaries *)
(* ================================================================== *)

Section Bounded.

Variable r : regex.
Variable Q : jstring -> Prop.

Hypothesis hit_shape :
  forall before m rest caps,
    exec r before (m ++ rest) = Some (m, caps) ->
    m <> [] /\ word_after m = true /\
    word_before before = false /\ word_after rest = false.

Lemma bounded_nonempty before after caps : exec r before after <> Some ([], caps).
Proof.
  intros E. destruct (hit_shape before [] after caps E) as (H & _). congruence.
Qed.

Lemma bounded_no_end_hit before m caps : exec r before [] <> Some (m, caps).
Proof.
  intros E. destruct (exec_sound _ _ _ _ _ E) as (rest & Er & _).
  symmetry in Er. apply app_eq_nil in Er. destruct Er as [-> ->].
  now apply bounded_nonempty in E.
Qed.

Lemma word_after_app_first m x : word_after m = true -> word_after (m ++ x) = true.
Proof. destruct m; [discriminate | auto]. Qed.

Lemma Scan_bounded_after before rest segs parts :
  Scan r before rest segs -> word_after rest = false ->
  Forall2 (rendered Q) segs parts -> word_after (concat parts) = false.
Proof.
  intros S W F.
  destruct S as [before E|before m caps E|before c rest segs E S
                |before c rest caps segs E S|before m rest caps segs Hm E S].
  - inversion F; subst. reflexivity.
  - now apply bounded_no_end_hit in E.
  - inversion F as [|g p segs' parts' Hp F']; subst. cbn in Hp. subst p.
    exact W.
  - now apply bounded_nonempty in E.
  - destruct (hit_shape _ _ _ _ E) as (_ & Fm & _).
    rewrite (word_after_app_first _ _ Fm) in W. discriminate.
Qed.

Lemma Scan_bounded before after segs :
  Scan r before after segs ->
  forall parts cur,
    Forall2 (rendered Q) segs parts ->
    (cur <> [] -> word_before before = true) ->
    forall t, In t (tokens_from cur (concat parts)) ->
              In t (tokens_from cur after) \/ Q t.
Proof.
  induction 1 as [before E|before m caps E|before c rest segs E S IH
                 |before c rest caps segs E S IH|before m rest caps segs Hm E S IH];
    intros parts cur F C1 t I.
  - inversion F; subst. left. exact I.
  - now apply bounded_no_end_hit in E.
  - inversion F as [|g p segs' parts' Hp F']; subst. cbn in Hp. subst p.
    cbn [concat app] in I. cbn [tokens_from] in I |- *.
    destruct (is_word c) eqn:Wc.
    + apply (IH parts' (toLower c :: cur) F'); [|exact I].
      intros _. cbn. exact Wc.
    + apply in_app_or in I. destruct I as [I|I].
      * left. apply in_or_app. left. exact I.
      * destruct (IH parts' [] F' ltac:(congruence) t I) as [I'|Qt].
        -- left. apply in_or_app. right. exact I'.
        -- right. exact Qt.
  - now apply bounded_nonempty in E.
  - destruct (hit_shape _ _ _ _ E) as (_ & Fm & Wb & Wa).
    destruct cur as [|d cur];
      [|specialize (C1 ltac:(discriminate)); congruence].
    inversion F as [|g p segs' parts' Hp F']; subst. cbn in Hp.
    cbn [concat] in I.
    rewrite tokens_from_app_sep in I
      by (eapply Scan_bounded_after; eauto).
    apply in_app_or in I. destruct I as [I|I]; [right; auto|].
    destruct (IH parts' [] F' ltac:(congruence) t I) as [I'|Qt].
    + left. rewrite tokens_from_app_sep by exact Wa.
      apply in_or_app. right. exact I'.
    + right. exact Qt.
Qed.

Variable f : jstring -> list jstring -> jstring.

Hypothesis new_words :
  forall before m rest caps,
    exec r before (m ++ rest) = Some (m, caps) ->
    forall t, In t (tokens (f m caps)) -> Q t.

Lemma Scan_bounded_rendered before after segs :
  Scan r before after segs ->
  Forall2 (rendered Q) segs (map (render f) segs).
Proof.
  induction 1 as [before E|before m caps E|before c rest segs E S IH
                 |before c rest caps segs E S IH|before m rest caps segs Hm E S IH];
    cbn [map render].
  - constructor.
  - now apply bounded_no_end_hit in E.
  - constructor; [reflexivity|exact IH].
  - now apply bounded_nonempty in E.
  - constructor; [|exact IH]. cbn. eapply new_words; eauto.
Qed.

Lemma replace_bounded s t :
  In t (tokens (replace_all r f s)) -> In t (tokens s) \/ Q t.
Proof.
  unfold replace_all, tokens. intros I.
  apply (Scan_bounded _ _ _ (scan_Scan r s) _ []
           (Scan_bounded_rendered _ _ _ (scan_Scan r s))); [|exact I].
  intros H. now elim H.
Qed.

End Bounded.

(* ================================================================== *)
(** * [reduceFormality]: the words that it removes *)
(* ================================================================== *)

Lemma same_lower_first (m w : jstring) :
  map toLower m = map toLower w -> word_after w = true -> word_after m = true.
Proof.
  destruct m as [|x m], w as [|y w]; try discriminate. cbn.
  intros E. injection E as Ex _. now rewrite (is_word_same_lower _ _ Ex).
Qed.

Lemma same_lower_last (m w : jstring) :
  map toLower m = map toLower w ->
  word_before (rev w) = true -> word_before (rev m) = true.
Proof.
  intros E. rewrite <- (rev_involutive m), <- (rev_involutive w) in E.
  rewrite !map_rev in E.
  apply (f_equal (@rev ascii)) in E. rewrite !rev_involutive in E.
  rewrite <- !map_rev in E.
  destruct (rev m) as [|x m'], (rev w) as [|y w']; try discriminate. cbn.
  injection E as Ex _. now rewrite (is_word_same_lower _ _ Ex).
Qed.

Lemma word_before_rev_last m x :
  word_before (rev m) = true -> word_before (rev m ++ x) = true.
Proof. destruct (rev m); [discriminate | auto]. Qed.

(** A phrase of the table between two [\b] matches from a word boundary to
    a word boundary. *)
Lemma phrase_shape (w : string) before m rest caps :
  word_after (lit w) = true -> word_before (rev (lit w)) = true ->
  exec (word_re_i w) before (m ++ rest) = Some (m, caps) ->
  m <> [] /\ word_after m = true /\
  word_before before = false /\ word_after rest = false.
Proof.
  intros W1 W2 E. apply exec_matches in E. unfold word_re_i in E.
  apply bounded_inner in E. destruct E as (M & X1 & X2).
  apply matches_seq_chr_i in M. destruct M as (L & _).
  pose proof (same_lower_first _ _ L W1) as F1.
  pose proof (same_lower_last _ _ L W2) as F2.
  rewrite (word_after_app_first _ rest F1) in X1.
  rewrite (word_before_rev_last _ before F2) in X2.
  repeat split.
  - destruct m; [discriminate F1 | discriminate].
  - exact F1.
  - destruct (word_before before); [discriminate X1 | reflexivity].
  - destruct (word_after rest); [discriminate X2 | reflexivity].
Qed.

(** The callback of [reduceFormality] writes the words of the replacement. *)
Lemma formality_callback_tokens (informal : string) (m : jstring) :
  tokens (if isCapitalized m then capitalize (lit informal) else lit informal)
  = tokens (lit informal).
Proof.
  destruct (isCapitalized m); [|reflexivity].
  apply tokens_same_lower. apply capitalize_lower.
Qed.

Lemma one_word_word (w : string) :
  one_word w = true ->
  lit w <> [] /\ Forall (fun c => is_word c = true) (lit w).
Proof.
  unfold one_word. destruct (lit w) as [|c cs] eqn:E; [discriminate|].
  intros H. split; [discriminate|].
  apply Forall_forall. rewrite forallb_forall in H. exact H.
Qed.

(** One step of the loop of [reduceFormality]: the words of the result are
    words of the text, without the formal word when the key is one word, or
    words of the replacement. *)
Lemma formality_step_tokens formal informal result t :
  word_after (lit formal) = true -> word_before (rev (lit formal)) = true ->
  In t (tokens (replace_all (word_re_i formal)
                  (fun m _ => if isCapitalized m then capitalize (lit informal)
                              else lit informal)
                  result)) ->
  (In t (tokens result) /\
   (one_word formal = true -> t <> map toLower (lit formal)))
  \/ In t (tokens (lit informal)).
Proof.
  intros W1 W2 I.
  destruct (one_word formal) eqn:O.
  - destruct (one_word_word _ O) as [Hne Hw].
    apply (replace_whole_words (word_re_i formal)
             (fun t => t <> map toLower (lit formal))
             (fun t => In t (tokens (lit informal)))) in I.
    + destruct I as [[I K]|I]; [left; split; auto | right; exact I].
    + exact (word_re_i_shape formal Hne Hw).
    + exact (word_re_i_kept formal Hne).
    + intros before m rest caps _ t' I'.
      rewrite formality_callback_tokens in I'. exact I'.
  - apply (replace_bounded (word_re_i formal)
             (fun t => In t (tokens (lit informal)))) in I.
    + destruct I as [I|I]; [left; split; [exact I | discriminate] | right; exact I].
    + intros before m rest caps E.
      exact (phrase_shape formal before m rest caps W1 W2 E).
    + intros before m rest caps _ t' I'.
      rewrite formality_callback_tokens in I'. exact I'.
Qed.

Lemma formality_loop_tokens (keys : list jstring) table : forall text t,
  (forall formal informal, In (formal, informal) table ->
     word_after (lit formal) = true /\ word_before (rev (lit formal)) = true) ->
  (forall formal informal, In (formal, informal) table ->
     forall t, In t (tokens (lit informal)) -> ~ In t keys) ->
  In t (tokens
          (fold_left
             (fun result fc =>
                let '(formal, informal) := fc in
                replace_all (word_re_i formal)
                  (fun m _ => if isCapitalized m then capitalize (lit informal)
                              else lit informal)
                  result)
             table text)) ->
  In t keys ->
  In t (tokens text) /\
  forall formal informal, In (formal, informal) table ->
    one_word formal = true -> t <> map toLower (lit formal).
Proof.
  induction table as [|[formal informal] table IH]; intros text t H1 H2 I K.
  - split; [exact I|]. intros f i [].
  - cbn [fold_left] in I.
    destruct (IH _ t (fun f i Hin => H1 f i (or_intror Hin))
                (fun f i Hin => H2 f i (or_intror Hin)) I K) as [I1 N1].
    destruct (H1 formal informal (or_introl eq_refl)) as [W1 W2].
    destruct (formality_step_tokens _ _ _ _ W1 W2 I1) as [[I0 N0]|Iq].
    + split; [exact I0|]. intros f i [E|Hin].
      * injection E as <- <-. exact N0.
      * exact (N1 f i Hin).
    + exfalso. exact (H2 formal informal (or_introl eq_refl) t Iq K).
Qed.

Lemma formality_table_checked table :
  forallb (fun fc => word_after (lit (fst fc))
                     && word_before (rev (lit (fst fc)))) table = true ->
  forallb (fun fc =>
             forallb (fun t =>
                        negb (existsb (streq t)
                                (map (fun fc => toLowerCase (lit (fst fc)))
                                     (filter (fun fc => one_word (fst fc)) table))))
                     (tokens (lit (snd fc)))) table = true ->
  forall text formal informal,
    In (formal, informal) table -> one_word formal = true ->
    test (word_re_i formal)
         (fold_left
            (fun result fc =>
               let '(formal, informal) := fc in
               replace_all (word_re_i formal)
                 (fun m _ => if isCapitalized m then capitalize (lit informal)
                             else lit informal)
                 result)
            table text) = false.
Proof.
  intros C1 C2 text formal informal Hin O.
  set (keys := map (fun fc => toLowerCase (lit (fst fc)))
                   (filter (fun fc => one_word (fst fc)) table)) in *.
  rewrite forallb_forall in C1, C2.
  match goal with |- test ?r ?s = false => destruct (test r s) eqn:T end;
    [exfalso | reflexivity].
  destruct (one_word_word _ O) as [Hne Hw].
  apply (test_word_token formal Hne Hw) in T.
  assert (K : In (map toLower (lit formal)) keys).
  { unfold keys. apply in_map_iff. exists (formal, informal).
    split; [reflexivity|]. apply filter_In. split; assumption. }
  assert (H1 : forall f i, In (f, i) table ->
            word_after (lit f) = true /\ word_before (rev (lit f)) = true).
  { intros f i Hfi. specialize (C1 _ Hfi). cbn [fst] in C1.
    apply andb_true_iff in C1. exact C1. }
  assert (H2 : forall f i, In (f, i) table ->
            forall t, In t (tokens (lit i)) -> ~ In t keys).
  { intros f i Hfi t It Kt. specialize (C2 _ Hfi). cbn [snd] in C2.
    rewrite forallb_forall in C2. specialize (C2 _ It).
    apply negb_true_iff in C2.
    assert (X : existsb (streq t) keys = true).
    { apply existsb_exists. exists t. split; [exact Kt|].
      unfold streq. destruct (jstring_dec t t); [reflexivity | congruence]. }
    rewrite X in C2. discriminate C2. }
  destruct (formality_loop_tokens keys table text _ H1 H2 T K) as [_ N].
  exact (N formal informal Hin O eq_refl).
Qed.

(** X16.  After [reduceFormality] none of the keys of its table that are one
    word, as "utilize" or "therefore", stands in the text as a whole word,
    in any case of letters: every one is replaced, and no replacement
    brings a key back. *)
Theorem reduceFormality_removes_formal_words (text : jstring) (tn : tone)
  (st : strength) (formal informal : string) :
  In (formal, informal) (replacements_at st) -> one_word formal = true ->
  test (word_re_i formal) (reduceFormality text tn st) = false.
Proof.
  unfold reduceFormality, replacements_at.
  destruct (is_aggressive st);
    apply formality_table_checked; vm_compute; reflexivity.
Qed.

Lemma reduceFormality_removes_formal_words_witness :
  In ("utilize", "use")%string (replacements_at medium) /\
  one_word "utilize" = true /\
  reduceFormality (lit "We UTILIZE it, therefore it works.") casual medium
  = lit "We Use it, so it works." /\
  test (word_re_i "utilize")
       (reduceFormality (lit "We UTILIZE it, therefore it works.") casual medium)
  = false.
Proof.
  assert (I : In ("utilize", "use")%string (replacements_at medium))
    by (left; reflexivity).
  split; [exact I|]. split; [reflexivity|]. split; [vm_compute; reflexivity|].
  exact (reduceFormality_removes_formal_words _ casual medium _ _ I eq_refl).
Defined.

(* ================================================================== *)
(** * The sentences of a text *)
(* ================================================================== *)

Lemma rmatch_PlusC (P : ascii -> bool) before after caps :
  rmatch (PlusC P) (before, after, caps) =
  match after with
  | c :: rest =>
      if P c
      then map (fun ba => (fst ba, snd ba, caps)) (star_states P (c :: before) rest)
      else []
  | [] => []
  end.
Proof.
  unfold PlusC. rewrite rmatch_Seq. cbn [rmatch].
  destruct after as [|c rest]; [reflexivity|].
  destruct (P c); [|reflexivity].
  cbn [flat_map]. rewrite app_nil_r. apply rmatch_StarC.
Qed.

(** The states of a greedy run after the first stop inside the run. *)
Lemma star_states_tail (P : ascii -> bool) after : forall before,
  exists l,
    star_states P before after
    = (rev (run P after) ++ before, after_run P after) :: l /\
    Forall (fun ba => match snd ba with
                      | c :: _ => P c = true
                      | [] => False
                      end) l.
Proof.
  induction after as [|c rest IH]; intros before; cbn [star_states run after_run].
  - exists []. split; [reflexivity | constructor].
  - destruct (P c) eqn:Pc.
    + destruct (IH (c :: before)) as (l & E & F). rewrite E.
      exists (l ++ [(before, c :: rest)]). split.
      * cbn [rev app]. rewrite <- app_assoc. reflexivity.
      * apply Forall_app. split; [exact F|].
        constructor; [exact Pc | constructor].
    + exists []. split; [reflexivity | constructor].
Qed.

Lemma flat_map_no_state (Q : ascii -> bool) (P : ascii -> bool) caps l :
  (forall c, P c = true -> Q c = false) ->
  Forall (fun ba : jstring * jstring =>
            match snd ba with c :: _ => P c = true | [] => False end) l ->
  flat_map (rmatch (PlusC Q)) (map (fun ba => (fst ba, snd ba, caps)) l) = [].
Proof.
  intros D. induction 1 as [|[b a] l H _ IH]; [reflexivity|].
  cbn [map flat_map fst snd]. rewrite IH, app_nil_r, rmatch_PlusC.
  cbn [snd] in H. destruct a as [|c a]; [destruct H|].
  rewrite (D c H). reflexivity.
Qed.

(** A run of one class followed by a run of a disjoint class: the match is
    the two longest runs, or there is none. *)
Lemma exec_two_runs (P Q : ascii -> bool) before after :
  (forall c, P c = true -> Q c = false) ->
  exec (Seq (PlusC P) (PlusC Q)) before after =
  match run P after with
  | [] => None
  | a => match run Q (after_run P after) with
         | [] => None
         | b => Some (a ++ b, [])
         end
  end.
Proof.
  intros D. unfold exec. rewrite rmatch_Seq, rmatch_PlusC.
  destruct after as [|c rest]; [reflexivity|]. cbn [run after_run].
  destruct (P c) eqn:Pc; [|reflexivity].
  destruct (star_states_tail P rest (c :: before)) as (l & -> & F).
  cbn [map flat_map fst snd]. rewrite (flat_map_no_state Q P [] l D F).
  rewrite app_nil_r, rmatch_PlusC.
  destruct (after_run P rest) as [|q rest'] eqn:A; [reflexivity|].
  cbn [run]. destruct (Q q) eqn:Qq; [|reflexivity].
  destruct (star_states_hd Q rest' (q :: rev (run P rest) ++ c :: before))
    as (l' & ->).
  cbn [map fst snd].
  replace (rev (run Q rest') ++ q :: rev (run P rest) ++ c :: before)
    with (rev ((c :: run P rest) ++ q :: run Q rest') ++ before).
  - rewrite firstn_rev_app. reflexivity.
  - rewrite rev_app_distr. cbn [rev]. rewrite <- !app_assoc. reflexivity.
Qed.

Lemma terminator_disjoint c :
  negb (one_of ".!?" c) = true -> one_of ".!?" c = false.
Proof. apply negb_true_iff. Qed.

Lemma exec_sentence before after :
  exec sentence_re before after =
  match run (fun c => negb (terminator c)) after with
  | [] => None
  | a => match run terminator (after_run (fun c => negb (terminator c)) after) with
         | [] => None
         | b => Some (a ++ b, [])
         end
  end.
Proof.
  exact (exec_two_runs (fun c => negb (one_of ".!?" c)) (one_of ".!?")
           before after terminator_disjoint).
Qed.

Lemma run_app_stop (P : ascii -> bool) x y :
  Forall (fun c => P c = true) x ->
  match y with c :: _ => P c = false | [] => True end ->
  run P (x ++ y) = x /\ after_run P (x ++ y) = y.
Proof.
  intros F Hy. induction F as [|c x Hc _ IH]; cbn [app].
  - destruct y as [|d y]; [split; reflexivity|]. cbn [run after_run].
    rewrite Hy. split; reflexivity.
  - cbn [run after_run]. rewrite Hc. destruct IH as [-> ->].
    split; reflexivity.
Qed.

Lemma app_cancel3 (x y z w : jstring) : x ++ y ++ z = (x ++ y) ++ w -> z = w.
Proof.
  rewrite <- app_assoc. intros E. apply app_inv_head in E.
  apply app_inv_head in E. exact E.
Qed.

(** What follows the sentence that starts at a place is what follows its
    two runs. *)
Lemma exec_sentence_rest before m rest caps :
  exec sentence_re before (m ++ rest) = Some (m, caps) ->
  exists a b,
    m = a ++ b /\ a <> [] /\ b <> [] /\
    Forall (fun c => negb (terminator c) = true) a /\
    Forall (fun c => terminator c = true) b /\
    caps = [] /\
    match rest with c :: _ => terminator c = false | [] => True end.
Proof.
  rewrite exec_sentence.
  set (nt := fun c => negb (terminator c)).
  intros E.
  pose proof (run_Forall nt (m ++ rest)) as Fa.
  pose proof (run_app_after_run nt (m ++ rest)) as Ea.
  destruct (run nt (m ++ rest)) as [|a0 a] eqn:Ra; [discriminate E|].
  pose proof (run_Forall terminator (after_run nt (m ++ rest))) as Fb.
  pose proof (run_app_after_run terminator (after_run nt (m ++ rest))) as Eb.
  pose proof (after_run_hd terminator (after_run nt (m ++ rest))) as Hb.
  destruct (run terminator (after_run nt (m ++ rest))) as [|b0 b] eqn:Rb;
    [discriminate E|].
  injection E as Em <-.
  change ((a0 :: a) ++ b0 :: b = m) in Em.
  assert (Er : after_run terminator (after_run nt (m ++ rest)) = rest).
  { apply (app_cancel3 (a0 :: a) (b0 :: b)). rewrite Eb, Ea, Em. reflexivity. }
  rewrite Er in Hb.
  exists (a0 :: a), (b0 :: b). repeat split; auto; discriminate.
Qed.

(** The sentence that starts at a place does not depend on what follows
    the characters after it. *)
Lemma exec_sentence_extend before m rest caps tail :
  exec sentence_re before (m ++ rest) = Some (m, caps) ->
  match rest ++ tail with c :: _ => terminator c = false | [] => True end ->
  exec sentence_re before (m ++ rest ++ tail) = Some (m, caps).
Proof.
  intros E Hrt.
  destruct (exec_sentence_rest _ _ _ _ E)
    as (a & b & -> & Ha & Hb & Fa & Fb & -> & _).
  rewrite exec_sentence. rewrite <- app_assoc.
  destruct (run_app_stop (fun c => negb (terminator c)) a (b ++ rest ++ tail) Fa)
    as [-> ->].
  { destruct b as [|b0 b]; [congruence|]. cbn [app]. inversion Fb; subst.
    apply negb_false_iff. assumption. }
  destruct (run_app_stop terminator b (rest ++ tail) Fb Hrt) as [-> _].
  destruct a; [congruence|]. destruct b; [congruence|]. reflexivity.
Qed.

Lemma exec_sentence_at_terminator before c rest :
  terminator c = true -> exec sentence_re before (c :: rest) = None.
Proof.
  intros Hc. rewrite exec_sentence. cbn [run]. rewrite Hc. reflexivity.
Qed.

Lemma scan_from_keep r before c rest :
  exec r before (c :: rest) = None ->
  scan_from r before (c :: rest) 0 = Keep c :: scan_from r (c :: before) rest 0.
Proof.
  intros E. cbn [scan_from]. rewrite E. reflexivity.
Qed.

Lemma scan_from_hit r before m rest caps :
  m <> [] -> exec r before (m ++ rest) = Some (m, caps) ->
  scan_from r before (m ++ rest) 0
  = Hit m caps :: scan_from r (rev m ++ before) rest 0.
Proof.
  intros Hm E. destruct m as [|c m']; [congruence|].
  cbn [app scan_from]. cbn [app] in E. rewrite E.
  rewrite scan_from_skip. cbn [rev]. rewrite <- app_assoc. reflexivity.
Qed.

Lemma last_suffix (A : Type) (d : A) (m rest : list A) :
  rest <> [] -> last (m ++ rest) d = last rest d.
Proof.
  intros Hr. induction m as [|x m IH]; [reflexivity|].
  cbn [app]. rewrite <- IH. destruct (m ++ rest) eqn:E; [|reflexivity].
  apply app_eq_nil in E. destruct E as [_ E]. congruence.
Qed.

Lemma last_In (A : Type) (d : A) (s : list A) : s <> [] -> In (last s d) s.
Proof.
  induction s as [|x s IH]; [congruence|]. intros _.
  destruct s as [|y s]; [left; reflexivity|].
  right. apply IH. discriminate.
Qed.

Lemma closed_tail (c : ascii) rest :
  terminator (last (c :: rest) "."%char) = true ->
  terminator (last rest "."%char) = true.
Proof.
  destruct rest; [reflexivity | exact (fun H => H)].
Qed.

Lemma closed_not_open (s : jstring) :
  s <> [] -> terminator (last s "."%char) = true ->
  ~ Forall (fun c => one_of ".!?" c = false) s.
Proof.
  intros Hne Hl F. rewrite Forall_forall in F.
  specialize (F _ (last_In _ "."%char s Hne)).
  unfold terminator in Hl. rewrite F in Hl. discriminate Hl.
Qed.

(** The text after the last terminator yields no sentence and changes
    none. *)
Lemma Scan_drop_tail tail before body segs :
  Scan sentence_re before body segs ->
  terminator (last body "."%char) = true ->
  Forall (fun c => terminator c = false) tail ->
  hits (scan_from sentence_re before (body ++ tail) 0) = hits segs.
Proof.
  intros S. revert tail.
  induction S as [before E|before m caps E|before c rest segs E S IH
                 |before c rest caps segs E S IH|before m rest caps segs Hm E S IH];
    intros tail Hl Ft.
  - cbn [app]. apply (no_terminator_no_hit before tail).
    + apply scan_from_Scan.
    + exact Ft.
  - exfalso. destruct (exec_sound _ _ _ _ _ E) as (rest & Er & _).
    symmetry in Er. apply app_eq_nil in Er. destruct Er as [-> _].
    exact (sentence_re_nonempty _ _ _ E).
  - destruct (one_of ".!?" c) eqn:Hc.
    + cbn [app]. rewrite scan_from_keep
        by (apply exec_sentence_at_terminator; exact Hc).
      cbn [hits]. apply IH; [|exact Ft]. exact (closed_tail c rest Hl).
    + exfalso. apply (closed_not_open (c :: rest)); [discriminate | exact Hl|].
      exact (sentence_re_none _ _ _ E Hc).
  - exfalso. exact (sentence_re_nonempty _ _ _ E).
  - assert (Hrt : match rest ++ tail with
                  | c :: _ => terminator c = false
                  | [] => True
                  end).
    { destruct (exec_sentence_rest _ _ _ _ E) as (_ & _ & _ & _ & _ & _ & _ & _ & Hr).
      destruct rest as [|d rest'].
      - cbn [app]. destruct Ft; [exact I | assumption].
      - exact Hr. }
    rewrite <- app_assoc.
    rewrite (scan_from_hit _ _ _ _ _ Hm
               (exec_sentence_extend _ _ _ _ _ E Hrt)).
    cbn [hits]. f_equal. apply IH; [|exact Ft].
    destruct rest as [|d rest']; [reflexivity|].
    rewrite last_suffix in Hl by discriminate. exact Hl.
Qed.

(** A text that ends a sentence and is not made of terminators only holds
    a sentence. *)
Lemma Scan_no_sentence before after segs :
  Scan sentence_re before after segs -> hits segs = [] ->
  terminator (last after "."%char) = true ->
  Forall (fun c => terminator c = true) after.
Proof.
  induction 1 as [before E|before m caps E|before c rest segs E S IH
                 |before c rest caps segs E S IH|before m rest caps segs Hm E S IH];
    cbn [hits]; intros H Hl; try discriminate H.
  - constructor.
  - destruct (one_of ".!?" c) eqn:Hc.
    + constructor; [exact Hc|]. apply IH; [exact H|].
      exact (closed_tail c rest Hl).
    + exfalso. apply (closed_not_open (c :: rest)); [discriminate | exact Hl|].
      exact (sentence_re_none _ _ _ E Hc).
Qed.

Lemma match_sentences_drop_tail (pre tail : jstring) (c : ascii) :
  terminator c = true ->
  (exists d, In d pre /\ terminator d = false) ->
  Forall (fun d => terminator d = false) tail ->
  match_sentences (pre ++ c :: tail) = match_sentences (pre ++ [c]).
Proof.
  intros Hc (d & Hd & Nd) Ft.
  assert (Hl : terminator (last (pre ++ [c]) "."%char) = true).
  { rewrite last_suffix by discriminate. exact Hc. }
  pose proof (Scan_drop_tail tail [] (pre ++ [c]) _
                (scan_Scan sentence_re (pre ++ [c])) Hl Ft) as E.
  rewrite <- app_assoc in E. cbn [app] in E.
  unfold match_sentences, match_all. unfold scan in *. rewrite E.
  destruct (hits (scan_from sentence_re [] (pre ++ [c]) 0)) eqn:H;
    [exfalso | reflexivity].
  pose proof (Scan_no_sentence [] (pre ++ [c]) _
                (scan_Scan sentence_re (pre ++ [c])) H Hl) as F.
  rewrite Forall_forall in F.
  rewrite (F d) in Nd; [discriminate Nd|]. apply in_or_app. left. exact Hd.
Qed.

(** X17.  The stages that work sentence by sentence lose the end of a text
    that does not close its last sentence: whatever follows the last [.],
    [!] or [?] is dropped by [makeCasual], [makeAcademic], [makeCreative],
    [injectPersonality] and [varySentenceStructure], which return what they
    return on the text cut after that character. *)
Theorem unfinished_sentence_is_dropped (pre tail : jstring) (c : ascii)
  (tn : tone) (st : strength) :
  terminator c = true ->
  (exists d, In d pre /\ terminator d = false) ->
  Forall (fun d => terminator d = false) tail ->
  makeCasual (pre ++ c :: tail) st = makeCasual (pre ++ [c]) st /\
  makeAcademic (pre ++ c :: tail) st = makeAcademic (pre ++ [c]) st /\
  makeCreative (pre ++ c :: tail) st = makeCreative (pre ++ [c]) st /\
  injectPersonality (pre ++ c :: tail) tn = injectPersonality (pre ++ [c]) tn /\
  varySentenceStructure (pre ++ c :: tail) st
  = varySentenceStructure (pre ++ [c]) st.
Proof.
  intros Hc Hd Ft.
  pose proof (match_sentences_drop_tail pre tail c Hc Hd Ft) as E.
  unfold makeCasual, makeAcademic, makeCreative, add_markers,
    injectPersonality, varySentenceStructure.
  rewrite E. repeat split; reflexivity.
Qed.




Lemma unfinished_sentence_is_dropped_witness :
  terminator "."%char = true /\
  (exists d, In d (lit "Hello there") /\ terminator d = false) /\
  Forall (fun d => terminator d = false) (lit " How are you") /\
  injectPersonality (lit "Hello there" ++ "."%char :: lit " How are you") casual
  = injectPersonality (lit "Hello there" ++ ["."%char]) casual /\
  result_of (injectPersonality (lit "Hello there. How are you") casual
               (constant_rng draw_half))
  = Some (lit "Hello there.").
Proof.
  assert (Hd : exists d, In d (lit "Hello there") /\ terminator d = false).
  { exists "H"%char. split; [left; reflexivity | reflexivity]. }
  assert (Ft : Forall (fun d => terminator d = false) (lit " How are you")).
  { repeat constructor. }
  split; [reflexivity|]. split; [exact Hd|]. split; [exact Ft|].
  split; [|vm_compute; reflexivity].
  exact (proj1 (proj2 (proj2 (proj2
           (unfinished_sentence_is_dropped (lit "Hello there")
              (lit " How are you") "."%char casual light eq_refl Hd Ft))))).
Defined.

(* ================================================================== *)
(** * The first character of a polished text *)
(* ================================================================== *)

Lemma replace_head r f (c : ascii) t :
  nullable r = false ->
  (forall m rest caps,
     matches r [] (c :: m) rest caps -> exists u, f (c :: m) caps = c :: u) ->
  exists u, replace_all r f (c :: t) = c :: u.
Proof.
  intros Hn Hf. unfold replace_all, scan. cbn [scan_from].
  destruct (exec r [] (c :: t)) as [[m caps]|] eqn:E.
  - destruct m as [|c' m'].
    + exfalso. exact (exec_nonempty r Hn _ _ _ E).
    + destruct (exec_sound _ _ _ _ _ E) as (rest & Er & M).
      cbn [app] in Er. injection Er as <- _.
      destruct (Hf _ _ _ M) as (u & Eu).
      cbn [map render concat]. rewrite Eu. cbn [app]. eexists. reflexivity.
  - cbn [map render concat app]. eexists. reflexivity.
Qed.

Ltac head_of_match c :=
  inv_matches;
  match goal with
  | H : _ = c :: _ |- _ => cbn [app] in H; injection H as ? ?; subst
  end.

Lemma space_led_head (rs : list regex) f (c : ascii) t :
  is_space c = false ->
  exists u, replace_all (Seq (PlusC is_space) (seq rs)) f (c :: t) = c :: u.
Proof.
  intros Hc. apply replace_head; [reflexivity|].
  intros m rest caps M. exfalso. unfold PlusC in M.
  inversion M as [| |r1 r2 b m1 m2 rs0 c1 c2 M1 M2| | | | | | |]; subst.
  clear M M2. head_of_match c. congruence.
Qed.

Lemma collapse_head (c : ascii) t :
  is_space c = false ->
  exists u, replace_all (PlusC is_space) (fun _ _ => lit " ") (c :: t) = c :: u.
Proof.
  intros Hc. apply replace_head; [reflexivity|].
  intros m rest caps M. exfalso. unfold PlusC in M.
  head_of_match c. congruence.
Qed.

Lemma space_after_head (c : ascii) t :
  exists u, replace_all (seq [Group (Cls punct); StarC is_space])
                        (expand [G 1; T " "]) (c :: t) = c :: u.
Proof.
  apply replace_head; [reflexivity|].
  intros m rest caps M. cbn [seq] in M.
  head_of_match c. cbn. eexists. reflexivity.
Qed.

Lemma squeeze_head (d c : ascii) t :
  exists u, replace_all (PlusC (Ascii.eqb d))
                        (fun _ _ => lit (String d EmptyString)) (c :: t)
            = c :: u.
Proof.
  apply replace_head; [reflexivity|].
  intros m rest caps M. unfold PlusC in M.
  head_of_match c.
  match goal with H : Ascii.eqb _ _ = true |- _ => apply Ascii.eqb_eq in H; subst end.
  eexists. reflexivity.
Qed.

Lemma capitalize_after_head (c : ascii) t :
  exists u,
    replace_all
      (seq [Group (seq [Cls (one_of ".!?"); PlusC is_space]); Group (Cls is_word)])
      (fun _ caps => nth 0 caps [] ++ toUpperCase (nth 1 caps [])) (c :: t)
    = c :: u.
Proof.
  apply replace_head; [reflexivity|].
  intros m rest caps M. cbn [seq] in M. unfold PlusC in M.
  head_of_match c. cbn [app nth]. eexists. reflexivity.
Qed.

Lemma trimEnd_head (c : ascii) u :
  is_space c = false -> exists v, trimEnd (c :: u) = c :: v.
Proof.
  intros Hc. destruct (trimEnd_prefix (c :: u)) as (w & E & _).
  destruct (trimEnd (c :: u)) as [|x v] eqn:T.
  - exfalso. unfold trimEnd in T.
    apply (f_equal (@rev ascii)) in T. rewrite rev_involutive in T.
    change (rev []) with (@nil ascii) in T. apply trimStart_blank_iff in T.
    rewrite Forall_forall in T.
    rewrite (T c) in Hc; [discriminate Hc|].
    apply in_rev. rewrite rev_involutive. left. reflexivity.
  - cbn [app] in E. injection E as <- _. eexists. reflexivity.
Qed.

Lemma trim_head (c : ascii) u :
  is_space c = false -> exists v, trim (c :: u) = c :: v.
Proof.
  intros Hc. unfold trim. cbn [trimStart]. rewrite Hc.
  apply trimEnd_head. exact Hc.
Qed.

(** X19.  When the text does not begin with white space, the polished text
    begins with the first character of the text in upper case.  (With
    white space in front, the first letter can stay in lower case.) *)
Theorem finalPolish_capitalizes_first (c : ascii) (rest : jstring) :
  is_space c = false ->
  exists tail, finalPolish (c :: rest) = toUpper c :: tail.
Proof.
  intros Hc. unfold finalPolish.
  destruct (collapse_head c rest Hc) as (u1 & ->).
  change (seq [PlusC is_space; Group (Cls punct)])
    with (Seq (PlusC is_space) (seq [Group (Cls punct)])).
  destruct (space_led_head [Group (Cls punct)] (expand [G 1]) c u1 Hc)
    as (u2 & ->).
  destruct (space_after_head c u2) as (u3 & ->).
  destruct (squeeze_head "."%char c u3) as (u4 & ->).
  destruct (squeeze_head "?"%char c u4) as (u5 & ->).
  destruct (squeeze_head "!"%char c u5) as (u6 & ->).
  destruct (capitalize_after_head c u6) as (u7 & ->).
  unfold capitalize. cbn [charAt0 slice1 tl toUpperCase map app].
  assert (Hc' : is_space (toUpper c) = false) by (rewrite toUpper_space; exact Hc).
  change (seq [PlusC is_space; chr "-"; PlusC is_space])
    with (Seq (PlusC is_space) (seq [chr "-"; PlusC is_space])).
  destruct (space_led_head [chr "-"%char; PlusC is_space]
              (fun _ _ => lit " - ") (toUpper c) u7 Hc') as (u8 & ->).
  change (seq [PlusC is_space; chr ","])
    with (Seq (PlusC is_space) (seq [chr ","%char])).
  destruct (space_led_head [chr ","%char] (fun _ _ => lit ",") (toUpper c) u8 Hc')
    as (u9 & ->).
  change (seq [PlusC is_space; chr "."])
    with (Seq (PlusC is_space) (seq [chr "."%char])).
  destruct (space_led_head [chr "."%char] (fun _ _ => lit ".") (toUpper c) u9 Hc')
    as (u10 & ->).
  apply trim_head. exact Hc'.
Qed.

Lemma finalPolish_capitalizes_first_witness :
  is_space "h"%char = false /\
  finalPolish ("h"%char :: lit "ello ,world")
  = toUpper "h"%char :: lit "ello, world".
Proof.
  split; [reflexivity|].
  destruct (finalPolish_capitalizes_first "h"%char (lit "ello ,world") eq_refl)
    as (tail & E).
  rewrite E. vm_compute in E. injection E as <-. reflexivity.
Defined.

(* ================================================================== *)
(** * From the command line to the text written *)
(* ================================================================== *)

Lemma tone_of_tones s : In s CLI.tones -> exists tn, CLI.tone_of s = Some tn.
Proof.
  intros [<- | [<- | [<- | [<- | []]]]]; eexists; reflexivity.
Qed.

Lemma humanize_loop_polished tn st analysis n : forall text g out,
  result_of (CLI.humanize_loop (S n) tn st analysis text g) = Some out ->
  exists r, out = finalPolish r.
Proof.
  induction n as [|n IH]; intros text g out H.
  - cbn [CLI.humanize_loop] in H.
    destruct (bind_result _ _ _ _ _ _ H) as (a & g1 & Ha & Hr).
    apply ret_result in Hr. subst a.
    apply (applyHumanization_polished text tn st analysis g).
    rewrite Ha. reflexivity.
  - change (CLI.humanize_loop (S (S n)) tn st analysis text)
      with (bind (applyHumanization text tn st analysis)
                 (fun r => CLI.humanize_loop (S n) tn st analysis r)) in H.
    destruct (bind_result _ _ _ _ _ _ H) as (a & g1 & Ha & Hr).
    exact (IH _ _ _ Hr).
Qed.

(** X20.  Whatever the command line, the options that [parseArgs] returns
    name a tone of the engine and make [processText] run at least one round
    of [applyHumanization], so that the text it writes is a polished one:
    single spaces only, no newline or tab, no space at either end.  This
    holds with and without an output file, whatever the file system does. *)
Theorem processText_writes_polished_text (toFixed : nat -> R -> jstring)
  (args : list jstring) (o : CLI.Options) :
  CLI.parseArgs args = CLI.Returned o ->
  exists tn,
    CLI.tone_of (CLI.tone o) = Some tn /\
    forall write text g out g',
      CLI.processText toFixed write text tn
                      (CLI.strength_of (CLI.strength o))
                      (CLI.passes o) (CLI.output o) g
      = Some (CLI.Returned out, g') ->
      well_spaced out.
Proof.
  intros E. destruct (parseArgs_valid_options _ _ E) as (Vt & _ & Vp).
  destruct (tone_of_tones _ Vt) as [tn Htn]. exists tn. split; [exact Htn|].
  intros write text g out g'. unfold CLI.processText.
  destruct ((length text =? 0) || (length (trim text) =? 0)).
  - unfold ret. intros H. discriminate H.
  - destruct (Z.to_nat (CLI.passes o)) as [|n] eqn:Hn; [lia|].
    intros H.
    assert (R0 : result_of
                   (CLI.humanize_loop (S n) tn
                      (CLI.strength_of (CLI.strength o))
                      (analyzeAIPatterns toFixed text) text g) = Some out).
    { cbv zeta in H. unfold bind in H.
      destruct (CLI.humanize_loop (S n) tn (CLI.strength_of (CLI.strength o))
                  (analyzeAIPatterns toFixed text) text g) as [[a g1]|];
        [|discriminate H].
      destruct (CLI.truthy (CLI.output o));
        [destruct (write (CLI.show (CLI.output o)) a)|];
        unfold ret in H; try discriminate H;
        injection H as -> _; reflexivity. }
    destruct (humanize_loop_polished _ _ _ _ _ _ _ R0) as [r ->].
    apply tidy_well_spaced; apply finalPolish_tidy.
Qed.

(** ** A run of [processText] *)

Lemma Rltb_true (x y : R) : (x < y)%R -> Rltb x y = true.
Proof. intros H. unfold Rltb. destruct (Rlt_dec x y); [reflexivity | contradiction]. Qed.

Lemma Rltb_false (x y : R) : (y <= x)%R -> Rltb x y = false.
Proof.
  intros H. unfold Rltb. destruct (Rlt_dec x y) as [L|]; [|reflexivity].
  exfalso. exact (Rlt_not_le _ _ L H).
Qed.

(** The gates of [applyHumanization] on the analysis of "hello  world.":
    the stages on formality, repetition and the passive voice are left out,
    those on the sentence structure and the contractions run. *)
Lemma hello_world_gates :
  let a := analyzeAIPatterns no_digits (lit "hello  world.") in
  Rgtb (formalityScore a) 0.1 = false /\
  Rgtb (repetitionScore a) 0.05 = false /\
  Rgtb (passiveScore a) 0.2 = false /\
  Rltb (sentenceVariety a) 0.4 = true /\
  Rltb (contractionScore a) 0.2 = true.
Proof.
  assert (Hw : words_of (lit "hello  world.") <> []) by (vm_compute; discriminate).
  assert (Hs : sentences_of (lit "hello  world.") <> []) by (vm_compute; discriminate).
  cbv zeta. regular_branch Hw Hs.
  replace (formalCount (words_of (lit "hello  world."))) with 0
    by (vm_compute; reflexivity).
  replace (JSMap.values (wordFreq (words_of (lit "hello  world.")))) with [1; 1]
    by (vm_compute; reflexivity).
  replace (count_passive (lit "hello  world.")) with 0
    by (vm_compute; reflexivity).
  replace (count_contractions (lit "hello  world.")) with 0
    by (vm_compute; reflexivity).
  replace (sentenceLengths (sentences_of (lit "hello  world."))) with [2]
    by (vm_compute; reflexivity).
  replace (length (words_of (lit "hello  world."))) with 2
    by (vm_compute; reflexivity).
  replace (length (sentences_of (lit "hello  world."))) with 1
    by (vm_compute; reflexivity).
  rewrite (variance_uniform 2 [2]) by first [discriminate | repeat constructor].
  rewrite sqrt_0.
  unfold sum_by, excess. cbn [fold_left Nat.ltb Nat.leb INR].
  assert (Z0 : forall x : R, (0 / x = 0)%R)
    by (intros x; unfold Rdiv; apply Rmult_0_l).
  replace ((0 + 0 + 0) / (1 + 1))%R with 0%R by lra.
  rewrite !Z0, Rmult_0_l, !Rmin_left by lra.
  unfold Rgtb.
  repeat split; first [apply Rltb_false; lra | apply Rltb_true; lra].
Qed.

Lemma processText_example (write : jstring -> jstring -> option jstring) :
  exists g',
    CLI.processText no_digits write (lit "hello  world.") professional light 1
      CLI.Null (constant_rng draw_half)
    = Some (CLI.Returned (lit "Hello world."), g').
Proof.
  destruct hello_world_gates as (G1 & G2 & G3 & G4 & G5).
  unfold CLI.processText.
  replace ((length (lit "hello  world.") =? 0)
           || (length (trim (lit "hello  world.")) =? 0)) with false
    by (vm_compute; reflexivity).
  cbv zeta. change (Z.to_nat 1) with 1.
  cbn [CLI.humanize_loop]. unfold applyHumanization. cbv zeta.
  cbn [pass_loop]. unfold humanize_pass.
  rewrite G1, G2, G3, G4, G5.
  eexists. vm_compute. reflexivity.
Qed.

Lemma processText_writes_polished_text_witness :
  CLI.parseArgs (map lit ["-t"; "professional"; "-s"; "light"; "-p"; "1"]%string)
  = CLI.Returned
      (CLI.set_passes 1
         (CLI.set_strength (lit "light")
            (CLI.set_tone (lit "professional") CLI.defaults))) /\
  (exists g',
     CLI.processText no_digits (fun _ _ => None) (lit "hello  world.")
       professional light 1 CLI.Null (constant_rng draw_half)
     = Some (CLI.Returned (lit "Hello world."), g')) /\
  well_spaced (lit "Hello world.").
Proof.
  split; [reflexivity|]. split; [exact (processText_example _)|].
  destruct (processText_writes_polished_text no_digits
              (map lit ["-t"; "professional"; "-s"; "light"; "-p"; "1"]%string)
              _ eq_refl) as (tn & Htn & H).
  injection Htn as <-.
  destruct (processText_example (fun _ _ => None)) as (g' & E).
  exact (H _ _ _ _ _ E).
Defined.

(* ================================================================== *)
(** * Sharper bounds on two scores *)
(* ================================================================== *)

Lemma starterFreq_sum starters : forall m : JSMap.t nat,
  list_sum (JSMap.values (fold_left (fun m starter => JSMap.incr starter m)
                                    starters m))
  = list_sum (JSMap.values m) + length starters.
Proof.
  induction starters as [|s starters IH]; intros m; cbn [fold_left length].
  - lia.
  - rewrite IH, list_sum_incr. lia.
Qed.

Lemma count_above_two vals :
  length (filter (fun f => 2 <? f) vals) * 3 <= list_sum vals.
Proof.
  induction vals as [|v vals IH]; [cbn; lia|].
  cbn [filter]. change (list_sum (v :: vals)) with (v + list_sum vals).
  destruct (2 <? v) eqn:E.
  - apply Nat.ltb_lt in E. cbn [length]. lia.
  - lia.
Qed.

Lemma starters_length sentences : length (starters_of sentences) <= length sentences.
Proof.
  unfold starters_of.
  eapply Nat.le_trans; [apply filter_length_le|]. rewrite length_map. lia.
Qed.

Lemma starterRepetition_third sentences :
  starterRepetition sentences * 3 <= length sentences.
Proof.
  unfold starterRepetition, starterFreq.
  eapply Nat.le_trans; [apply count_above_two|].
  rewrite starterFreq_sum. cbn [JSMap.values map list_sum].
  apply starters_length.
Qed.

Section SharperBounds.

Variable toFixed : nat -> R -> jstring.

Local Open Scope R_scope.

Lemma excess_half freq : excess freq <= INR freq / 2.
Proof.
  unfold excess. pose proof (pos_INR freq).
  destruct (2 <? freq)%nat; lra.
Qed.

Lemma sum_excess_half vals : sum_by excess vals <= INR (list_sum vals) / 2.
Proof.
  induction vals as [|v vals IH].
  - unfold sum_by. cbn. lra.
  - rewrite sum_by_cons.
    change (list_sum (v :: vals)) with (v + list_sum vals)%nat.
    rewrite plus_INR. pose proof (excess_half v). lra.
Qed.

(** X21.  For every text the repetition score is at most 1/2 and the
    score of the sentence starters is at most 1/3: a word counts for half
    of its occurrences beyond the second, and a starter counts once however
    many sentences, three at least, begin with it. *)
Theorem repetition_and_starter_bounds (text : jstring) :
  repetitionScore (analyzeAIPatterns toFixed text) <= 1 / 2 /\
  starterScore (analyzeAIPatterns toFixed text) <= 1 / 3.
Proof.
  destruct (list_eq_dec jstring_dec (words_of text) []) as [Ew|Hw].
  { degenerate_branch (or_introl Ew : _ \/ sentences_of text = []). lra. }
  destruct (list_eq_dec jstring_dec (sentences_of text) []) as [Es|Hs].
  { degenerate_branch (or_intror Es : words_of text = [] \/ _). lra. }
  regular_branch Hw Hs. split.
  - assert (Hn : 0 < INR (length (words_of text))).
    { apply lt_0_INR. destruct (words_of text); [congruence | cbn; lia]. }
    pose proof (sum_excess_half (JSMap.values (wordFreq (words_of text)))) as H1.
    pose proof (le_INR _ _ (wordFreq_sum (words_of text))) as H2.
    apply (Rmult_le_reg_r (INR (length (words_of text)))); [exact Hn|].
    unfold Rdiv at 1. rewrite Rmult_assoc, Rinv_l by lra. lra.
  - assert (Hn : 1 <= INR (length (sentences_of text))).
    { change 1 with (INR 1). apply le_INR.
      destruct (sentences_of text); [congruence | cbn; lia]. }
    pose proof (le_INR _ _ (starterRepetition_third (sentences_of text))) as H3.
    rewrite mult_INR in H3. change (INR 3) with (2 + 1) in H3.
    eapply Rle_trans; [apply Rmin_l|].
    rewrite Rmax_left by exact Hn.
    apply (Rmult_le_reg_r (INR (length (sentences_of text)))); [lra|].
    unfold Rdiv at 1. rewrite Rmult_assoc, Rinv_l by lra. lra.
Qed.

End SharperBounds.

(* ================================================================== *)
(** * The length of the text through the stages *)
(* ================================================================== *)

(** The segments of a scan, with the matches left as they are, make up the
    text. *)
Lemma Scan_identity r before after segs :
  Scan r before after segs ->
  concat (map (render (fun m _ => m)) segs) = after.
Proof.
  induction 1 as [before E|before m caps E|before c rest segs E S IH
                 |before c rest caps segs E S IH|before m rest caps segs Hm E S IH];
    cbn [map render concat app].
  - reflexivity.
  - destruct (exec_sound _ _ _ _ _ E) as (rest & Er & _).
    symmetry in Er. apply app_eq_nil in Er. destruct Er as [-> _]. reflexivity.
  - rewrite IH. reflexivity.
  - rewrite IH. reflexivity.
  - rewrite IH. reflexivity.
Qed.

Section ReplaceShorter.

Variable r : regex.
Variable f : jstring -> list jstring -> jstring.

Hypothesis shorter :
  forall before m rest caps,
    exec r before (m ++ rest) = Some (m, caps) ->
    length (f m caps) <= length m.

Lemma Scan_shorter before after segs :
  Scan r before after segs ->
  length (concat (map (render f) segs)) <= length after.
Proof.
  induction 1 as [before E|before m caps E|before c rest segs E S IH
                 |before c rest caps segs E S IH|before m rest caps segs Hm E S IH];
    cbn [map render concat].
  - cbn. lia.
  - destruct (exec_sound _ _ _ _ _ E) as (rest & Er & _).
    symmetry in Er. apply app_eq_nil in Er. destruct Er as [-> ->].
    rewrite app_nil_r. exact (shorter before [] [] caps E).
  - cbn [app length]. lia.
  - pose proof (shorter before [] (c :: rest) caps E) as L.
    rewrite !length_app. cbn [length] in *. lia.
  - pose proof (shorter before m rest caps E) as L.
    rewrite !length_app. lia.
Qed.

Lemma replace_shorter s : length (replace_all r f s) <= length s.
Proof.
  unfold replace_all. exact (Scan_shorter [] s _ (scan_Scan r s)).
Qed.

End ReplaceShorter.

Lemma matches_seq_chr ws : forall before m rest caps,
  matches (seq (map chr ws)) before m rest caps -> m = ws.
Proof.
  induction ws as [|c ws IH]; intros before m rest caps M.
  - inversion M; subst. reflexivity.
  - destruct ws as [|c' ws'].
    + unfold chr in M. cbn [map seq] in M. inversion M; subst.
      match goal with H : Ascii.eqb _ _ = true |- _ => apply Ascii.eqb_eq in H end.
      congruence.
    + change (seq (map chr (c :: c' :: ws')))
        with (Seq (chr c) (seq (map chr (c' :: ws')))) in M.
      inversion M as [| |r1 r2 b m1 m2 rs c1 c2 M1 M2| | | | | | |]; subst.
      apply IH in M2. subst m2.
      unfold chr in M1. inversion M1; subst.
      match goal with H : Ascii.eqb _ _ = true |- _ => apply Ascii.eqb_eq in H end.
      subst. reflexivity.
Qed.

Lemma same_lower_length (m w : jstring) :
  map toLower m = map toLower w -> length m = length w.
Proof.
  intros E. apply (f_equal (@length ascii)) in E.
  rewrite !length_map in E. exact E.
Qed.

Lemma transition_step_shorter (robotic natural : string) s :
  length (lit natural) <= length (lit robotic) ->
  length (replace_all (str_i robotic) (fun _ _ => lit natural) s) <= length s.
Proof.
  intros L. apply replace_shorter. intros before m rest caps E.
  apply exec_matches in E. apply matches_seq_chr_i in E. destruct E as [E _].
  rewrite (same_lower_length _ _ E). exact L.
Qed.

Lemma contraction_step_shorter (full short : string) s :
  length (lit short) <= length (lit full) ->
  length (replace_all (word_re full) (fun _ _ => lit short) s) <= length s.
Proof.
  intros L. apply replace_shorter. intros before m rest caps E.
  apply exec_matches in E. unfold word_re in E. apply bounded_inner in E.
  destruct E as (M & _ & _). apply matches_seq_chr in M. subst m. exact L.
Qed.

Lemma transitions_shorter table : forall text,
  forallb (fun rn => length (lit (snd rn)) <=? length (lit (fst rn))) table = true ->
  length (fold_left (fun result rn =>
                       replace_all (str_i (fst rn)) (fun _ _ => lit (snd rn)) result)
                    table text) <= length text.
Proof.
  induction table as [|rn table IH]; intros text C; cbn [fold_left].
  - lia.
  - cbn [forallb] in C. apply andb_true_iff in C. destruct C as [C1 C2].
    apply Nat.leb_le in C1.
    eapply Nat.le_trans; [apply IH; exact C2|].
    apply transition_step_shorter. exact C1.
Qed.

Lemma contractions_shorter st table : forall text g out,
  forallb (fun pr => length (lit (snd pr)) <=? length (lit (fst pr))) table = true ->
  result_of
    (foldM (fun result pr =>
              bind random (fun r =>
                if Qltb r (contraction_intensity st)
                then ret (replace_all (word_re (fst pr))
                                      (fun _ _ => lit (snd pr)) result)
                else ret result))
           table text g) = Some out ->
  length out <= length text.
Proof.
  induction table as [|pr table IH]; intros text g out C H; cbn [foldM] in H.
  - apply ret_result in H. subst out. lia.
  - cbn [forallb] in C. apply andb_true_iff in C. destruct C as [C1 C2].
    apply Nat.leb_le in C1.
    destruct (bind_result _ _ _ _ _ _ H) as (x & g1 & Hx & Hr).
    specialize (IH _ _ _ C2 Hr).
    unfold bind, random in Hx.
    destruct (Qltb (value (g 0)) (contraction_intensity st));
      unfold ret in Hx; injection Hx as <- _.
    + eapply Nat.le_trans; [exact IH|].
      apply contraction_step_shorter. exact C1.
    + exact IH.
Qed.

(** X22.  [removeRoboticTransitions] and [addContractions] never make a
    text longer: each of their replacements is at most as long as the
    phrase that it replaces. *)
Theorem transitions_and_contractions_never_lengthen :
  (forall text, length (removeRoboticTransitions text) <= length text) /\
  (forall text st g out,
     result_of (addContractions text st g) = Some out ->
     length out <= length text).
Proof.
  split.
  - intros text. unfold removeRoboticTransitions.
    apply transitions_shorter. vm_compute. reflexivity.
  - intros text st g out H. unfold addContractions in H.
    apply (contractions_shorter st contractions text g out); [|exact H].
    vm_compute. reflexivity.
Qed.

Lemma transitions_and_contractions_never_lengthen_witness :
  result_of (addContractions (lit "It is what it is.") aggressive
               (constant_rng draw_half))
  = Some (lit "It is what it's.") /\
  length (lit "It is what it's.") <= length (lit "It is what it is.").
Proof.
  assert (E : result_of (addContractions (lit "It is what it is.") aggressive
                           (constant_rng draw_half))
              = Some (lit "It is what it's.")) by (vm_compute; reflexivity).
  split; [exact E|].
  exact (proj2 transitions_and_contractions_never_lengthen _ _ _ _ E).
Defined.

(** ** [addNaturalFlow] *)

Lemma flow_parts_longer words q segs : forall g parts g',
  mapM (flow_segment words q) segs g = Some (parts, g') ->
  length (concat (map (render (fun m _ => m)) segs)) <= length (concat parts).
Proof.
  induction segs as [|s segs IH]; intros g parts g' H.
  - cbn in H. unfold ret in H. injection H as <- _. cbn. lia.
  - destruct (mapM_cons_inv _ _ _ _ _ _ _ _ H) as (p & ps & g1 & Hp & Hps & ->).
    specialize (IH _ _ _ Hps). cbn [map concat]. rewrite !length_app.
    destruct s as [c|m caps]; cbn [render].
    + cbn [flow_segment] in Hp. unfold ret in Hp. injection Hp as <- _. lia.
    + destruct (flow_segment_hit _ _ _ _ _ _ _ Hp) as [->|(w & _ & ->)].
      * lia.
      * rewrite !length_app. lia.
Qed.

Lemma flow_parts_kept words q segs : forall g,
  draws_at_least q g ->
  exists g', mapM (flow_segment words q) segs g
             = Some (map (render (fun m _ => m)) segs, g') /\
             draws_at_least q g'.
Proof.
  induction segs as [|s segs IH]; intros g D.
  - exists g. split; [reflexivity | exact D].
  - assert (S1 : exists g1, flow_segment words q s g
                            = Some (render (fun m _ => m) s, g1) /\
                            draws_at_least q g1).
    { destruct s as [c|m caps]; cbn [flow_segment render].
      - exists g. split; [reflexivity | exact D].
      - unfold bind, random. unfold Qltb. rewrite (D 0). cbn [negb].
        unfold ret. eexists. split; [reflexivity|].
        apply draws_at_least_next. exact D. }
    destruct S1 as (g1 & E1 & D1). destruct (IH g1 D1) as (g2 & E2 & D2).
    exists g2. split; [|exact D2].
    cbn [mapM map]. unfold bind. rewrite E1, E2. reflexivity.
Qed.

(** X23.  [addNaturalFlow] only inserts: its result is never shorter than
    the text, and it is the text itself when no draw falls below the
    intensity of the strength (0.15, 0.1 or 0.05). *)
Theorem addNaturalFlow_only_inserts (text : jstring) (tn : tone) (st : strength)
  (g : rng) (out : jstring) :
  result_of (addNaturalFlow text tn st g) = Some out ->
  length text <= length out /\
  (draws_at_least (flow_intensity st) g -> out = text).
Proof.
  unfold addNaturalFlow. intros H.
  destruct (bind_result _ _ _ _ _ _ H) as (parts & g1 & Hp & Hr).
  apply ret_result in Hr. subst out.
  pose proof (Scan_identity flow_re [] text _ (scan_Scan flow_re text)) as Id.
  split.
  - pose proof (flow_parts_longer _ _ _ _ _ _ Hp) as L.
    rewrite Id in L. exact L.
  - intros D.
    destruct (flow_parts_kept (emphasisWords tn) (flow_intensity st)
                (scan flow_re text) g D) as (g2 & E & _).
    rewrite E in Hp. injection Hp as <- _. exact Id.
Qed.

Lemma addNaturalFlow_only_inserts_witness :
  result_of (addNaturalFlow (lit "It is so.") casual light (constant_rng draw_zero))
  = Some (lit "It really is so.") /\
  length (lit "It is so.") <= length (lit "It really is so.").
Proof.
  assert (E : result_of (addNaturalFlow (lit "It is so.") casual light
                           (constant_rng draw_zero))
              = Some (lit "It really is so.")) by (vm_compute; reflexivity).
  split; [exact E|].
  exact (proj1 (addNaturalFlow_only_inserts _ _ _ _ _ E)).
Defined.

(* ================================================================== *)
(** * The analysis and the case of letters *)
(* ================================================================== *)

Section MatchUnderMap.

Variable f : ascii -> ascii.
Hypothesis word_same : forall c, is_word (f c) = is_word c.

Lemma star_states_map (P : ascii -> bool) after :
  (forall c, P (f c) = P c) ->
  forall before,
    star_states P (map f before) (map f after)
    = map (fun ba => (map f (fst ba), map f (snd ba))) (star_states P before after).
Proof.
  intros HP. induction after as [|c rest IH]; intros before;
    cbn [map star_states].
  - reflexivity.
  - rewrite HP. destruct (P c); [|reflexivity].
    rewrite map_app. cbn [map fst snd].
    change (f c :: map f before) with (map f (c :: before)).
    rewrite IH. reflexivity.
Qed.

Lemma word_before_map before : word_before (map f before) = word_before before.
Proof. destruct before; [reflexivity | apply word_same]. Qed.

Lemma word_after_map after : word_after (map f after) = word_after after.
Proof. destruct after; [reflexivity | apply word_same]. Qed.

Lemma capture_map (before before' : jstring) :
  rev (firstn (length (map f before') - length (map f before)) (map f before'))
  = map f (rev (firstn (length before' - length before) before')).
Proof.
  rewrite !length_map, firstn_map, map_rev. reflexivity.
Qed.

Lemma rmatch_map r :
  stable f r ->
  forall st, rmatch r (state_map f st) = map (state_map f) (rmatch r st).
Proof.
  induction r as [|P|r1 IH1 r2 IH2|r1 IH1 r2 IH2|P|r1 IH1| | |];
    intros S [[before after] caps]; cbn [state_map].
  - reflexivity.
  - cbn [rmatch]. destruct after as [|c rest]; [reflexivity|].
    cbn [map]. cbn [stable] in S. rewrite S.
    destruct (P c); reflexivity.
  - destruct S as [S1 S2].
    change (map f before, map f after, map (map f) caps)
      with (state_map f (before, after, caps)).
    rewrite !rmatch_Seq, (IH1 S1).
    generalize (rmatch r1 (before, after, caps)). intros l.
    induction l as [|s l IHl]; [reflexivity|].
    cbn [map flat_map]. rewrite map_app, IHl, (IH2 S2). reflexivity.
  - destruct S as [S1 S2].
    change (map f before, map f after, map (map f) caps)
      with (state_map f (before, after, caps)).
    cbn [rmatch].
    change (rmatch r1 (state_map f (before, after, caps))
            ++ rmatch r2 (state_map f (before, after, caps))
            = map (state_map f)
                (rmatch r1 (before, after, caps) ++ rmatch r2 (before, after, caps))).
    rewrite map_app, (IH1 S1), (IH2 S2). reflexivity.
  - rewrite !rmatch_StarC. cbn [stable] in S.
    rewrite (star_states_map P after S before), !map_map. reflexivity.
  - cbn [stable] in S.
    change (map f before, map f after, map (map f) caps)
      with (state_map f (before, after, caps)).
    cbn [rmatch].
    change (map (fun st' : mstate =>
                   let '(before', after', caps') := st' in
                   (before', after',
                    caps' ++ [rev (firstn (length before' - length (map f before))
                                          before')]))
                (rmatch r1 (state_map f (before, after, caps)))
            = map (state_map f)
                (map (fun st' : mstate =>
                        let '(before', after', caps') := st' in
                        (before', after',
                         caps' ++ [rev (firstn (length before' - length before)
                                               before')]))
                     (rmatch r1 (before, after, caps)))).
    rewrite (IH1 S), !map_map. apply map_ext.
    intros [[b' a'] c']. cbn [state_map]. rewrite map_app. cbn [map].
    rewrite capture_map. reflexivity.
  - cbn [rmatch]. rewrite word_before_map, word_after_map.
    destruct (xorb _ _); reflexivity.
  - cbn [rmatch]. destruct before; reflexivity.
  - cbn [rmatch]. destruct after; reflexivity.
Qed.

Lemma exec_map r before after :
  stable f r ->
  exec r (map f before) (map f after)
  = match exec r before after with
    | Some (m, caps) => Some (map f m, map (map f) caps)
    | None => None
    end.
Proof.
  intros S. unfold exec.
  pose proof (rmatch_map r S (before, after, [])) as E.
  cbn [state_map map] in E. unfold jstring in *. rewrite E. clear E.
  destruct (rmatch r _) as [|[[b' a'] c'] l]; [reflexivity|].
  cbn [map state_map]. rewrite capture_map. reflexivity.
Qed.

Lemma scan_from_map r after :
  stable f r ->
  forall before skip,
    scan_from r (map f before) (map f after) skip
    = map (seg_map f) (scan_from r before after skip).
Proof.
  intros S. induction after as [|c rest IH]; intros before skip;
    cbn [map scan_from].
  - destruct skip; [|reflexivity].
    change (@nil ascii) with (map f []) at 1. rewrite (exec_map r before [] S).
    destruct (exec r before []) as [[m caps]|]; reflexivity.
  - destruct skip as [|k].
    + change (f c :: map f rest) with (map f (c :: rest)).
      rewrite (exec_map r before (c :: rest) S).
      change (map f (c :: rest)) with (f c :: map f rest).
      destruct (exec r before (c :: rest)) as [[[|x m'] caps]|];
        cbn [map seg_map];
        change (f c :: map f before) with (map f (c :: before));
        rewrite ?length_map, IH; reflexivity.
    + change (f c :: map f before) with (map f (c :: before)). apply IH.
Qed.

Lemma scan_map r s :
  stable f r -> scan r (map f s) = map (seg_map f) (scan r s).
Proof.
  intros S. unfold scan. change (@nil ascii) with (map f []) at 1.
  apply scan_from_map. exact S.
Qed.

Lemma hits_map segs : hits (map (seg_map f) segs) = map (map f) (hits segs).
Proof.
  induction segs as [|[c|m caps] segs IH]; cbn [map seg_map hits];
    rewrite ?IH; reflexivity.
Qed.

Lemma match_count_map r s :
  stable f r -> match_count r (map f s) = match_count r s.
Proof.
  intros S. unfold match_count, match_all. rewrite (scan_map r s S), hits_map.
  destruct (hits (scan r s)); [reflexivity|]. cbn [map length].
  rewrite length_map. reflexivity.
Qed.

Lemma split_segs_map segs : forall acc,
  split_segs (map f acc) (map (seg_map f) segs)
  = map (map f) (split_segs acc segs).
Proof.
  induction segs as [|[c|m caps] segs IH]; intros acc;
    cbn [map seg_map split_segs].
  - rewrite map_rev. reflexivity.
  - change (f c :: map f acc) with (map f (c :: acc)). apply IH.
  - rewrite map_app. change (@nil ascii) with (map f []) at 1.
    rewrite IH, map_rev. reflexivity.
Qed.

Lemma split_map r s :
  stable f r -> split r (map f s) = map (map f) (split r s).
Proof.
  intros S. unfold split. rewrite (scan_map r s S).
  change (@nil ascii) with (map f []) at 1. apply split_segs_map.
Qed.

End MatchUnderMap.

(** ** The patterns of the analyzer under [toLowerCase] *)

Lemma stable_seq f rs : Forall (stable f) rs -> stable f (seq rs).
Proof.
  induction 1 as [|r rs Hr _ IH]; [exact I|].
  destruct rs as [|r' rs']; [exact Hr|].
  change (seq (r :: r' :: rs')) with (Seq r (seq (r' :: rs'))).
  split; [exact Hr | exact IH].
Qed.

Lemma stable_alt f rs : Forall (stable f) rs -> stable f (alt rs).
Proof.
  induction 1 as [|r rs Hr _ IH]; [intros c; reflexivity|].
  destruct rs as [|r' rs']; [exact Hr|].
  change (alt (r :: r' :: rs')) with (Alt r (alt (r' :: rs'))).
  split; [exact Hr | exact IH].
Qed.

Lemma stable_plus f (P : ascii -> bool) :
  (forall c, P (f c) = P c) -> stable f (PlusC P).
Proof. intros H. split; exact H. Qed.

Lemma stable_str_i (w : string) : stable toLower (str_i w).
Proof.
  unfold str_i. apply stable_seq. apply Forall_map. apply Forall_forall.
  intros c _ x. cbn. rewrite toLower_idem. reflexivity.
Qed.

Lemma stable_alt_str_i (ws : list string) : stable toLower (alt (map str_i ws)).
Proof.
  apply stable_alt. apply Forall_map. apply Forall_forall.
  intros w _. apply stable_str_i.
Qed.

Lemma stable_group f r : stable f r -> stable f (Group r).
Proof. exact (fun H => H). Qed.

Lemma terminator_toLower c : one_of ".!?" (toLower c) = one_of ".!?" c.
Proof. by_cases_on c. Qed.

Lemma stable_passive : Forall (stable toLower) passivePatterns.
Proof.
  unfold passivePatterns, to_be. repeat (apply Forall_cons || apply Forall_nil);
    apply stable_seq;
    repeat first
      [ apply Forall_nil
      | apply Forall_cons;
        [ first [ exact I
                | apply stable_str_i
                | apply stable_group; apply stable_alt_str_i
                | apply stable_plus;
                  first [ exact is_space_toLower | exact is_word_toLower ] ] | ] ].
Qed.

Lemma stable_contraction : stable toLower contractionPattern.
Proof.
  unfold contractionPattern. apply stable_seq.
  apply Forall_cons; [exact I|].
  apply Forall_cons; [apply stable_group; apply stable_alt_str_i|].
  apply Forall_cons; [exact I | apply Forall_nil].
Qed.

(** ** The parts of the analysis on the text in lower case *)

Lemma toLowerCase_idem s : toLowerCase (toLowerCase s) = toLowerCase s.
Proof.
  unfold toLowerCase. rewrite map_map. apply map_ext. exact toLower_idem.
Qed.

Lemma trimStart_lower s : trimStart (map toLower s) = map toLower (trimStart s).
Proof.
  induction s as [|c s IH]; [reflexivity|]. cbn [map trimStart].
  rewrite is_space_toLower. destruct (is_space c); [exact IH | reflexivity].
Qed.

Lemma trim_lower s : trim (toLowerCase s) = toLowerCase (trim s).
Proof.
  unfold trim, trimEnd, toLowerCase.
  rewrite trimStart_lower, <- map_rev, trimStart_lower, map_rev. reflexivity.
Qed.

Lemma sentences_lower text :
  sentences_of (toLowerCase text) = map toLowerCase (sentences_of text).
Proof.
  unfold sentences_of, toLowerCase at 1.
  rewrite (split_map toLower is_word_toLower _ _
             (stable_plus toLower _ terminator_toLower)).
  rewrite filter_map_swap. f_equal. apply filter_ext. intros s.
  change (map toLower s) with (toLowerCase s).
  rewrite trim_lower. unfold toLowerCase. rewrite length_map. reflexivity.
Qed.

Lemma sentence_words_lower s :
  sentence_words (toLowerCase s) = map toLowerCase (sentence_words s).
Proof.
  unfold sentence_words. rewrite trim_lower. unfold toLowerCase.
  exact (split_map toLower is_word_toLower _ _
           (stable_plus toLower _ is_space_toLower)).
Qed.

Lemma sentence_words_length s :
  length (sentence_words (toLowerCase s)) = length (sentence_words s).
Proof. rewrite sentence_words_lower. apply length_map. Qed.

Lemma sentenceLengths_lower ss :
  sentenceLengths (map toLowerCase ss) = sentenceLengths ss.
Proof.
  unfold sentenceLengths. rewrite map_map. apply map_ext.
  exact sentence_words_length.
Qed.

Lemma starters_lower ss : starters_of (map toLowerCase ss) = starters_of ss.
Proof.
  unfold starters_of. rewrite map_map. f_equal. apply map_ext. intros s.
  rewrite sentence_words_lower.
  destruct (sentence_words s) as [|w ws]; [reflexivity|].
  cbn [map]. apply toLowerCase_idem.
Qed.

Lemma starterRepetition_lower ss :
  starterRepetition (map toLowerCase ss) = starterRepetition ss.
Proof. unfold starterRepetition. rewrite starters_lower. reflexivity. Qed.

Lemma comma_toLower c : Ascii.eqb "," (toLower c) = Ascii.eqb "," c.
Proof. by_cases_on c. Qed.

Lemma includes_comma_lower s :
  includes (toLowerCase s) (lit ",") = includes s (lit ",").
Proof.
  unfold toLowerCase. induction s as [|c s IH]; [reflexivity|].
  cbn [map includes]. rewrite IH. f_equal.
  cbn [lit list_ascii_of_string starts_with]. rewrite comma_toLower.
  reflexivity.
Qed.

Lemma forallb_map (A B : Type) (p : B -> bool) (g : A -> B) l :
  forallb p (map g l) = forallb (fun a => p (g a)) l.
Proof.
  induction l as [|a l IH]; [reflexivity|]. cbn. rewrite IH. reflexivity.
Qed.

Lemma forallb_ext (A : Type) (p q : A -> bool) l :
  (forall a, p a = q a) -> forallb p l = forallb q l.
Proof.
  intros H. induction l as [|a l IH]; [reflexivity|]. cbn.
  rewrite H, IH. reflexivity.
Qed.

Lemma perfectStructure_lower ss :
  perfectStructureIndicators (map toLowerCase ss) = perfectStructureIndicators ss.
Proof.
  unfold perfectStructureIndicators. rewrite length_map, !forallb_map.
  rewrite (forallb_ext _ (fun a => 15 <? length (sentence_words (toLowerCase a)))
             (fun s => 15 <? length (sentence_words s)))
    by (intros a; rewrite sentence_words_length; reflexivity).
  rewrite (forallb_ext _ (fun a => includes (toLowerCase a) (lit ","))
             (fun s => includes s (lit ",")))
    by exact includes_comma_lower.
  reflexivity.
Qed.

Lemma count_passive_lower text :
  count_passive (toLowerCase text) = count_passive text.
Proof.
  unfold count_passive, toLowerCase.
  pose proof stable_passive as S. revert S.
  generalize passivePatterns. generalize 0.
  intros n l. revert n. induction l as [|r l IH]; intros n S; [reflexivity|].
  inversion S as [|x y Sr Sl]; subst. cbn [fold_left].
  rewrite (match_count_map toLower is_word_toLower r text Sr).
  apply IH. exact Sl.
Qed.

Lemma count_contractions_lower text :
  count_contractions (toLowerCase text) = count_contractions text.
Proof.
  unfold count_contractions, toLowerCase.
  exact (match_count_map toLower is_word_toLower _ text stable_contraction).
Qed.

Lemma words_lower text : words_of (toLowerCase text) = words_of text.
Proof. unfold words_of. rewrite toLowerCase_idem. reflexivity. Qed.

Lemma transitionCount_lower text :
  transitionCount (toLowerCase text) = transitionCount text.
Proof. unfold transitionCount. rewrite toLowerCase_idem. reflexivity. Qed.

Lemma newline_toLower c : Ascii.eqb "010" (toLower c) = Ascii.eqb "010" c.
Proof. by_cases_on c. Qed.

Lemma starts_with_blank_line s :
  starts_with (lit (String "010" (String "010" ""))) (map toLower s)
  = starts_with (lit (String "010" (String "010" ""))) s.
Proof.
  destruct s as [|a [|b s]]; cbn [map lit list_ascii_of_string starts_with];
    rewrite ?newline_toLower; reflexivity.
Qed.

Lemma split_lit_lower s : forall acc skip,
  split_lit_from (lit (String "010" (String "010" ""))) (map toLower acc) skip
                 (map toLower s)
  = map (map toLower)
        (split_lit_from (lit (String "010" (String "010" ""))) acc skip s).
Proof.
  induction s as [|c s IH]; intros acc skip.
  - cbn [map split_lit_from]. rewrite map_rev. reflexivity.
  - cbn [map]. destruct skip as [|k].
    + change (split_lit_from ?sep ?a 0 (?x :: ?t))
        with (if starts_with sep (x :: t)
              then rev a :: split_lit_from sep [] (length sep - 1) t
              else split_lit_from sep (x :: a) 0 t).
      change (toLower c :: map toLower s) with (map toLower (c :: s)) at 1.
      rewrite starts_with_blank_line.
      destruct (starts_with _ (c :: s)).
      * cbn [map]. rewrite map_rev.
        change (@nil ascii) with (map toLower []) at 1. rewrite IH.
        reflexivity.
      * change (toLower c :: map toLower acc) with (map toLower (c :: acc)).
        apply IH.
    + cbn [split_lit_from]. apply IH.
Qed.

Lemma paragraphs_lower text :
  paragraphs_of (toLowerCase text) = map toLowerCase (paragraphs_of text).
Proof.
  unfold paragraphs_of, split_lit, toLowerCase at 1.
  change (@nil ascii) with (map toLower []) at 1.
  rewrite split_lit_lower, filter_map_swap. f_equal. apply filter_ext.
  intros s. change (map toLower s) with (toLowerCase s).
  rewrite trim_lower. unfold toLowerCase. rewrite length_map. reflexivity.
Qed.

Lemma paragraphConsistency_lower text :
  paragraphConsistency (toLowerCase text) = paragraphConsistency text.
Proof.
  unfold paragraphConsistency. cbv zeta. rewrite paragraphs_lower.
  rewrite length_map, map_map.
  rewrite (map_ext (fun x => length (toLowerCase x)) (@length ascii))
    by (intros a; apply length_map).
  reflexivity.
Qed.

Section CaseOfLetters.

Variable toFixed : nat -> R -> jstring.

Lemma analysis_of_lower text :
  analyzeAIPatterns toFixed (toLowerCase text) = analyzeAIPatterns toFixed text.
Proof.
  unfold analyzeAIPatterns, degenerate. cbv zeta.
  rewrite words_lower, sentences_lower, count_passive_lower,
    count_contractions_lower, transitionCount_lower, paragraphConsistency_lower.
  rewrite !length_map, sentenceLengths_lower, starterRepetition_lower,
    perfectStructure_lower.
  reflexivity.
Qed.

(** X24.  The analysis does not depend on the case of letters: two texts
    that are equal once put in lower case get the same record, in every
    field. *)
Theorem analysis_ignores_case (text1 text2 : jstring) :
  toLowerCase text1 = toLowerCase text2 ->
  analyzeAIPatterns toFixed text1 = analyzeAIPatterns toFixed text2.
Proof.
  intros E. rewrite <- (analysis_of_lower text1), <- (analysis_of_lower text2), E.
  reflexivity.
Qed.

End CaseOfLetters.

Lemma analysis_ignores_case_witness :
  toLowerCase (lit "It IS Utilized.") = toLowerCase (lit "it is utilized.") /\
  analyzeAIPatterns no_digits (lit "It IS Utilized.")
  = analyzeAIPatterns no_digits (lit "it is utilized.").
Proof.
  assert (E : toLowerCase (lit "It IS Utilized.")
              = toLowerCase (lit "it is utilized.")) by reflexivity.
  split; [exact E|].
  apply analysis_ignores_case. exact E.
Defined.

(* ================================================================== *)
(** * [makeProfessional] applied twice, and the exits of [processText] *)
(* ================================================================== *)

Lemma no_token_no_match (w : string) s :
  lit w <> [] -> Forall (fun c => is_word c = true) (lit w) ->
  ~ In (map toLower (lit w)) (tokens s) ->
  forall f, replace_all (word_re_i w) f s = s.
Proof.
  intros Hne Hw N f. apply replace_all_no_hit.
  destruct (test (word_re_i w) s) eqn:T; [|reflexivity].
  exfalso. apply N. exact (test_word_token w Hne Hw s T).
Qed.

(** X25.  [makeProfessional] is idempotent: applied to its own result it
    changes nothing, since none of the five informal words is left and no
    replacement is one of them. *)
Theorem makeProfessional_idempotent (text : jstring) (st : strength) :
  makeProfessional (makeProfessional text st) st = makeProfessional text st.
Proof.
  pose proof (makeProfessional_formal text st) as F.
  set (s := makeProfessional text st) in *.
  assert (N : forall w, In w informal_words ->
                        ~ In (map toLower (lit w)) (tokens s)).
  { intros w Hw I. apply (F _ I).
    cbn [informal_words In] in Hw. cbn [map informal_words In].
    repeat (destruct Hw as [<-|Hw]; [vm_compute; tauto|]). destruct Hw. }
  assert (K : forall (w : string) f,
             In w informal_words -> replace_all (word_re_i w) f s = s).
  { intros w f Hw. apply no_token_no_match; [| |exact (N w Hw)];
      cbn [informal_words In] in Hw;
      repeat (destruct Hw as [<-|Hw];
              [first [discriminate | repeat constructor]|]);
      destruct Hw. }
  unfold makeProfessional at 1. cbv zeta.
  rewrite !K by (cbn [informal_words In]; tauto).
  reflexivity.
Qed.





